(** * Verification of the two caches of goit-algo2-hw-07

    [part_1.py]: an LRU cache over an [OrderedDict], keyed by inclusive
    ranges, with the cached range-sum and point-update helpers.
    [part_2.py]: a splay tree with parent links used as a memo table for
    the Fibonacci numbers.

    The Python objects are embedded shallowly: the [OrderedDict] is an
    association list from least to most recently used, a Python exception
    is a value of [pyresult], and the node objects of the splay tree live
    in an explicit store addressed by locations, so that aliasing and the
    parent back-references are the ones of the source.  The query
    generator and the benchmark of [part_1.py] read an explicit stream of
    random draws; durations, printing and plotting are not modelled. *)

From stdpp Require Import base option list numbers sorting sets gmap.
From Stdlib Require Import ZArith QArith Lia.

Local Open Scope Z_scope.
Set Warnings "-clear-no-such-hyp".

(** ** Python exceptions *)

Inductive exn := IndexError | KeyError.

Inductive pyresult (A : Type) :=
  | Ok (a : A)
  | Raise (e : exn).
Arguments Ok {A} a.
Arguments Raise {A} e.

Definition pybind {A B} (m : pyresult A) (f : A → pyresult B) : pyresult B :=
  match m with
  | Ok a => f a
  | Raise e => Raise e
  end.

Notation "x ←! m ; k" := (pybind m (λ x, k))
  (at level 20, m at level 100, k at level 200, right associativity,
   format "x  ←!  m ;  '/' k").

(** ** [collections.OrderedDict] with tuple keys

    Entries are listed from the first (oldest) position to the last. *)

Definition Key : Type := Z * Z.

Module OrderedDict.

Abbreviation t := (list (Key * Z)).

Definition empty : t := [].

Fixpoint lookup (k : Key) (d : t) : option Z :=
  match d with
  | [] => None
  | (k', v) :: d' => if decide (k = k') then Some v else lookup k d'
  end.

(** [key in d] *)
Definition contains (k : Key) (d : t) : bool :=
  match lookup k d with Some _ => true | None => false end.

(** [d[key]] *)
Definition getitem (k : Key) (d : t) : pyresult Z :=
  match lookup k d with Some v => Ok v | None => Raise KeyError end.

Definition remove (k : Key) (d : t) : t :=
  filter (λ e, e.1 ≠ k) d.

(** [d.move_to_end(key)] *)
Definition move_to_end (k : Key) (d : t) : pyresult t :=
  match lookup k d with
  | Some v => Ok (remove k d ++ [(k, v)])
  | None => Raise KeyError
  end.

(** [d[key] = value]: an existing key keeps its position *)
Fixpoint setitem (k : Key) (v : Z) (d : t) : t :=
  match d with
  | [] => [(k, v)]
  | (k', v') :: d' =>
      if decide (k = k') then (k, v) :: d' else (k', v') :: setitem k v d'
  end.

(** [d.popitem(last=False)] *)
Definition popitem_first (d : t) : pyresult ((Key * Z) * t) :=
  match d with
  | [] => Raise KeyError
  | e :: d' => Ok (e, d')
  end.

(** [del d[key]] *)
Definition delitem (k : Key) (d : t) : pyresult t :=
  if contains k d then Ok (remove k d) else Raise KeyError.

(** [list(d.keys())] *)
Definition keys (d : t) : list Key := d.*1.

(** [len(d)] *)
Definition len (d : t) : Z := Z.of_nat (length d).

End OrderedDict.

(** ** [class LRUCache] *)

Module LRUCache.

Record t := mk { capacity : Z; _cache : OrderedDict.t }.

Definition with_cache (self : t) (d : OrderedDict.t) : t :=
  {| capacity := capacity self; _cache := d |}.

Definition __init__ (capacity : Z) : pyresult t :=
  Ok {| capacity := capacity; _cache := OrderedDict.empty |}.

Definition get (key : Key) (self : t) : pyresult (Z * t) :=
  if OrderedDict.contains key (_cache self) then
    d ←! OrderedDict.move_to_end key (_cache self);
    v ←! OrderedDict.getitem key d;
    Ok (v, with_cache self d)
  else Ok (-1, self).

Definition put (key : Key) (value : Z) (self : t) : pyresult t :=
  d ←! (if OrderedDict.contains key (_cache self)
        then OrderedDict.move_to_end key (_cache self)
        else Ok (_cache self));
  let d := OrderedDict.setitem key value d in
  if capacity self <? OrderedDict.len d then
    r ←! OrderedDict.popitem_first d;
    Ok (with_cache self r.2)
  else Ok (with_cache self d).

(** The loop body of [invalidate_ranges_containing] for one key of the
    snapshot [list(self._cache.keys())]. *)
Definition invalidate_step (index : Z) (d : OrderedDict.t) (key : Key)
    : pyresult OrderedDict.t :=
  let left := key.1 in
  let right := key.2 in
  if (left <=? index) && (index <=? right)
  then OrderedDict.delitem key d
  else Ok d.

Fixpoint invalidate_loop (index : Z) (ks : list Key) (d : OrderedDict.t)
    : pyresult OrderedDict.t :=
  match ks with
  | [] => Ok d
  | key :: ks' =>
      d' ←! invalidate_step index d key;
      invalidate_loop index ks' d'
  end.

Definition invalidate_ranges_containing (index : Z) (self : t) : pyresult t :=
  d ←! invalidate_loop index (OrderedDict.keys (_cache self)) (_cache self);
  Ok (with_cache self d).

End LRUCache.

(** ** Lists of integers: slices, [sum], item assignment *)

Abbreviation Array := (list Z).

(** [PySlice_AdjustIndices] for a step of one: a negative bound counts
    from the end, and every bound is clamped to [0, len]. *)
Definition adjust_index (i len : Z) : Z :=
  if i <? 0 then (if i + len <? 0 then 0 else i + len)
  else if len <=? i then len else i.

(** [l[start:stop]]; slicing never raises. *)
Definition py_slice (l : Array) (start stop : Z) : Array :=
  let len := Z.of_nat (length l) in
  let s := adjust_index start len in
  let e := adjust_index stop len in
  take (Z.to_nat (e - s)) (drop (Z.to_nat s) l).

(** [sum(l)] *)
Definition sum (l : Array) : Z := foldr Z.add 0 l.

(** [l[i] = v]: a negative index counts from the end, and an index
    outside [-len, len) raises [IndexError]. *)
Definition list_setitem (l : Array) (i v : Z) : pyresult Array :=
  let len := Z.of_nat (length l) in
  let j := if i <? 0 then i + len else i in
  if (0 <=? j) && (j <? len) then Ok (<[Z.to_nat j := v]> l)
  else Raise IndexError.

(** ** The four functions of [part_1.py]

    The array and the cache are mutated in place by the source; here the
    new array and the new cache are returned next to the result. *)

Definition range_sum_no_cache (array : Array) (left right : Z) : pyresult Z :=
  Ok (sum (py_slice array left (right + 1))).

Definition update_no_cache (array : Array) (index value : Z) : pyresult Array :=
  list_setitem array index value.

Definition range_sum_with_cache (array : Array) (left right : Z)
    (cache : LRUCache.t) : pyresult (Z * LRUCache.t) :=
  let key := (left, right) in
  r ←! LRUCache.get key cache;
  let '(res, cache) := r in
  if res =? -1 then
    let res := sum (py_slice array left (right + 1)) in
    cache ←! LRUCache.put key res cache;
    Ok (res, cache)
  else Ok (res, cache).

Definition update_with_cache (array : Array) (index value : Z)
    (cache : LRUCache.t) : pyresult (Array * LRUCache.t) :=
  array ←! list_setitem array index value;
  cache ←! LRUCache.invalidate_ranges_containing index cache;
  Ok (array, cache).

(** The queries of [_run_queries] with [use_cache=True]. *)
Inductive query :=
  | Range (left right : Z)
  | Update (idx val : Z).

(** One iteration of the loop of [_run_queries] on the cached path. *)
Definition run_query (q : query) (st : Array * LRUCache.t)
    : pyresult (Array * LRUCache.t) :=
  match q with
  | Range l r =>
      res ←! range_sum_with_cache st.1 l r st.2;
      Ok (st.1, res.2)
  | Update idx val => update_with_cache st.1 idx val st.2
  end.

Fixpoint run_queries (qs : list query) (st : Array * LRUCache.t)
    : pyresult (Array * LRUCache.t) :=
  match qs with
  | [] => Ok st
  | q :: qs' => st' ←! run_query q st; run_queries qs' st'
  end.

(** ** [_run_queries]

    The loop of [_run_queries] with both settings of [use_cache].  The
    state of the loop is the list (mutated in place by the source), the
    cache object ([None] without the cache) and the local [checksum].
    The source returns the duration of the loop, which is not modelled:
    the result here is the list and the checksum when the loop ends. *)

Definition _run_queries_body (q : query) (st : Array * option LRUCache.t * Z)
    : pyresult (Array * option LRUCache.t * Z) :=
  let '(array, cache, checksum) := st in
  match q with
  | Range l r =>
      match cache with
      | Some cache =>
          res ←! range_sum_with_cache array l r cache;
          Ok (array, Some res.2, Z.lxor checksum res.1)
      | None =>
          res ←! range_sum_no_cache array l r;
          Ok (array, None, Z.lxor checksum res)
      end
  | Update idx val =>
      match cache with
      | Some cache =>
          r ←! update_with_cache array idx val cache;
          Ok (r.1, Some r.2, checksum)
      | None =>
          array ←! update_no_cache array idx val;
          Ok (array, None, checksum)
      end
  end.

Fixpoint _run_queries_loop (queries : list query)
    (st : Array * option LRUCache.t * Z)
    : pyresult (Array * option LRUCache.t * Z) :=
  match queries with
  | [] => Ok st
  | q :: queries' =>
      st' ←! _run_queries_body q st; _run_queries_loop queries' st'
  end.

Definition _run_queries (array : Array) (queries : list query)
    (use_cache : bool) : pyresult (Array * Z) :=
  cache ←! (if use_cache then c ←! LRUCache.__init__ 1000; Ok (Some c)
            else Ok None);
  st ←! _run_queries_loop queries (array, cache, 0);
  Ok (st.1.1, st.2).

(** ** The [random] module

    The generator is a stream of raw draws, read one after the other.
    [randint(a, b)] maps a draw into [a..b], [random()] into the
    multiples of 2^-53 in [0, 1), [choice(seq)] onto an element of
    [seq]: every result that the library can return is the result for
    some stream, and the statements below hold for all streams. *)

Module random.

Record generator := mk { draws : nat → Z; used : nat }.

(** [ValueError], or an exception of the list and cache operations. *)
Inductive error := ValueError | Uncaught (e : exn).

Definition M (A : Type) : Type := generator → error + A * generator.

Definition ret {A} (a : A) : M A := λ g, inr (a, g).

Definition bind {A B} (m : M A) (f : A → M B) : M B :=
  λ g, match m g with
       | inl e => inl e
       | inr (a, g') => f a g'
       end.

Definition raise {A} (e : error) : M A := λ _, inl e.

Definition lift {A} (r : pyresult A) : M A :=
  match r with
  | Ok a => ret a
  | Raise e => raise (Uncaught e)
  end.

Declare Scope random_scope.
Delimit Scope random_scope with random.
Notation "x ← m ; k" := (bind m (λ x, k))
  (at level 20, m at level 100, k at level 200, right associativity,
   format "x  ←  m ;  '/' k") : random_scope.
Local Open Scope random_scope.

Definition next : M Z :=
  λ g, inr (draws g (used g), mk (draws g) (S (used g))).

(** [random.randint(a, b)]: an empty range raises [ValueError]. *)
Definition randint (a b : Z) : M Z :=
  if b <? a then raise ValueError
  else z ← next; ret (a + z `mod` (b - a + 1)).

(** [random.random()] *)
Definition random : M Q :=
  z ← next; ret (Qmake (z `mod` 2 ^ 53) (2 ^ 53)%positive).

(** [random.choice(seq)]: an empty sequence raises [IndexError]. *)
Definition choice {A} (seq : list A) : M A :=
  match seq with
  | [] => raise (Uncaught IndexError)
  | x0 :: _ =>
      z ← next;
      ret (nth (Z.to_nat (z `mod` Z.of_nat (length seq))) seq x0)
  end.

End random.

(** [x < y] on finite floats, as exact rationals. *)
Definition float_lt (x y : Q) : bool :=
  Qnum x * QDen y <? Qnum y * QDen x.

(** ** [make_queries] *)

(** [[(random.randint(0, n//2), random.randint(n//2, n-1))
      for _ in range(hot_pool)]] *)
Fixpoint make_hot (count : nat) (n : Z) : random.M (list (Z * Z)) :=
  match count with
  | O => random.ret []
  | S count =>
      random.bind (random.randint 0 (n `div` 2)) (λ left,
      random.bind (random.randint (n `div` 2) (n - 1)) (λ right,
      random.bind (make_hot count n) (λ hot,
      random.ret ((left, right) :: hot))))
  end.

(** One iteration of the [for _ in range(q)] loop. *)
Definition make_queries_body (n : Z) (hot : list (Z * Z)) (p_hot p_update : Q)
    (queries : list query) : random.M (list query) :=
  random.bind random.random (λ u,
  if float_lt u p_update then
    random.bind (random.randint 0 (n - 1)) (λ idx,
    random.bind (random.randint 1 100) (λ val,
    random.ret (queries ++ [Update idx val])))
  else
    random.bind random.random (λ u,
    if float_lt u p_hot then
      random.bind (random.choice hot) (λ lr,
      random.ret (queries ++ [Range lr.1 lr.2]))
    else
      random.bind (random.randint 0 (n - 1)) (λ left,
      random.bind (random.randint left (n - 1)) (λ right,
      random.ret (queries ++ [Range left right]))))).

Fixpoint make_queries_loop (count : nat) (n : Z) (hot : list (Z * Z))
    (p_hot p_update : Q) (queries : list query) : random.M (list query) :=
  match count with
  | O => random.ret queries
  | S count =>
      random.bind (make_queries_body n hot p_hot p_update queries) (λ queries,
      make_queries_loop count n hot p_hot p_update queries)
  end.

Definition make_queries (n q : Z) (hot_pool : Z) (p_hot p_update : Q)
    : random.M (list query) :=
  random.bind (make_hot (Z.to_nat hot_pool) n) (λ hot,
  make_queries_loop (Z.to_nat q) n hot p_hot p_update []).

(** The defaults [hot_pool=30, p_hot=0.95, p_update=0.03]; the two
    probabilities are the doubles nearest to 0.95 and 0.03. *)
Definition hot_pool_default : Z := 30.
Definition p_hot_default : Q := Qmake 4278419646001971 4503599627370496.
Definition p_update_default : Q := Qmake 1080863910568919 36028797018963968.

(** ** [benchmark]

    [[random.randint(1, 100) for _ in range(n)]], the queries, and the
    two runs, each on its own copy of the list.  The durations and the
    printed report are not modelled: the result is what the two runs
    leave, first without and then with the cache. *)
Fixpoint make_base (count : nat) : random.M Array :=
  match count with
  | O => random.ret []
  | S count =>
      random.bind (random.randint 1 100) (λ x,
      random.bind (make_base count) (λ base,
      random.ret (x :: base)))
  end.

Definition benchmark (n q : Z) : random.M ((Array * Z) * (Array * Z)) :=
  random.bind (make_base (Z.to_nat n)) (λ base,
  random.bind (make_queries n q hot_pool_default p_hot_default p_update_default)
    (λ queries,
  random.bind (random.lift (_run_queries base queries false)) (λ no_cache,
  random.bind (random.lift (_run_queries base queries true)) (λ with_cache,
  random.ret (no_cache, with_cache))))).

(** ** [part_2.py]: the node store

    A [_Node] object is a location of the store; [None] is [None].  The
    state of a computation is the store together with the [root] attribute
    of the one [SplayTree] object.  A computation of [M] ends abnormally
    ([None]) on an attribute access through [None] (Python raises
    [AttributeError]), on a location outside the store, and when the fuel of
    a loop or of a comparison runs out. *)

Abbreviation loc := nat.

Module SplayTree.

Record _Node := mkNode {
  key : Z;
  value : Z;
  left : option loc;
  right : option loc;
  parent : option loc
}.

Record t := mk { nodes : list _Node; root : option loc }.

Definition M (A : Type) : Type := t → option (A * t).

Definition ret {A} (a : A) : M A := λ s, Some (a, s).

Definition bind {A B} (m : M A) (f : A → M B) : M B :=
  λ s, match m s with
       | Some (a, s') => f a s'
       | None => None
       end.

Definition stuck {A} : M A := λ _, None.

Declare Scope splay_scope.
Delimit Scope splay_scope with splay.
Notation "x ← m ; k" := (bind m (λ x, k))
  (at level 20, m at level 100, k at level 200, right associativity,
   format "x  ←  m ;  '/' k") : splay_scope.
Notation "m ;; k" := (bind m (λ _, k))
  (at level 100, k at level 200, right associativity,
   format "m ;;  '/' k") : splay_scope.
Local Open Scope splay_scope.

(** *** Attribute reads and writes *)

Definition node_at (x : loc) : M _Node :=
  λ s, match nodes s !! x with Some n => Some (n, s) | None => None end.

Definition modify (x : loc) (f : _Node → _Node) : M unit :=
  λ s, match nodes s !! x with
       | Some n => Some (tt, {| nodes := <[x := f n]> (nodes s); root := root s |})
       | None => None
       end.

(** An object reference that must not be [None]. *)
Definition deref (o : option loc) : M loc :=
  match o with Some x => ret x | None => stuck end.

Definition get_key (x : loc) : M Z := n ← node_at x; ret (key n).
Definition get_value (x : loc) : M Z := n ← node_at x; ret (value n).
Definition get_left (x : loc) : M (option loc) := n ← node_at x; ret (left n).
Definition get_right (x : loc) : M (option loc) := n ← node_at x; ret (right n).
Definition get_parent (x : loc) : M (option loc) := n ← node_at x; ret (parent n).

Definition with_value (v : Z) (n : _Node) : _Node :=
  mkNode (key n) v (left n) (right n) (parent n).
Definition with_left (o : option loc) (n : _Node) : _Node :=
  mkNode (key n) (value n) o (right n) (parent n).
Definition with_right (o : option loc) (n : _Node) : _Node :=
  mkNode (key n) (value n) (left n) o (parent n).
Definition with_parent (o : option loc) (n : _Node) : _Node :=
  mkNode (key n) (value n) (left n) (right n) o.

Definition set_value (x : loc) (v : Z) : M unit := modify x (with_value v).
Definition set_left (x : loc) (o : option loc) : M unit := modify x (with_left o).
Definition set_right (x : loc) (o : option loc) : M unit := modify x (with_right o).
Definition set_parent (x : loc) (o : option loc) : M unit := modify x (with_parent o).

Definition get_root : M (option loc) := λ s, Some (root s, s).
Definition set_root (o : option loc) : M unit :=
  λ s, Some (tt, {| nodes := nodes s; root := o |}).

(** [_Node(key, value, parent=p)]: a new object *)
Definition new_node (k v : Z) (p : option loc) : M loc :=
  λ s, Some (length (nodes s),
             {| nodes := nodes s ++ [mkNode k v None None p]; root := root s |}).

(** *** [==] on nodes

    [_Node] is a dataclass, so [a == b] is the generated [__eq__]: the
    same object is equal to itself, a node differs from [None], and two
    different nodes are compared field by field, in the order [key],
    [value], [left], [right], [parent], stopping at the first
    difference. *)
Fixpoint dataclass_eq (fuel : nat) (h : list _Node) (a b : option loc)
    : option bool :=
  if decide (a = b) then Some true else
  match a, b with
  | Some x, Some y =>
      match fuel with
      | O => None
      | S fuel =>
          match h !! x, h !! y with
          | Some nx, Some ny =>
              if negb (key nx =? key ny)%Z then Some false else
              if negb (value nx =? value ny)%Z then Some false else
              match dataclass_eq fuel h (left nx) (left ny) with
              | Some true =>
                  match dataclass_eq fuel h (right nx) (right ny) with
                  | Some true => dataclass_eq fuel h (parent nx) (parent ny)
                  | r => r
                  end
              | r => r
              end
          | _, _ => None
          end
      end
  | _, _ => Some false
  end.

Definition node_eq (a b : option loc) : M bool :=
  λ s, match dataclass_eq (S (length (nodes s))) (nodes s) a b with
       | Some r => Some (r, s)
       | None => None
       end.

(** [a and b] *)
Definition and_then (a b : M bool) : M bool :=
  r ← a; if r : bool then b else ret false.

(** *** Rotations *)

Definition _right_rotate (x : loc) : M unit :=
  y ← get_left x;
  match y with
  | None => ret tt
  | Some y =>
      yr ← get_right y;
      set_left x yr;;
      (match yr with
       | Some b => set_parent b (Some x)
       | None => ret tt
       end);;
      xp ← get_parent x;
      set_parent y xp;;
      (match xp with
       | None => set_root (Some y)
       | Some p =>
           pr ← get_right p;
           c ← node_eq (Some x) pr;
           if c : bool then set_right p (Some y) else set_left p (Some y)
       end);;
      set_right y (Some x);;
      set_parent x (Some y)
  end.

Definition _left_rotate (x : loc) : M unit :=
  y ← get_right x;
  match y with
  | None => ret tt
  | Some y =>
      yl ← get_left y;
      set_right x yl;;
      (match yl with
       | Some b => set_parent b (Some x)
       | None => ret tt
       end);;
      xp ← get_parent x;
      set_parent y xp;;
      (match xp with
       | None => set_root (Some y)
       | Some p =>
           pl ← get_left p;
           c ← node_eq (Some x) pl;
           if c : bool then set_left p (Some y) else set_right p (Some y)
       end);;
      set_left y (Some x);;
      set_parent x (Some y)
  end.

(** *** [_splay] *)

(** [x.parent], [x.parent.parent] as objects, and the comparisons of the
    loop of [_splay]. *)
Definition the_parent (x : loc) : M loc := o ← get_parent x; deref o.
Definition the_grandparent (x : loc) : M loc := p ← the_parent x; the_parent p.

(** [x.parent.left == x] *)
Definition is_left_child (x : loc) : M bool :=
  p ← the_parent x; l ← get_left p; node_eq l (Some x).
(** [x.parent.right == x] *)
Definition is_right_child (x : loc) : M bool :=
  p ← the_parent x; r ← get_right p; node_eq r (Some x).
(** [x.parent.parent.left == x.parent] *)
Definition parent_is_left_child (x : loc) : M bool :=
  g ← the_grandparent x; l ← get_left g; p ← get_parent x; node_eq l p.
(** [x.parent.parent.right == x.parent] *)
Definition parent_is_right_child (x : loc) : M bool :=
  g ← the_grandparent x; r ← get_right g; p ← get_parent x; node_eq r p.

(** The body of the [while x.parent] loop. *)
Definition _splay_step (x : loc) : M unit :=
  p ← the_parent x;
  pp ← get_parent p;
  match pp with
  | None =>
      c ← is_left_child x;
      if c : bool then p ← the_parent x; _right_rotate p
      else p ← the_parent x; _left_rotate p
  | Some _ =>
      c1 ← and_then (is_left_child x) (parent_is_left_child x);
      if c1 : bool then
        g ← the_grandparent x; _right_rotate g;;
        p ← the_parent x; _right_rotate p
      else
      c2 ← and_then (is_right_child x) (parent_is_right_child x);
      if c2 : bool then
        g ← the_grandparent x; _left_rotate g;;
        p ← the_parent x; _left_rotate p
      else
      c3 ← and_then (is_left_child x) (parent_is_right_child x);
      if c3 : bool then
        p ← the_parent x; _right_rotate p;;
        p ← the_parent x; _left_rotate p
      else
        p ← the_parent x; _left_rotate p;;
        p ← the_parent x; _right_rotate p
  end.

Fixpoint _splay_loop (fuel : nat) (x : loc) : M unit :=
  match fuel with
  | O => stuck
  | S fuel =>
      xp ← get_parent x;
      match xp with
      | None => ret tt
      | Some _ => _splay_step x;; _splay_loop fuel x
      end
  end.

(** Fuel for the loops: a path of a tree has at most as many nodes as the
    store has objects. *)
Definition loop_fuel : M nat := λ s, Some (S (length (nodes s)), s).

Definition _splay (x : loc) : M unit :=
  fuel ← loop_fuel; _splay_loop fuel x.

(** *** [_find_node], [get], [insert] *)

Fixpoint _find_loop (fuel : nat) (key : Z) (node : option loc)
    : M (option loc) :=
  match node with
  | None => ret None
  | Some node =>
      match fuel with
      | O => stuck
      | S fuel =>
          k ← get_key node;
          if (key =? k)%Z then _splay node;; ret (Some node)
          else if (key <? k)%Z then
            l ← get_left node;
            match l with
            | Some _ => _find_loop fuel key l
            | None => _splay node;; ret None
            end
          else
            r ← get_right node;
            match r with
            | Some _ => _find_loop fuel key r
            | None => _splay node;; ret None
            end
      end
  end.

Definition _find_node (key : Z) : M (option loc) :=
  fuel ← loop_fuel; node ← get_root; _find_loop fuel key node.

Definition get (key : Z) : M (option Z) :=
  node ← _find_node key;
  match node with
  | Some node => v ← get_value node; ret (Some v)
  | None => ret None
  end.

Fixpoint _insert_loop (fuel : nat) (key value : Z) (node : loc) : M unit :=
  match fuel with
  | O => stuck
  | S fuel =>
      k ← get_key node;
      if (key =? k)%Z then set_value node value;; _splay node
      else if (key <? k)%Z then
        l ← get_left node;
        match l with
        | Some l => _insert_loop fuel key value l
        | None =>
            n ← new_node key value (Some node);
            set_left node (Some n);;
            l ← get_left node; l ← deref l; _splay l
        end
      else
        r ← get_right node;
        match r with
        | Some r => _insert_loop fuel key value r
        | None =>
            n ← new_node key value (Some node);
            set_right node (Some n);;
            r ← get_right node; r ← deref r; _splay r
        end
  end.

Definition insert (key value : Z) : M unit :=
  r ← get_root;
  match r with
  | None => n ← new_node key value None; set_root (Some n)
  | Some node => fuel ← loop_fuel; _insert_loop fuel key value node
  end.

(** [SplayTree()] *)
Definition empty : t := {| nodes := []; root := None |}.

(** *** [fibonacci_splay] *)

Fixpoint fibonacci_splay_rec (fuel : nat) (n : Z) : M Z :=
  match fuel with
  | O => stuck
  | S fuel =>
      cached ← get n;
      match cached with
      | Some cached => ret cached
      | None =>
          if (n <? 2)%Z then insert n n;; ret n
          else
            a ← fibonacci_splay_rec fuel (n - 1);
            b ← fibonacci_splay_rec fuel (n - 2);
            let val := (a + b)%Z in
            insert n val;; ret val
      end
  end.

(** The recursion is at most [n] calls deep. *)
Definition fibonacci_splay (n : Z) : M Z :=
  fibonacci_splay_rec (S (Z.to_nat n)) n.

(** *** Observations used by the statements *)

Inductive op := Get (k : Z) | Insert (k v : Z).

Definition run_op (o : op) : M unit :=
  match o with
  | Get k => get k;; ret tt
  | Insert k v => insert k v
  end.

Fixpoint run_ops (os : list op) : M unit :=
  match os with
  | [] => ret tt
  | o :: os' => run_op o;; run_ops os'
  end.

(** In-order traversal of the nodes below [o]. *)
Fixpoint inorder (fuel : nat) (h : list _Node) (o : option loc)
    : option (list loc) :=
  match o with
  | None => Some []
  | Some x =>
      match fuel with
      | O => None
      | S fuel =>
          match h !! x with
          | Some n =>
              match inorder fuel h (left n), inorder fuel h (right n) with
              | Some l, Some r => Some (l ++ x :: r)
              | _, _ => None
              end
          | None => None
          end
      end
  end.

Definition key_at (h : list _Node) (x : loc) : Z :=
  match h !! x with Some n => key n | None => 0%Z end.

Definition inorder_keys (s : t) : option (list Z) :=
  match inorder (length (nodes s)) (nodes s) (root s) with
  | Some l => Some (key_at (nodes s) <$> l)
  | None => None
  end.

(** The node at which the descent of [_find_node] for [key] stops: the
    node with that key, or the node whose missing child ends the search. *)
Fixpoint last_visited (fuel : nat) (h : list _Node) (key : Z) (node : option loc)
    : option loc :=
  match node, fuel with
  | Some x, S fuel =>
      match h !! x with
      | Some n =>
          if (key =? SplayTree.key n)%Z then Some x
          else if (key <? SplayTree.key n)%Z then
            match left n with
            | Some _ => last_visited fuel h key (left n)
            | None => Some x
            end
          else
            match right n with
            | Some _ => last_visited fuel h key (right n)
            | None => Some x
            end
      | None => None
      end
  | _, _ => None
  end.

End SplayTree.

(** ** [fibonacci_lru]

    [functools.lru_cache(maxsize=None)] keeps a dictionary from the
    argument to the result: a call whose argument is in it returns the
    stored result, any other call runs the body and stores what it
    returns.  The recursive calls of the body go through the cache too. *)

Fixpoint fibonacci_lru_rec (fuel : nat) (n : Z) (cache : gmap Z Z)
    : option (Z * gmap Z Z) :=
  match fuel with
  | O => None
  | S fuel =>
      match cache !! n with
      | Some r => Some (r, cache)
      | None =>
          if n <? 2 then Some (n, <[n := n]> cache)
          else
            match fibonacci_lru_rec fuel (n - 1) cache with
            | Some (a, cache) =>
                match fibonacci_lru_rec fuel (n - 2) cache with
                | Some (b, cache) => Some (a + b, <[n := a + b]> cache)
                | None => None
                end
            | None => None
            end
      end
  end.

(** The recursion is at most [n] calls deep. *)
Definition fibonacci_lru (n : Z) (cache : gmap Z Z) : option (Z * gmap Z Z) :=
  fibonacci_lru_rec (S (Z.to_nat n)) n cache.

(* ===================================================================== *)
(** * Specification-level definitions *)

(** The Fibonacci numbers: F(0) = 0, F(1) = 1, F(n) = F(n-1) + F(n-2). *)
Fixpoint fib (n : nat) : Z :=
  match n with
  | O => 0
  | S m => match m with
           | O => 1
           | S p => fib m + fib p
           end
  end.

(** ** The recency cache *)

(** The calls of the public interface of [LRUCache]. *)
Inductive lru_op :=
  | OpGet (k : Key)
  | OpPut (k : Key) (v : Z)
  | OpInvalidate (p : Z).

Definition run_lru_op (o : lru_op) (c : LRUCache.t) : pyresult LRUCache.t :=
  match o with
  | OpGet k => r ←! LRUCache.get k c; Ok r.2
  | OpPut k v => LRUCache.put k v c
  | OpInvalidate p => LRUCache.invalidate_ranges_containing p c
  end.

Fixpoint run_lru (os : list lru_op) (c : LRUCache.t) : pyresult LRUCache.t :=
  match os with
  | [] => Ok c
  | o :: os' => c' ←! run_lru_op o c; run_lru os' c'
  end.

(** [put] of each entry of a list, first to last. *)
Fixpoint put_all (es : list (Key * Z)) (c : LRUCache.t) : pyresult LRUCache.t :=
  match es with
  | [] => Ok c
  | (k, v) :: es' => c' ←! LRUCache.put k v c; put_all es' c'
  end.

(** The keys of an [OrderedDict] are unique. *)
Definition dict_wf (d : OrderedDict.t) : Prop := NoDup (OrderedDict.keys d).

(** A slice bound as a position: a negative bound counts from the end
    of a list of [len] elements, and not below 0. *)
Definition from_end (len i : Z) : Z :=
  if i <? 0 then Z.max 0 (i + len) else i.

(** The range [(left, right)] covers position [p]. *)
Definition covers (p : Z) (e : Key * Z) : Prop := e.1.1 ≤ p ∧ p ≤ e.1.2.

(** Every cached sum is the sum of the current array over its range. *)
Definition coherent (array : Array) (c : LRUCache.t) : Prop :=
  ∀ l r v, OrderedDict.lookup (l, r) (LRUCache._cache c) = Some v →
           v = sum (py_slice array l (r + 1)).

Definition nonneg_query (q : query) : Prop :=
  match q with
  | Range l r => 0 ≤ l ∧ 0 ≤ r
  | Update idx _ => 0 ≤ idx
  end.

Section lru_definitions.
Import OrderedDict LRUCache.

(** The invariant behind coherence: unique keys, non-negative bounds,
  and every stored sum is the sum of the slice. *)
Definition cache_inv (a : Array) (c : LRUCache.t) : Prop :=
dict_wf (_cache c) ∧
Forall (λ e, 0 ≤ e.1.1 ∧ 0 ≤ e.1.2 ∧
             e.2 = sum (py_slice a e.1.1 (e.1.2 + 1))) (_cache c).

End lru_definitions.

(** Every stored result is the Fibonacci number of its key. *)
Definition cache_ok (cache : gmap Z Z) : Prop :=
  ∀ k r, cache !! k = Some r → 0 ≤ k ∧ r = fib (Z.to_nat k).

(** Every entry of the tree is a Fibonacci number. *)
Definition fib_entries (kvs : list (Z * Z)) : Prop :=
  Forall (λ e, 0 ≤ e.1 ∧ e.2 = fib (Z.to_nat e.1)) kvs.

(** ** The splay tree *)

(** The tree that the links of the store draw, as a term over locations. *)
Inductive shape :=
  | SLeaf
  | SNode (l : shape) (x : loc) (r : shape).

(** In-order list of the locations. *)
Fixpoint locs (t : shape) : list loc :=
  match t with
  | SLeaf => []
  | SNode l x r => locs l ++ x :: locs r
  end.

Definition top (t : shape) : option loc :=
  match t with
  | SLeaf => None
  | SNode _ x _ => Some x
  end.

(** A path from a subtree up to the root: the node above the hole, on
    which side the hole is, and the sibling subtree. *)
Inductive frame :=
  | InLeft (p : loc) (r : shape)
  | InRight (l : shape) (p : loc).

Definition frame_loc (f : frame) : loc :=
  match f with InLeft p _ => p | InRight _ p => p end.

Definition fill (f : frame) (t : shape) : shape :=
  match f with
  | InLeft p r => SNode t p r
  | InRight l p => SNode l p t
  end.

(** The innermost frame comes first. *)
Fixpoint plug (c : list frame) (t : shape) : shape :=
  match c with
  | [] => t
  | f :: c' => plug c' (fill f t)
  end.

Definition ctx_top (c : list frame) : option loc :=
  match c with
  | [] => None
  | f :: _ => Some (frame_loc f)
  end.

(** The locations before and after the hole, in order. *)
Fixpoint ctx_left (c : list frame) : list loc :=
  match c with
  | [] => []
  | InLeft _ _ :: c' => ctx_left c'
  | InRight l p :: c' => ctx_left c' ++ locs l ++ [p]
  end.

Fixpoint ctx_right (c : list frame) : list loc :=
  match c with
  | [] => []
  | InLeft p r :: c' => p :: locs r ++ ctx_right c'
  | InRight _ _ :: c' => ctx_right c'
  end.

(** The store [h] holds the tree [t] below a node [par]. *)
Fixpoint rep (h : list SplayTree._Node) (par : option loc) (t : shape) : Prop :=
  match t with
  | SLeaf => True
  | SNode l x r =>
      ∃ n, h !! x = Some n ∧
           SplayTree.left n = top l ∧ SplayTree.right n = top r ∧
           SplayTree.parent n = par ∧
           rep h (Some x) l ∧ rep h (Some x) r
  end.

(** The store holds the path [c], whose hole points to [hole]. *)
Fixpoint rep_ctx (h : list SplayTree._Node) (c : list frame) (hole : option loc)
    : Prop :=
  match c with
  | [] => True
  | f :: c' =>
      (∃ n, h !! frame_loc f = Some n ∧
            SplayTree.parent n = ctx_top c' ∧
            match f with
            | InLeft p r =>
                SplayTree.left n = hole ∧ SplayTree.right n = top r ∧
                rep h (Some p) r
            | InRight l p =>
                SplayTree.left n = top l ∧ SplayTree.right n = hole ∧
                rep h (Some p) l
            end) ∧
      rep_ctx h c' (Some (frame_loc f))
  end.

(** The state [s] is the tree [t]: the root and the links agree with [t],
    every object of the store is a node of [t], and no two nodes have the
    same key. *)
Definition tree_inv (s : SplayTree.t) (t : shape) : Prop :=
  SplayTree.root s = top t ∧
  rep (SplayTree.nodes s) None t ∧
  length (locs t) = length (SplayTree.nodes s) ∧
  NoDup (SplayTree.key_at (SplayTree.nodes s) <$> locs t).

(** The result of splaying the node [x], with subtrees [l] and [r], up the
    path [c]. *)
Fixpoint splayed (c : list frame) (l : shape) (x : loc) (r : shape) : shape :=
  match c with
  | [] => SNode l x r
  | [InLeft p pr] => SNode l x (SNode r p pr)
  | [InRight pl p] => SNode (SNode pl p l) x r
  | InLeft p pr :: InLeft g gr :: c' =>
      splayed c' l x (SNode r p (SNode pr g gr))
  | InRight pl p :: InRight gl g :: c' =>
      splayed c' (SNode (SNode gl g pl) p l) x r
  | InLeft p pr :: InRight gl g :: c' =>
      splayed c' (SNode gl g l) x (SNode r p pr)
  | InRight pl p :: InLeft g gr :: c' =>
      splayed c' (SNode pl p l) x (SNode r g gr)
  end.

(** The descent of [_find_node] for [k] from the subtree [t] below the
    path [c], followed by the splay: the new shape and the node returned. *)
Fixpoint find_shape (kf : loc → Z) (k : Z) (c : list frame) (t : shape)
    : shape * option loc :=
  match t with
  | SLeaf => (plug c SLeaf, None)
  | SNode l a r =>
      if (k =? kf a)%Z then (splayed c l a r, Some a)
      else if (k <? kf a)%Z then
        match l with
        | SLeaf => (splayed c l a r, None)
        | SNode _ _ _ => find_shape kf k (InLeft a r :: c) l
        end
      else
        match r with
        | SLeaf => (splayed c l a r, None)
        | SNode _ _ _ => find_shape kf k (InRight l a :: c) r
        end
  end.

(** The node at which that descent stops. *)
Fixpoint last_shape (kf : loc → Z) (k : Z) (t : shape) : option loc :=
  match t with
  | SLeaf => None
  | SNode l a r =>
      if (k =? kf a)%Z then Some a
      else if (k <? kf a)%Z then
        match l with
        | SLeaf => Some a
        | SNode _ _ _ => last_shape kf k l
        end
      else
        match r with
        | SLeaf => Some a
        | SNode _ _ _ => last_shape kf k r
        end
  end.

(** The descent of [insert] for [k] from the subtree [t] below the path
    [c], with [n] the location of the node it may create, followed by the
    splay: the new shape and the node touched. *)
Fixpoint insert_shape (kf : loc → Z) (k : Z) (n : loc) (c : list frame) (t : shape)
    : shape * loc :=
  match t with
  | SLeaf => (splayed c SLeaf n SLeaf, n)
  | SNode l a r =>
      if (k =? kf a)%Z then (splayed c l a r, a)
      else if (k <? kf a)%Z then
        match l with
        | SLeaf => (splayed (InLeft a r :: c) SLeaf n SLeaf, n)
        | SNode _ _ _ => insert_shape kf k n (InLeft a r :: c) l
        end
      else
        match r with
        | SLeaf => (splayed (InRight l a :: c) SLeaf n SLeaf, n)
        | SNode _ _ _ => insert_shape kf k n (InRight l a :: c) r
        end
  end.

(** The keys on the path are on the right side of [k]. *)
Definition ctx_bounds (kf : loc → Z) (k : Z) (c : list frame) : Prop :=
  Forall (λ x, kf x < k) (ctx_left c) ∧ Forall (λ x, k < kf x) (ctx_right c).

(** The first value stored for [k]. *)
Fixpoint assoc (k : Z) (kvs : list (Z * Z)) : option Z :=
  match kvs with
  | [] => None
  | (k', v) :: kvs' => if (k =? k')%Z then Some v else assoc k kvs'
  end.

(** Insertion or overwrite in a list sorted by key. *)
Fixpoint ins (k v : Z) (kvs : list (Z * Z)) : list (Z * Z) :=
  match kvs with
  | [] => [(k, v)]
  | (k', v') :: kvs' =>
      if (k <? k')%Z then (k, v) :: (k', v') :: kvs'
      else if (k =? k')%Z then (k, v) :: kvs'
      else (k', v') :: ins k v kvs'
  end.

Definition value_at (h : list SplayTree._Node) (x : loc) : Z :=
  match h !! x with Some n => SplayTree.value n | None => 0 end.

Definition entry_at (s : SplayTree.t) (x : loc) : Z * Z :=
  (SplayTree.key_at (SplayTree.nodes s) x, value_at (SplayTree.nodes s) x).

(** The keys and values of the tree, in order. *)
Definition entries (s : SplayTree.t) (t : shape) : list (Z * Z) :=
  entry_at s <$> locs t.

(** The state [s] is the binary search tree [t]. *)
Definition bst_inv (s : SplayTree.t) (t : shape) : Prop :=
  tree_inv s t ∧ StronglySorted Z.lt (entries s t).*1.

Section splay_definitions.
Import SplayTree.
Implicit Types (h : list _Node) (s : SplayTree.t) (x y : loc) (n : _Node).
Implicit Types (t : shape) (c : list frame).

(** Update of the object at [x], when there is one. *)
Definition upd h x (f : _Node → _Node) : list _Node :=
match h !! x with Some n => <[x := f n]> h | None => h end.

Definition upd_opt h (o : option loc) (f : _Node → _Node) : list _Node :=
match o with Some x => upd h x f | None => h end.

(** Two stores with the same objects up to their links. *)
Definition same_data h h' : Prop :=
length h' = length h ∧
∀ a, key <$> h' !! a = key <$> h !! a ∧ value <$> h' !! a = value <$> h !! a.

(** The store after [node.left = _Node(key, value, parent=node)], and
  after the same on the right. *)
Definition attached (left_side : bool) (s : SplayTree.t) (a : loc) (k v : Z)
  : SplayTree.t :=
{| nodes := upd (nodes s ++ [mkNode k v None None (Some a)]) a
              (if left_side then with_left (Some (length (nodes s)))
               else with_right (Some (length (nodes s))));
   root := root s |}.

(** The store after [node.value = value]. *)
Definition revalued (s : SplayTree.t) (a : loc) (v : Z) : SplayTree.t :=
{| nodes := upd (nodes s) a (with_value v); root := root s |}.

(** What [insert] has done at the end of its descent from [t]. *)
Definition insert_post s c t k v s' : Prop :=
let kf := key_at (nodes s) in
let res := insert_shape kf k (length (nodes s)) c t in
tree_inv s' res.1 ∧
entries s' res.1
  = (entry_at s <$> ctx_left c) ++ ins k v (entry_at s <$> locs t)
      ++ (entry_at s <$> ctx_right c) ∧
entry_at s' res.2 = (k, v) ∧
(k ∈ kf <$> locs t →
   length (nodes s') = length (nodes s) ∧ res.2 ∈ locs t ∧ kf res.2 = k) ∧
(k ∉ kf <$> locs t →
   length (nodes s') = S (length (nodes s)) ∧ res.2 = length (nodes s)).

End splay_definitions.

(** ** Definitions for the further properties *)

(** The update indices that a list of [n] elements accepts. *)
Definition index_ok (n : Z) (q : query) : Prop :=
  match q with
  | Range _ _ => True
  | Update idx _ => - n ≤ idx ∧ idx < n
  end.

(** A query on positions of a list of [n] elements. *)
Definition in_bounds (n : Z) (q : query) : Prop :=
  match q with
  | Range l r => 0 ≤ l ∧ l ≤ r ∧ r ≤ n - 1
  | Update idx val => 0 ≤ idx ∧ idx ≤ n - 1 ∧ 1 ≤ val ∧ val ≤ 100
  end.

(** A hot range of [make_queries] for a list of [n] elements. *)
Definition hot_ok (n : Z) (lr : Z * Z) : Prop :=
  0 ≤ lr.1 ∧ lr.1 ≤ lr.2 ∧ lr.2 ≤ n - 1.

(** What a sequence of cache calls has stored: [put] stores, the
    invalidation of [p] forgets the ranges that contain [p], [get]
    changes nothing.  No capacity and no eviction. *)
Definition lru_op_model (m : gmap Key Z) (o : lru_op) : gmap Key Z :=
  match o with
  | OpGet _ => m
  | OpPut k v => <[k := v]> m
  | OpInvalidate p => filter (λ kv, ¬ (kv.1.1 ≤ p ∧ p ≤ kv.1.2)) m
  end.

Definition lru_model (os : list lru_op) : gmap Key Z := foldl lru_op_model ∅ os.

(** The finite map that a sequence of calls describes: [insert] stores,
    [get] changes nothing. *)
Definition op_model (m : gmap Z Z) (o : SplayTree.op) : gmap Z Z :=
  match o with
  | SplayTree.Get _ => m
  | SplayTree.Insert k v => <[k := v]> m
  end.

Definition ops_model (os : list SplayTree.op) : gmap Z Z := foldl op_model ∅ os.

(** The table of the Fibonacci numbers F(0), ..., F(n), by index. *)
Definition fib_table (n : nat) : list (Z * Z) :=
  (λ i, (Z.of_nat i, fib i)) <$> seq 0 (S n).

(* ===================================================================== *)
(** * The recency cache: proofs *)

Section ordered_dict.
Import OrderedDict.
Implicit Types (d : OrderedDict.t) (k : Key) (v : Z).

Lemma lookup_elem_of k v d : lookup k d = Some v → (k, v) ∈ d.
Proof.
  induction d as [|[k' v'] d IH]; simpl; [done|].
  case_decide as Hk; intros H.
  - injection H as ->. subst k'. left.
  - right. auto.
Qed.

Lemma lookup_None_keys k d : lookup k d = None ↔ k ∉ keys d.
Proof.
  unfold keys. induction d as [|[k' v'] d IH]; simpl.
  - split; [intros _; apply not_elem_of_nil | done].
  - rewrite not_elem_of_cons. case_decide as Hk; [|tauto].
    split; [done | intros [? _]; done].
Qed.

Lemma lookup_Some_keys k v d : lookup k d = Some v → k ∈ keys d.
Proof.
  intros H. destruct (decide (k ∈ keys d)) as [|Hn]; [done|].
  apply lookup_None_keys in Hn. congruence.
Qed.

Lemma elem_of_lookup k v d : dict_wf d → (k, v) ∈ d → lookup k d = Some v.
Proof.
  unfold dict_wf, keys. induction d as [|[k' v'] d IH]; simpl.
  - intros _ H. by apply elem_of_nil in H.
  - rewrite NoDup_cons. intros [Hk Hd] [H|H]%elem_of_cons.
    + simplify_eq. by rewrite decide_True.
    + rewrite decide_False; [auto|].
      intros ->. apply Hk. apply list_elem_of_fmap. by exists (k', v).
Qed.

Lemma lookup_app k d1 d2 :
  lookup k (d1 ++ d2) =
    match lookup k d1 with Some v => Some v | None => lookup k d2 end.
Proof.
  induction d1 as [|[k' v'] d1 IH]; simpl; [done|]. by case_decide.
Qed.

Lemma lookup_remove_eq k d : lookup k (remove k d) = None.
Proof.
  apply lookup_None_keys. unfold keys, remove.
  intros ([k' v'] & -> & [H _]%list_elem_of_filter)%list_elem_of_fmap. done.
Qed.

Lemma lookup_remove_ne k k' d : k ≠ k' → lookup k' (remove k d) = lookup k' d.
Proof.
  intros Hne. unfold remove. induction d as [|[k1 v1] d IH]; [done|].
  rewrite filter_cons. cbn [fst lookup].
  destruct (decide (k1 ≠ k)) as [H|H]; cbn [lookup].
  - by rewrite IH.
  - apply dec_stable in H. subst k1. by rewrite decide_False.
Qed.

Lemma remove_absent k d : lookup k d = None → remove k d = d.
Proof.
  unfold remove. induction d as [|[k1 v1] d IH]; [done|]. cbn [lookup].
  case_decide as Hk; [done|]. intros Hd. rewrite filter_cons_True by (simpl; congruence).
  by rewrite IH.
Qed.

Lemma setitem_absent k v d : lookup k d = None → setitem k v d = d ++ [(k, v)].
Proof.
  induction d as [|[k1 v1] d IH]; simpl; [done|].
  case_decide as Hk; [done|]. intros Hd. by rewrite IH.
Qed.

Lemma setitem_last k v v' d :
  lookup k d = None → setitem k v (d ++ [(k, v')]) = d ++ [(k, v)].
Proof.
  induction d as [|[k1 v1] d IH]; simpl.
  - by rewrite decide_True.
  - case_decide as Hk; [done|]. intros Hd. by rewrite IH.
Qed.

Lemma filter_wf (P : Key * Z → Prop) `{!∀ e, Decision (P e)} d :
  dict_wf d → dict_wf (filter P d).
Proof.
  unfold dict_wf, keys. induction d as [|[k1 v1] d IH]; [done|].
  rewrite fmap_cons, NoDup_cons. intros [Hk Hd]. rewrite filter_cons.
  case_decide as HP; [|auto]. rewrite fmap_cons. apply NoDup_cons. split; [|auto].
  intros ([k' v'] & ? & [_ H']%list_elem_of_filter)%list_elem_of_fmap.
  simpl in *; subst k'. apply Hk, list_elem_of_fmap. by exists (k1, v').
Qed.

Lemma remove_wf k d : dict_wf d → dict_wf (remove k d).
Proof.
  intros. by apply filter_wf.
Qed.

Lemma snoc_wf k v d : dict_wf d → lookup k d = None → dict_wf (d ++ [(k, v)]).
Proof.
  unfold dict_wf, keys. intros Hd Hk. rewrite fmap_app. simpl.
  apply NoDup_app. split_and!; [done| |apply NoDup_singleton].
  intros k' Hk' ->%list_elem_of_singleton. by apply lookup_None_keys in Hk.
Qed.

Lemma tail_wf d : dict_wf d → dict_wf (tail d).
Proof.
  unfold dict_wf, keys. destruct d as [|e d]; simpl; [done|].
  by intros [_ ?]%NoDup_cons.
Qed.

Lemma remove_length_present k v d :
  dict_wf d → lookup k d = Some v → S (length (remove k d)) = length d.
Proof.
  unfold dict_wf, keys. induction d as [|[k1 v1] d IH]; [done|].
  rewrite fmap_cons, NoDup_cons. intros [Hk Hd]. unfold remove.
  rewrite filter_cons. cbn [lookup fst].
  destruct (decide (k = k1)) as [->|Hne].
  - intros _. rewrite decide_False by (intros H; by apply H).
    fold (remove k1 d). rewrite remove_absent; [done|].
    by apply lookup_None_keys.
  - intros H. rewrite decide_True by congruence. simpl. f_equal.
    by apply IH.
Qed.

End ordered_dict.

Section lru_cache.
Import OrderedDict LRUCache.
Implicit Types (d : OrderedDict.t) (k : Key) (v : Z) (c : LRUCache.t).

Lemma get_spec k c :
  get k c =
    match lookup k (_cache c) with
    | Some v => Ok (v, with_cache c (remove k (_cache c) ++ [(k, v)]))
    | None => Ok (-1, c)
    end.
Proof.
  unfold get, contains, move_to_end, getitem.
  destruct (lookup k (_cache c)) as [v|] eqn:Hk; [|done]. simpl.
  rewrite lookup_app, lookup_remove_eq. simpl. by rewrite decide_True.
Qed.

Lemma put_spec k v c :
  put k v c =
    Ok (with_cache c
          (if capacity c <? len (remove k (_cache c) ++ [(k, v)])
           then tail (remove k (_cache c) ++ [(k, v)])
           else remove k (_cache c) ++ [(k, v)])).
Proof.
  unfold put, contains, move_to_end.
  destruct (lookup k (_cache c)) as [v0|] eqn:Hk; simpl.
  - rewrite setitem_last by apply lookup_remove_eq.
    case_match; [|done].
    destruct (remove k (_cache c) ++ [(k, v)]) eqn:E; [|done].
    by destruct (remove k (_cache c)).
  - rewrite setitem_absent, remove_absent by done.
    case_match; [|done].
    destruct (_cache c ++ [(k, v)]) eqn:E; [|done].
    by destruct (_cache c).
Qed.

Lemma invalidate_loop_spec p ks d :
  dict_wf d → NoDup ks → ks ⊆ keys d →
  invalidate_loop p ks d =
    Ok (filter (λ e, ¬ (e.1 ∈ ks ∧ covers p e)) d).
Proof.
  intros Hd Hks. revert d Hd. induction Hks as [|k ks Hk Hks IH]; intros d Hd Hsub.
  - simpl. f_equal. symmetry.
    rewrite (list_filter_iff _ (λ _, True)).
    + induction d as [|e d IHd]; [done|].
      rewrite filter_cons_True by done. f_equal. apply IHd.
      by apply NoDup_cons in Hd as [_ ?].
      intros x Hx. by apply elem_of_nil in Hx.
    + intros e. split; [done|]. intros _ [H%elem_of_nil _]. done.
  - cbn [invalidate_loop]. unfold invalidate_step, delitem, contains.
    assert (k ∈ keys d) as Hkd by (apply Hsub; left).
    destruct (lookup k d) as [v0|] eqn:Hl;
      [|by apply lookup_None_keys in Hl].
    destruct ((k.1 <=? p) && (p <=? k.2)) eqn:Hc; cbn [pybind].
    + rewrite IH.
      * f_equal. unfold remove. rewrite list_filter_filter.
        apply list_filter_iff. intros [k' v']. unfold covers. simpl.
        apply andb_true_iff in Hc as [?%Z.leb_le ?%Z.leb_le].
        rewrite elem_of_cons. split.
        -- intros [H1 H2] [[->|H3] H4]; [done|]. apply H1. done.
        -- intros H1. split.
           ++ intros [H3 H4]. apply H1. auto.
           ++ intros ->. apply H1. auto.
      * by apply remove_wf.
      * intros k' Hk'. unfold keys, remove.
        assert (k' ≠ k) by (intros ->; done).
        specialize (Hsub k' ltac:(by right)).
        apply list_elem_of_fmap in Hsub as ([k1 v1] & -> & Hin).
        apply list_elem_of_fmap. exists (k1, v1). split; [done|].
        apply list_elem_of_filter. done.
    + rewrite IH; [|done|].
      * f_equal. apply list_filter_iff. intros [k' v']. unfold covers. simpl.
        rewrite elem_of_cons. split.
        -- intros H1 [[->|H3] H4]; [|apply H1; done].
           apply andb_false_iff in Hc as [?%Z.leb_gt | ?%Z.leb_gt]; lia.
        -- intros H1 [H3 H4]. apply H1. auto.
      * intros k' Hk'. apply Hsub. by right.
Qed.

Lemma filter_iff_elem_of {A} (P Q : A → Prop)
    `{!∀ x, Decision (P x), !∀ x, Decision (Q x)} (l : list A) :
  (∀ x, x ∈ l → (P x ↔ Q x)) → filter P l = filter Q l.
Proof.
  induction l as [|a l IH]; intros Hext; [done|].
  rewrite !filter_cons.
  rewrite IH by (intros x Hx; apply Hext; by right).
  apply decide_ext, Hext. left.
Qed.

Lemma invalidate_spec p c :
  dict_wf (_cache c) →
  invalidate_ranges_containing p c =
    Ok (with_cache c (filter (λ e, ¬ covers p e) (_cache c))).
Proof.
  intros Hd. unfold invalidate_ranges_containing.
  rewrite invalidate_loop_spec by done. simpl. do 2 f_equal.
  apply filter_iff_elem_of. intros [k v] Hin. split.
  - intros H1 H2. apply H1. split; [|done].
    simpl. unfold keys. apply list_elem_of_fmap. by exists (k, v).
  - intros H1 [_ H2]. done.
Qed.

(** Every method keeps the keys unique. *)
Lemma get_wf k c r : dict_wf (_cache c) → get k c = Ok r → dict_wf (_cache r.2).
Proof.
  intros Hd. rewrite get_spec. destruct (lookup k (_cache c)) eqn:Hk.
  - intros [= <-]. simpl. apply snoc_wf; [by apply remove_wf|].
    apply lookup_remove_eq.
  - by intros [= <-].
Qed.

Lemma put_wf k v c c' : dict_wf (_cache c) → put k v c = Ok c' → dict_wf (_cache c').
Proof.
  intros Hd. rewrite put_spec. intros [= <-]. simpl.
  assert (dict_wf (remove k (_cache c) ++ [(k, v)])).
  { apply snoc_wf; [by apply remove_wf | apply lookup_remove_eq]. }
  case_match; [by apply tail_wf | done].
Qed.

Lemma invalidate_wf p c c' :
  dict_wf (_cache c) → invalidate_ranges_containing p c = Ok c' →
  dict_wf (_cache c').
Proof.
  intros Hd. rewrite invalidate_spec by done. intros [= <-]. simpl.
  by apply filter_wf.
Qed.

Lemma put_len k v c c' :
  dict_wf (_cache c) → 1 ≤ capacity c → len (_cache c) ≤ capacity c →
  put k v c = Ok c' →
  capacity c' = capacity c ∧ len (_cache c') ≤ capacity c'.
Proof.
  intros Hd Hcap Hlen. rewrite put_spec. intros [= <-]. simpl.
  split; [done|]. unfold len in *.
  destruct (Z.ltb_spec (capacity c)
    (Z.of_nat (length (remove k (_cache c) ++ [(k, v)])))) as [Hlt|Hge];
    [|done].
  assert (length (remove k (_cache c)) ≤ length (_cache c))%nat
    by apply length_filter.
  destruct (remove k (_cache c) ++ [(k, v)]) as [|e d'] eqn:E.
  { by destruct (remove k (_cache c)). }
  apply (f_equal length) in E. rewrite length_app in E. simpl in *. lia.
Qed.

Lemma remove_length_lt k v d :
  lookup k d = Some v → (length (remove k d) < length d)%nat.
Proof.
  induction d as [|[k' v'] d IH]; simpl; [done|].
  unfold remove in *. case_decide as Hk.
  - subst k'. intros _. rewrite filter_cons_False by (simpl; tauto).
    pose proof (length_filter (λ e : Key * Z, e.1 ≠ k) d). lia.
  - intros Hl. rewrite filter_cons_True by (simpl; congruence).
    simpl. specialize (IH Hl). lia.
Qed.

(** With room for one entry, [put] leaves its entry last, whatever it
    evicts. *)
Lemma remove_snoc_absent k v d :
  lookup k d = None → remove k (d ++ [(k, v)]) = d.
Proof.
  intros H. unfold remove. rewrite filter_app. simpl.
  rewrite filter_cons_False by (simpl; tauto). simpl.
  rewrite app_nil_r. by apply remove_absent.
Qed.

Lemma lookup_snoc k v d :
  lookup k d = None → lookup k (d ++ [(k, v)]) = Some v.
Proof. intros H. rewrite lookup_app, H. simpl. by rewrite decide_True. Qed.

Lemma put_last k v c :
  1 ≤ capacity c →
  ∃ d, put k v c = Ok (with_cache c (d ++ [(k, v)])) ∧
       lookup k d = None ∧ sublist d (remove k (_cache c)) ∧
       (len (remove k (_cache c)) < capacity c → d = remove k (_cache c)).
Proof.
  intros Hcap. rewrite put_spec.
  pose proof (lookup_remove_eq k (_cache c)) as Hn.
  destruct (capacity c <? len (remove k (_cache c) ++ [(k, v)])) eqn:Hlt.
  - apply Z.ltb_lt in Hlt. unfold len in *. rewrite length_app in Hlt.
    simpl in Hlt.
    destruct (remove k (_cache c)) as [|[k0 v0] d] eqn:Hr; simpl in *; [lia|].
    exists d. split; [done|]. split; [by case_decide|].
    split; [by apply sublist_cons|]. lia.
  - apply Z.ltb_ge in Hlt. exists (remove k (_cache c)). by split_and!.
Qed.

End lru_cache.

Section slices.

Lemma adjust_index_nonneg i len :
  0 ≤ i → 0 ≤ len → adjust_index i len = Z.min i len.
Proof.
  intros. unfold adjust_index.
  destruct (Z.ltb_spec i 0), (Z.leb_spec len i); lia.
Qed.

(** For non-negative bounds the slice is the part of the range that
    lies inside the list. *)
Lemma py_slice_nonneg (a : Array) l r :
  0 ≤ l → 0 ≤ r →
  py_slice a l (r + 1) = take (Z.to_nat (r + 1 - l)) (drop (Z.to_nat l) a).
Proof.
  intros Hl Hr. unfold py_slice.
  rewrite !adjust_index_nonneg by lia.
  destruct (Z.le_gt_cases (Z.of_nat (length a)) l) as [Hge|Hlt].
  - rewrite (Z.min_r l) by lia. rewrite !drop_ge by lia. by rewrite !take_nil.
  - rewrite (Z.min_l l) by lia.
    destruct (Z.le_gt_cases (r + 1) (Z.of_nat (length a))).
    + by rewrite Z.min_l by lia.
    + rewrite Z.min_r by lia.
      rewrite !take_ge; [done| |]; rewrite length_drop; lia.
Qed.

Lemma py_slice_insert_outside (a : Array) l r idx v :
  0 ≤ l → 0 ≤ r → 0 ≤ idx → ¬ (l ≤ idx ∧ idx ≤ r) →
  py_slice (<[Z.to_nat idx := v]> a) l (r + 1) = py_slice a l (r + 1).
Proof.
  intros Hl Hr Hi Hout. rewrite !py_slice_nonneg by done.
  destruct (Z.lt_ge_cases idx l) as [Hlt|Hge].
  - rewrite drop_insert_lt by lia. done.
  - rewrite drop_insert_ge by lia. rewrite take_insert_ge by lia. done.
Qed.

Lemma list_setitem_nonneg (a : Array) idx v a' :
  0 ≤ idx → list_setitem a idx v = Ok a' → a' = <[Z.to_nat idx := v]> a.
Proof.
  intros Hi. unfold list_setitem.
  destruct (Z.ltb_spec idx 0); [lia|].
  case_match; [|done]. by intros [= <-].
Qed.

End slices.

Section lru_claims.
Import OrderedDict LRUCache.
Implicit Types (d : OrderedDict.t) (k : Key) (v : Z) (c : LRUCache.t).

Lemma run_lru_op_inv o c c' :
  dict_wf (_cache c) → 1 ≤ capacity c → len (_cache c) ≤ capacity c →
  run_lru_op o c = Ok c' →
  dict_wf (_cache c') ∧ capacity c' = capacity c ∧
  len (_cache c') ≤ capacity c'.
Proof.
  intros Hd Hcap Hlen. destruct o as [k|k v|p]; simpl.
  - pose proof (get_wf k c) as Hw. rewrite get_spec in *.
    destruct (lookup k (_cache c)) as [v|] eqn:Hk; simpl; intros [= <-].
    + split; [by apply (Hw (v, _))|]. simpl. split; [done|].
      unfold len. rewrite length_app. simpl.
      pose proof (remove_length_present _ _ _ Hd Hk). unfold len in Hlen. lia.
    + done.
  - intros Hp. split; [by eapply put_wf|]. by eapply put_len.
  - intros Hi. split; [by eapply invalidate_wf|].
    rewrite invalidate_spec in Hi by done. injection Hi as <-. simpl.
    split; [done|]. unfold len in *.
    pose proof (length_filter (λ e, ¬ covers p e) (_cache c)). lia.
Qed.

Lemma run_lru_op_total o c :
  dict_wf (_cache c) → ∃ c', run_lru_op o c = Ok c'.
Proof.
  intros Hd. destruct o as [k|k v|p]; simpl.
  - rewrite get_spec. destruct (lookup k (_cache c)); simpl; eauto.
  - rewrite put_spec. eauto.
  - rewrite invalidate_spec by done. eauto.
Qed.

Lemma run_lru_inv os c :
  dict_wf (_cache c) → 1 ≤ capacity c → len (_cache c) ≤ capacity c →
  ∃ c', run_lru os c = Ok c' ∧
    dict_wf (_cache c') ∧ capacity c' = capacity c ∧
    len (_cache c') ≤ capacity c'.
Proof.
  revert c. induction os as [|o os IH]; intros c Hd Hcap Hlen; simpl.
  - eauto.
  - destruct (run_lru_op_total o c Hd) as [c1 H1]. rewrite H1. simpl.
    destruct (run_lru_op_inv _ _ _ Hd Hcap Hlen H1) as (Hd1 & Hc1 & Hl1).
    destruct (IH c1) as (c' & ? & ? & ? & ?); [done|lia|done|].
    exists c'. split_and!; [done|done|congruence|done].
Qed.

Lemma keys_put_dict k v d k' :
  k' ∈ keys d → k' ∈ keys (remove k d ++ [(k, v)]).
Proof.
  unfold keys, remove. rewrite fmap_app, elem_of_app.
  intros ([k1 v1] & -> & Hin)%list_elem_of_fmap. simpl.
  destruct (decide (k1 = k)) as [->|Hne].
  - right. simpl. left.
  - left. apply list_elem_of_fmap. exists (k1, v1). split; [done|].
    by apply list_elem_of_filter.
Qed.

(** ** C2 *)

(** C2 (capacity invariant, single eviction). A cache built with a
    capacity of at least one holds at most [capacity] entries after every
    sequence of [get], [put] and [invalidate_ranges_containing] calls.  A
    further [put] keeps that bound; it removes nothing when it overwrites
    a key or when there is room; when the insertion makes [capacity + 1]
    entries, the entry removed is the first (least recently used) one of
    the dictionary after the insertion, which is the least recently used
    one from before the call; and two keys lost by one [put] are the same
    key. *)
Theorem C2_capacity_invariant (cap : Z) (os : list lru_op) :
  1 ≤ cap →
  ∃ c0 c, __init__ cap = Ok c0 ∧ run_lru os c0 = Ok c ∧
    len (_cache c) ≤ cap ∧
    ∀ k v, ∃ c', put k v c = Ok c' ∧
      len (_cache c') ≤ cap ∧
      (is_Some (lookup k (_cache c)) →
         _cache c' = remove k (_cache c) ++ [(k, v)] ∧
         len (_cache c') = len (_cache c)) ∧
      (lookup k (_cache c) = None → len (_cache c) < cap →
         _cache c' = _cache c ++ [(k, v)]) ∧
      (lookup k (_cache c) = None → len (_cache c) = cap →
         len (_cache c ++ [(k, v)]) = cap + 1 ∧
         ∃ lru, head (_cache c) = Some lru ∧
                _cache c ++ [(k, v)] = lru :: _cache c') ∧
      (∀ k1 k2, k1 ∈ keys (_cache c) → k2 ∈ keys (_cache c) →
         k1 ∉ keys (_cache c') → k2 ∉ keys (_cache c') → k1 = k2).
Proof.
  intros Hcap.
  destruct (run_lru_inv os {| capacity := cap; _cache := empty |})
    as (c & Hrun & Hd & Hc & Hl); [apply NoDup_nil_2|done|simpl; unfold len; simpl; lia|].
  simpl in Hc. rewrite Hc in Hl.
  eexists _, c. split; [reflexivity|]. split; [done|]. split; [done|].
  intros k v. eexists. split; [apply put_spec|]. simpl. rewrite Hc.
  unfold len in *.
  set (d := _cache c) in *.
  split_and!.
  - case_match eqn:E; [|apply Z.ltb_ge in E; lia].
    destruct (remove k d ++ [(k, v)]) as [|e d'] eqn:E';
      [by destruct (remove k d)|].
    pose proof (length_filter (λ e, e.1 ≠ k) d). fold (remove k d) in *.
    apply (f_equal length) in E'. rewrite length_app in E'. simpl in *. lia.
  - intros [v0 Hv0].
    pose proof (remove_length_present _ _ _ Hd Hv0) as Hlen.
    case_match eqn:E.
    + apply Z.ltb_lt in E. rewrite length_app in E. simpl in E. lia.
    + split; [done|]. rewrite length_app. simpl. lia.
  - intros Hnone Hlt. rewrite remove_absent by done.
    case_match eqn:E; [|done].
    apply Z.ltb_lt in E. rewrite length_app in E. simpl in E. lia.
  - intros Hnone Heq. rewrite remove_absent by done.
    split; [rewrite length_app; simpl; lia|].
    case_match eqn:E.
    + destruct d as [|e d']; [simpl in *; lia|].
      exists e. done.
    + apply Z.ltb_ge in E. rewrite length_app in E. simpl in E. lia.
  - intros k1 k2 H1 H2 N1 N2.
    apply (keys_put_dict k v) in H1, H2.
    case_match eqn:E; [|done].
    destruct (remove k d ++ [(k, v)]) as [|[k0 v0] d']; [by apply elem_of_nil in H1|].
    unfold keys in *. simpl in *.
    apply elem_of_cons in H1 as [->|?]; [|done].
    apply elem_of_cons in H2 as [->|?]; done.
Qed.

Lemma C2_capacity_invariant_witness :
  1 ≤ 2 ∧
  ∃ c0 c, __init__ 2 = Ok c0 ∧
    run_lru [OpPut (0, 2) 5; OpPut (1, 3) 9; OpGet (0, 2); OpPut (4, 6) 1] c0
      = Ok c ∧
    len (_cache c) ≤ 2.
Proof.
  split; [lia|].
  destruct (C2_capacity_invariant 2
              [OpPut (0, 2) 5; OpPut (1, 3) 9; OpGet (0, 2); OpPut (4, 6) 1])
    as (c0 & c & H0 & H1 & H2 & _); [lia|].
  exists c0, c. auto.
Defined.

(** ** C5 *)

(** C5, as stated, fails: [LRUCache(0)] and [LRUCache(-3)] are built
    without any error. *)
Lemma C5_counterexample :
  __init__ 0 = Ok {| capacity := 0; _cache := [] |} ∧
  __init__ (-3) = Ok {| capacity := -3; _cache := [] |} ∧
  ¬ (∀ cap, cap ≤ 0 → ∃ e, __init__ cap = Raise e).
Proof.
  split_and!; [done|done|].
  intros H. destruct (H 0) as [e He]; [lia|]. discriminate He.
Qed.

Lemma run_lru_nonpositive os c :
  capacity c ≤ 0 → _cache c = [] →
  ∃ c', run_lru os c = Ok c' ∧ capacity c' = capacity c ∧ _cache c' = [].
Proof.
  revert c. induction os as [|o os IH]; intros c Hcap Hd; simpl; [eauto|].
  assert (∃ c1, run_lru_op o c = Ok c1 ∧ capacity c1 = capacity c ∧
                _cache c1 = []) as (c1 & -> & Hc1 & Hd1).
  { destruct o as [k|k v|p]; simpl.
    - rewrite get_spec, Hd. simpl. eauto.
    - rewrite put_spec, Hd. simpl. unfold len. simpl.
      rewrite (proj2 (Z.ltb_lt _ _)) by lia. eauto.
    - rewrite invalidate_spec by (rewrite Hd; apply NoDup_nil_2).
      rewrite Hd. simpl. eauto. }
  simpl. destruct (IH c1) as (c' & ? & ? & ?); [lia|done|].
  exists c'. split_and!; [done|congruence|done].
Qed.

(** C5 (amended). The constructor does not validate its argument: for
    every integer [cap], [LRUCache(cap)] succeeds and gives an empty
    cache of that capacity.  With a capacity that is not positive the
    cache is still usable, and it is empty after every sequence of
    calls: every [put] evicts the entry it has just stored, and every
    [get] misses. *)
Theorem C5_no_capacity_validation (cap : Z) (os : list lru_op) :
  ∃ c0, __init__ cap = Ok c0 ∧
    capacity c0 = cap ∧ _cache c0 = [] ∧
    (cap ≤ 0 →
     ∃ c, run_lru os c0 = Ok c ∧ capacity c = cap ∧ _cache c = [] ∧
       (∀ k v, put k v c = Ok c) ∧
       (∀ k, get k c = Ok (-1, c))).
Proof.
  exists {| capacity := cap; _cache := [] |}.
  split; [reflexivity|]. split; [done|]. split; [done|]. intros Hcap.
  destruct (run_lru_nonpositive os {| capacity := cap; _cache := [] |})
    as (c & Hrun & Hc & Hd); [done|done|].
  simpl in Hc. exists c. split_and!; [done|done|done| |].
  - intros k v. rewrite put_spec, Hd. simpl. unfold len. simpl.
    rewrite (proj2 (Z.ltb_lt _ _)) by lia.
    destruct c; simpl in *; by subst.
  - intros k. rewrite get_spec, Hd. done.
Qed.

Lemma C5_no_capacity_validation_witness :
  (∃ c0, __init__ 7 = Ok c0 ∧ capacity c0 = 7 ∧ _cache c0 = []) ∧
  0 ≤ 0 ∧
  ∃ c0 c, __init__ 0 = Ok c0 ∧
    run_lru [OpPut (0, 2) 5; OpGet (0, 2)] c0 = Ok c ∧ _cache c = [].
Proof.
  split.
  { destruct (C5_no_capacity_validation 7 []) as (c0 & H0 & H1 & H2 & _).
    exists c0. auto. }
  split; [lia|].
  destruct (C5_no_capacity_validation 0 [OpPut (0, 2) 5; OpGet (0, 2)])
    as (c0 & H0 & _ & _ & H).
  destruct H as (c & H1 & _ & H2 & _); [lia|].
  exists c0, c. auto.
Defined.

(** ** C7 *)

(** C7 (invalidation precision and frame).  On a cache (an [OrderedDict],
    so with unique keys) [invalidate_ranges_containing p] raises nothing,
    keeps every entry whose range lies to the right or to the left of
    [p], and the entries it leaves are the entries whose range does not
    cover [p], in the order they had: the new dictionary is the old one
    filtered, hence a subsequence of it. *)
Theorem C7_invalidation_frame (c : LRUCache.t) (p : Z) :
  dict_wf (_cache c) →
  ∃ c', invalidate_ranges_containing p c = Ok c' ∧
    capacity c' = capacity c ∧
    (∀ l r v, ((l, r), v) ∈ _cache c → p < l ∨ p > r →
              ((l, r), v) ∈ _cache c') ∧
    _cache c' = filter (λ e, ¬ covers p e) (_cache c) ∧
    sublist (_cache c') (_cache c).
Proof.
  intros Hd. eexists. split; [by apply invalidate_spec|]. simpl.
  split_and!; [done| |done|apply sublist_filter].
  intros l r v Hin Hout. apply list_elem_of_filter. split; [|done].
  unfold covers. simpl. lia.
Qed.

Lemma C7_invalidation_frame_witness :
  dict_wf [((0, 2), 5); ((1, 3), 9); ((4, 6), 1)] ∧
  ∃ c', invalidate_ranges_containing 1
          {| capacity := 3; _cache := [((0, 2), 5); ((1, 3), 9); ((4, 6), 1)] |}
        = Ok c' ∧
    ((4, 6), 1) ∈ _cache c'.
Proof.
  assert (dict_wf [((0, 2), 5); ((1, 3), 9); ((4, 6), 1)]) as Hwf.
  { unfold dict_wf, keys. simpl. apply (bool_decide_unpack _). vm_compute. exact I. }
  split; [exact Hwf|].
  destruct (C7_invalidation_frame
              {| capacity := 3; _cache := [((0, 2), 5); ((1, 3), 9); ((4, 6), 1)] |}
              1 Hwf) as (c' & H1 & _ & H2 & _).
  exists c'. split; [exact H1|].
  apply H2; [|lia]. simpl. right. right. left.
Defined.

(** ** C8 *)

Lemma put_all_app es1 es2 c :
  put_all (es1 ++ es2) c = (c' ←! put_all es1 c; put_all es2 c').
Proof.
  revert c. induction es1 as [|[k v] es1 IH]; intros c; simpl; [done|].
  destruct (put k v c); simpl; [apply IH | done].
Qed.

(** While there is room, [put] of new keys appends them in order. *)
Lemma put_all_fill es cap d :
  dict_wf (d ++ es) → Z.of_nat (length (d ++ es)) ≤ cap →
  put_all es {| capacity := cap; _cache := d |}
    = Ok {| capacity := cap; _cache := d ++ es |}.
Proof.
  revert d. induction es as [|[k v] es IH]; intros d Hwf Hlen; simpl.
  - by rewrite app_nil_r.
  - rewrite put_spec. simpl.
    assert (lookup k d = None) as Hk.
    { apply lookup_None_keys. unfold dict_wf, keys in *.
      rewrite fmap_app in Hwf. apply NoDup_app in Hwf as (_ & Hdis & _).
      intros Hin. apply (Hdis _ Hin). left. }
    rewrite remove_absent by done. unfold len.
    rewrite (proj2 (Z.ltb_ge _ _))
      by (rewrite !length_app in *; simpl in *; lia).
    unfold with_cache. simpl. rewrite IH.
    + by rewrite <- app_assoc.
    + by rewrite <- app_assoc.
    + rewrite !length_app in *. simpl in *. lia.
Qed.

(** C8 (least-recently-used eviction, [get] refreshes recency).  Putting
    [k + 1] entries with distinct keys, in order, into a fresh cache of
    capacity [k ≥ 1] leaves exactly the last [k] of them, in order: the
    first key is absent (its [get] returns the miss value -1) and every
    other key is present with its value.  In the capacity-2 run
    [put((0,2),5)], [put((1,3),9)], [get((0,2))], [put((4,6),1)] the
    [get] returns 5 and moves [(0,2)] to the most recent end, the last
    [put] evicts [(1,3)], and [get((1,3))] then returns -1. *)
Theorem C8_lru_eviction_order (k : nat) (e0 : Key * Z) (es : list (Key * Z)) :
  (1 ≤ k)%nat → length es = k → dict_wf (e0 :: es) →
  (∃ c0 c, __init__ (Z.of_nat k) = Ok c0 ∧ put_all (e0 :: es) c0 = Ok c ∧
     _cache c = es ∧
     lookup e0.1 (_cache c) = None ∧
     get e0.1 c = Ok (-1, c) ∧
     (∀ key v, (key, v) ∈ es → lookup key (_cache c) = Some v)) ∧
  (∃ c0 c1 c2 c3 c4,
     __init__ 2 = Ok c0 ∧
     put (0, 2) 5 c0 = Ok c1 ∧
     put (1, 3) 9 c1 = Ok c2 ∧
     get (0, 2) c2 = Ok (5, c3) ∧
     _cache c3 = [((1, 3), 9); ((0, 2), 5)] ∧
     put (4, 6) 1 c3 = Ok c4 ∧
     _cache c4 = [((0, 2), 5); ((4, 6), 1)] ∧
     get (1, 3) c4 = Ok (-1, c4)).
Proof.
  intros Hk Hlen Hwf. split.
  - destruct (exists_last (l:=es)) as (es' & [kl vl] & ->).
    { intros ->. simpl in Hlen. lia. }
    rewrite length_app in Hlen. simpl in Hlen.
    assert (dict_wf (es' ++ [(kl, vl)])) as Hes.
    { unfold dict_wf, keys in *. rewrite fmap_cons in Hwf.
      by apply NoDup_cons in Hwf as [_ ?]. }
    assert (lookup e0.1 (es' ++ [(kl, vl)]) = None) as He0.
    { apply lookup_None_keys. unfold dict_wf, keys in Hwf.
      rewrite fmap_cons in Hwf. by apply NoDup_cons in Hwf as [? _]. }
    exists {| capacity := Z.of_nat k; _cache := [] |}. eexists.
    split; [reflexivity|].
    rewrite (app_comm_cons es' [(kl, vl)] e0), put_all_app.
    rewrite (put_all_fill (e0 :: es') (Z.of_nat k) []); cycle 1.
    { simpl. unfold dict_wf, keys in *.
      rewrite app_comm_cons, fmap_app in Hwf.
      by apply NoDup_app in Hwf as (? & _ & _). }
    { simpl. lia. }
    cbn [pybind put_all app]. rewrite put_spec. cbn [_cache capacity].
    assert (lookup kl (e0 :: es') = None) as Hkl.
    { apply lookup_None_keys. unfold dict_wf, keys in Hwf.
      rewrite app_comm_cons, fmap_app in Hwf.
      apply NoDup_app in Hwf as (_ & Hdis & _).
      intros Hin. apply (Hdis _ Hin). left. }
    rewrite remove_absent by done. unfold len.
    rewrite (proj2 (Z.ltb_lt _ _)) by (rewrite length_app; simpl; lia).
    cbn [pybind tail app with_cache capacity _cache].
    split; [reflexivity|]. cbn [_cache].
    split_and!; [done|done| |].
    + rewrite get_spec. simpl. by rewrite He0.
    + intros key v Hin. by apply elem_of_lookup.
  - by eexists _, _, _, _, _.
Qed.

Lemma C8_lru_eviction_order_witness :
  (1 ≤ 2)%nat ∧ length [((1, 3), 9); ((4, 6), 1)] = 2%nat ∧
  dict_wf [((0, 2), 5); ((1, 3), 9); ((4, 6), 1)] ∧
  ∃ c0 c, __init__ 2 = Ok c0 ∧
    put_all [((0, 2), 5); ((1, 3), 9); ((4, 6), 1)] c0 = Ok c ∧
    lookup (0, 2) (_cache c) = None.
Proof.
  assert (dict_wf [((0, 2), 5); ((1, 3), 9); ((4, 6), 1)]) as Hwf.
  { unfold dict_wf, keys. simpl. apply (bool_decide_unpack _). vm_compute. exact I. }
  split; [lia|]. split; [reflexivity|]. split; [exact Hwf|].
  destruct (C8_lru_eviction_order 2 ((0, 2), 5) [((1, 3), 9); ((4, 6), 1)])
    as [(c0 & c & H0 & H1 & _ & H2 & _) _]; [lia|reflexivity|exact Hwf|].
  exists c0, c. auto.
Defined.

(** ** C9 *)

(** C9 (a miss is the integer -1).  [get] on an absent key returns -1
    and leaves the cache as it is; [get] on a key whose stored value is
    -1 returns -1 as well (and moves the entry to the most recent end);
    [get] returns -1 in these two cases only.  Whenever [get] returns
    -1, for either reason, [range_sum_with_cache] computes the sum of
    the slice again, returns it, and stores it with [put]: the new
    dictionary is the old one without the key, with the key and the new
    sum at the most recent end, less its first entry when that exceeds
    the capacity.  So with a capacity of at least 1 the key then holds
    the new sum, in the last position, and the next [get] returns it;
    and in a cache within its capacity a stored -1 is replaced by the
    new sum and nothing is evicted. *)
Theorem C9_miss_is_minus_one (c : LRUCache.t) (key : Key) :
  (lookup key (_cache c) = None → get key c = Ok (-1, c)) ∧
  (lookup key (_cache c) = Some (-1) →
     get key c = Ok (-1, with_cache c (remove key (_cache c) ++ [(key, -1)]))) ∧
  (∀ c1, get key c = Ok (-1, c1) →
     lookup key (_cache c) = None ∨ lookup key (_cache c) = Some (-1)) ∧
  (∀ (array : Array) c1,
     get key c = Ok (-1, c1) →
     ∃ c', put key (sum (py_slice array key.1 (key.2 + 1))) c1 = Ok c' ∧
       range_sum_with_cache array key.1 key.2 c
         = Ok (sum (py_slice array key.1 (key.2 + 1)), c') ∧
       capacity c' = capacity c ∧
       _cache c' =
         (let d := remove key (_cache c)
                     ++ [(key, sum (py_slice array key.1 (key.2 + 1)))] in
          if capacity c <? len d then tail d else d) ∧
       (1 ≤ capacity c →
          lookup key (_cache c')
            = Some (sum (py_slice array key.1 (key.2 + 1))) ∧
          last (_cache c')
            = Some (key, sum (py_slice array key.1 (key.2 + 1))) ∧
          get key c' = Ok (sum (py_slice array key.1 (key.2 + 1)), c'))) ∧
  (∀ (array : Array),
     lookup key (_cache c) = Some (-1) → len (_cache c) ≤ capacity c →
     ∃ c', range_sum_with_cache array key.1 key.2 c
             = Ok (sum (py_slice array key.1 (key.2 + 1)), c') ∧
       _cache c' = remove key (_cache c)
                     ++ [(key, sum (py_slice array key.1 (key.2 + 1)))] ∧
       lookup key (_cache c')
         = Some (sum (py_slice array key.1 (key.2 + 1)))).
Proof.
  split_and!.
  - intros H. by rewrite get_spec, H.
  - intros H. by rewrite get_spec, H.
  - intros c1. rewrite get_spec.
    destruct (lookup key (_cache c)) as [v|]; [|by left].
    intros [= -> _]. by right.
  - intros array c1 Hget. destruct key as [l r]. cbn [fst snd].
    set (s := sum (py_slice array l (r + 1))).
    set (key := (l, r)) in *.
    assert (capacity c1 = capacity c ∧
            remove key (_cache c1) = remove key (_cache c)) as [Hcap Hrem].
    { rewrite get_spec in Hget.
      destruct (lookup key (_cache c)) as [v|].
      - injection Hget as _ <-. simpl. split; [done|].
        apply remove_snoc_absent, lookup_remove_eq.
      - by injection Hget as <-. }
    set (D := if capacity c1 <? len (remove key (_cache c1) ++ [(key, s)])
              then tail (remove key (_cache c1) ++ [(key, s)])
              else remove key (_cache c1) ++ [(key, s)]).
    assert (put key s c1 = Ok (with_cache c1 D)) as Hput by apply put_spec.
    assert (D = (let d := remove key (_cache c) ++ [(key, s)] in
                 if capacity c <? len d then tail d else d)) as HD.
    { unfold D. by rewrite Hcap, Hrem. }
    assert (1 ≤ capacity c → ∃ d, D = d ++ [(key, s)] ∧ lookup key d = None)
      as Hlast.
    { intros Hc. destruct (put_last key s c1) as (d & Hp & Hn & _); [lia|].
      rewrite Hput in Hp. injection Hp as Hp. by exists d. }
    clearbody D. exists (with_cache c1 D).
    split; [done|]. split.
    { unfold range_sum_with_cache. cbv zeta. fold key.
      rewrite Hget. simpl. fold s. by rewrite Hput. }
    split; [done|]. split; [done|].
    intros Hc. destruct (Hlast Hc) as (d & -> & Hn). simpl.
    split; [by apply lookup_snoc|]. split; [by rewrite last_snoc|].
    rewrite get_spec. simpl. rewrite lookup_snoc by done.
    by rewrite remove_snoc_absent by done.
  - intros array Hl Hlen. destruct key as [l r]. cbn [fst snd].
    set (s := sum (py_slice array l (r + 1))). set (key := (l, r)) in *.
    pose proof (remove_length_lt _ _ _ Hl) as Hlt.
    unfold range_sum_with_cache. cbv zeta. fold key.
    rewrite get_spec, Hl. simpl. fold s. rewrite put_spec. simpl.
    rewrite (remove_snoc_absent key (-1)) by apply lookup_remove_eq.
    destruct (capacity c <? _) eqn:E.
    { apply Z.ltb_lt in E. unfold len in *. rewrite length_app in E.
      simpl in E. lia. }
    eexists. split; [done|]. simpl. split; [done|].
    apply lookup_snoc, lookup_remove_eq.
Qed.

(** ** C6 *)

(** C6, as stated, fails: a range that runs past the end of the list, an
    inverted range, and a range wholly outside the list all return a
    sum; nothing raises, with or without the cache. *)
Lemma C6_counterexample :
  range_sum_no_cache [1; 2; 3] 1 10 = Ok 5 ∧
  range_sum_no_cache [1; 2; 3] 2 0 = Ok 0 ∧
  range_sum_no_cache [1; 2; 3] 7 9 = Ok 0 ∧
  range_sum_with_cache [1; 2; 3] 1 10 {| capacity := 2; _cache := [] |}
    = Ok (5, {| capacity := 2; _cache := [((1, 10), 5)] |}) ∧
  ¬ (∀ (array : Array) l r,
       Z.of_nat (length array) ≤ r ∨ r < l →
       range_sum_no_cache array l r = Raise IndexError).
Proof.
  split_and!; [done|done|done|done|].
  intros H. specialize (H [1; 2; 3] 1 10 ltac:(simpl; lia)). discriminate H.
Qed.

Lemma range_sum_with_cache_spec (array : Array) l r c :
  range_sum_with_cache array l r c =
    match lookup (l, r) (_cache c) with
    | Some v =>
        if v =? -1 then
          c' ←! put (l, r) (sum (py_slice array l (r + 1)))
                  (with_cache c (remove (l, r) (_cache c) ++ [((l, r), v)]));
          Ok (sum (py_slice array l (r + 1)), c')
        else Ok (v, with_cache c (remove (l, r) (_cache c) ++ [((l, r), v)]))
    | None =>
        c' ←! put (l, r) (sum (py_slice array l (r + 1))) c;
        Ok (sum (py_slice array l (r + 1)), c')
    end.
Proof.
  unfold range_sum_with_cache. rewrite get_spec.
  destruct (lookup (l, r) (_cache c)); done.
Qed.

Lemma py_slice_clamped (a : Array) start stop :
  py_slice a start stop
    = take (Z.to_nat (from_end (Z.of_nat (length a)) stop
                      - from_end (Z.of_nat (length a)) start))
        (drop (Z.to_nat (from_end (Z.of_nat (length a)) start)) a).
Proof.
  unfold py_slice. cbv zeta.
  set (n := Z.of_nat (length a)).
  assert (∀ i, 0 ≤ from_end n i ∧ adjust_index i n = Z.min (from_end n i) n)
    as Hadj.
  { intros i. unfold adjust_index, from_end.
    destruct (Z.ltb_spec i 0).
    - destruct (Z.ltb_spec (i + n) 0); lia.
    - destruct (Z.leb_spec n i); lia. }
  destruct (Hadj start) as [HS ->]. destruct (Hadj stop) as [HE ->].
  set (S := from_end n start) in *. set (E := from_end n stop) in *.
  destruct (Z.le_gt_cases n S).
  - rewrite !drop_ge by lia. by rewrite !take_nil.
  - rewrite (Z.min_l S n) by lia. destruct (Z.le_gt_cases n E).
    + rewrite (Z.min_r E n) by lia.
      rewrite !take_ge; [done|rewrite length_drop; lia..].
    + by rewrite (Z.min_l E n) by lia.
Qed.

(** C6 (amended).  Neither range-sum helper validates the range, and
    neither fails on it, for any integers [left] and [right]: the
    sequence access is the slice [array[left:right+1]], which clamps its
    bounds to the list instead of raising (a negative bound counts from
    the end of the list, and not below 0).  [range_sum_no_cache] returns
    the sum of the clamped slice; [range_sum_with_cache] returns the
    value stored under [(left, right)] when there is one other than -1,
    and that same sum otherwise.  For non-negative [left] and [right]
    the sum is the sum of the elements at the positions
    [left ≤ i ≤ right] that exist: 0 when there is none, as for
    [left > right] or [left] past the end, and the sum of the tail from
    [left] when [right] is past the end. *)
Theorem C6_out_of_bounds_is_clamped (array : Array) (l r : Z) (c : LRUCache.t) :
  ∃ s c',
    s = sum (take (Z.to_nat (from_end (Z.of_nat (length array)) (r + 1)
                             - from_end (Z.of_nat (length array)) l))
               (drop (Z.to_nat (from_end (Z.of_nat (length array)) l)) array)) ∧
    range_sum_no_cache array l r = Ok s ∧
    range_sum_with_cache array l r c
      = Ok (match lookup (l, r) (_cache c) with
            | Some v => if v =? -1 then s else v
            | None => s
            end, c') ∧
    (0 ≤ l → 0 ≤ r →
       s = sum (take (Z.to_nat (r + 1 - l)) (drop (Z.to_nat l) array)) ∧
       (r < l ∨ Z.of_nat (length array) ≤ l → s = 0) ∧
       (Z.of_nat (length array) ≤ r → s = sum (drop (Z.to_nat l) array))).
Proof.
  assert (∃ c', range_sum_with_cache array l r c
                = Ok (match lookup (l, r) (_cache c) with
                      | Some v =>
                          if v =? -1 then sum (py_slice array l (r + 1)) else v
                      | None => sum (py_slice array l (r + 1))
                      end, c')) as [c' Hc].
  { rewrite range_sum_with_cache_spec.
    destruct (lookup (l, r) (_cache c)) as [v|].
    - destruct (v =? -1); [rewrite put_spec|]; simpl; eauto.
    - rewrite put_spec; simpl; eauto. }
  exists (sum (py_slice array l (r + 1))), c'.
  split; [by rewrite py_slice_clamped|]. split; [done|]. split; [done|].
  intros Hl Hr. rewrite py_slice_nonneg by done. split_and!.
  - done.
  - intros [H|H].
    + by replace (Z.to_nat (r + 1 - l)) with 0%nat by lia.
    + rewrite drop_ge by lia. by rewrite take_nil.
  - intros H. destruct (Z.le_gt_cases (Z.of_nat (length array)) l).
    + rewrite !drop_ge by lia. by rewrite take_nil.
    + rewrite take_ge; [done|]. rewrite length_drop. lia.
Qed.

Lemma C6_out_of_bounds_is_clamped_witness :
  range_sum_no_cache [1; 2; 3] 1 10 = Ok 5 ∧
  range_sum_no_cache [1; 2; 3] (-2) 10 = Ok 5 ∧
  range_sum_no_cache [1; 2; 3] (-7) (-2) = Ok 3 ∧
  ∃ c', range_sum_with_cache [1; 2; 3] (-2) 10
          {| capacity := 2; _cache := [] |} = Ok (5, c').
Proof.
  destruct (C6_out_of_bounds_is_clamped [1; 2; 3] 1 10
              {| capacity := 2; _cache := [] |}) as (s1 & _ & -> & H1 & _).
  destruct (C6_out_of_bounds_is_clamped [1; 2; 3] (-2) 10
              {| capacity := 2; _cache := [] |}) as (s2 & c2 & -> & H2 & H3 & _).
  destruct (C6_out_of_bounds_is_clamped [1; 2; 3] (-7) (-2)
              {| capacity := 2; _cache := [] |}) as (s3 & _ & -> & H4 & _).
  split; [exact H1|]. split; [exact H2|]. split; [exact H4|].
  exists c2. exact H3.
Defined.

(** ** C1 *)

(** C1 (cache coherence under mutation): the code breaks it at a
    negative update index.  Python accepts the index -1 for the last
    element, and [update_with_cache] writes it; the invalidation that
    follows compares the index as given with the keys, so it keeps the
    range [(0, 4)] although that range covers the written position.
    The cache then holds 15 for a range whose sum is 110: a [get] of the
    covering key is a hit, not a miss, and the next cached range sum
    returns 15.  The path of [_run_queries] without the cache returns
    110 for the same queries, so the two runs end with different
    checksums. *)
Theorem C1_stale_sum_after_negative_update :
  ∃ a c,
    run_queries [Range 0 4; Update (-1) 100]
      ([1; 2; 3; 4; 5], {| capacity := 2; _cache := [] |}) = Ok (a, c) ∧
    a = [1; 2; 3; 4; 100] ∧
    lookup (0, 4) (_cache c) = Some 15 ∧
    sum (py_slice a 0 (4 + 1)) = 110 ∧
    ¬ coherent a c ∧
    get (0, 4) c = Ok (15, c) ∧
    range_sum_with_cache a 0 4 c = Ok (15, c) ∧
    range_sum_no_cache a 0 4 = Ok 110 ∧
    _run_queries [1; 2; 3; 4; 5] [Range 0 4; Update (-1) 100; Range 0 4] true
      = Ok ([1; 2; 3; 4; 100], Z.lxor 15 15) ∧
    _run_queries [1; 2; 3; 4; 5] [Range 0 4; Update (-1) 100; Range 0 4] false
      = Ok ([1; 2; 3; 4; 100], Z.lxor 15 110).
Proof.
  eexists _, _. split; [reflexivity|].
  split_and!; [done|done|done| |done|done|done|done|done].
  intros H. specialize (H 0 4 15 eq_refl). discriminate H.
Qed.

Lemma cache_inv_coherent a c : cache_inv a c → coherent a c.
Proof.
  intros [_ HF] l r v Hl. apply lookup_elem_of in Hl.
  rewrite Forall_forall in HF. by destruct (HF _ Hl) as (_ & _ & ?).
Qed.

Lemma cache_inv_touch a c k v :
  cache_inv a c → lookup k (_cache c) = Some v →
  cache_inv a (with_cache c (remove k (_cache c) ++ [(k, v)])).
Proof.
  intros [Hd HF] Hk. split; simpl.
  - apply snoc_wf; [by apply remove_wf | apply lookup_remove_eq].
  - apply Forall_app. split.
    + rewrite Forall_forall in *. intros e [_ He]%list_elem_of_filter. auto.
    + apply Forall_singleton. rewrite Forall_forall in HF.
      apply (HF _ (lookup_elem_of _ _ _ Hk)).
Qed.

Lemma cache_inv_put a c l r c' :
  cache_inv a c → 0 ≤ l → 0 ≤ r →
  put (l, r) (sum (py_slice a l (r + 1))) c = Ok c' → cache_inv a c'.
Proof.
  intros [Hd HF] Hl Hr Hp. split; [by eapply put_wf|].
  rewrite put_spec in Hp. injection Hp as <-. simpl.
  assert (Forall (λ e, 0 ≤ e.1.1 ∧ 0 ≤ e.1.2 ∧
                       e.2 = sum (py_slice a e.1.1 (e.1.2 + 1)))
            (remove (l, r) (_cache c)
               ++ [((l, r), sum (py_slice a l (r + 1)))])) as HF'.
  { apply Forall_app. split.
    - rewrite Forall_forall in *. intros e [_ He]%list_elem_of_filter. auto.
    - by apply Forall_singleton. }
  case_match; [|done]. revert HF'. generalize (remove (l, r) (_cache c)).
  intros d HF'. destruct (d ++ _); simpl; [constructor|].
  by apply Forall_cons in HF' as [_ ?].
Qed.

Lemma cache_inv_range a c l r res :
  cache_inv a c → 0 ≤ l → 0 ≤ r →
  range_sum_with_cache a l r c = Ok res →
  res.1 = sum (py_slice a l (r + 1)) ∧ cache_inv a res.2.
Proof.
  intros Hinv Hl Hr. rewrite range_sum_with_cache_spec.
  destruct (lookup (l, r) (_cache c)) as [v|] eqn:Hk.
  - pose proof (cache_inv_touch _ _ _ _ Hinv Hk) as Hinv1.
    destruct (v =? -1) eqn:Hv.
    + destruct (put _ _ _) as [c'|] eqn:Hp; [|done]. simpl. intros [= <-].
      split; [done|]. simpl.
      apply (cache_inv_put a _ l r c' Hinv1 Hl Hr Hp).
    + intros [= <-]. split; [|done]. simpl.
      apply (cache_inv_coherent _ _ Hinv _ _ _ Hk).
  - destruct (put _ _ _) as [c'|] eqn:Hp; [|done]. simpl. intros [= <-].
    split; [done|]. simpl.
    apply (cache_inv_put a _ l r c' Hinv Hl Hr Hp).
Qed.

Lemma cache_inv_update a c idx val a' c' :
  cache_inv a c → 0 ≤ idx →
  update_with_cache a idx val c = Ok (a', c') → cache_inv a' c'.
Proof.
  intros [Hd HF] Hi. unfold update_with_cache.
  destruct (list_setitem a idx val) as [a1|] eqn:Hs; [|done]. simpl.
  rewrite invalidate_spec by done. simpl. intros [= <- <-].
  apply list_setitem_nonneg in Hs as ->; [|done].
  split; simpl; [by apply filter_wf|].
  rewrite Forall_forall in *. intros [[l r] v] [Hnc Hin]%list_elem_of_filter.
  destruct (HF _ Hin) as (Hl & Hr & Hv). simpl in *.
  split_and!; [done|done|].
  rewrite py_slice_insert_outside; done.
Qed.

Lemma cache_inv_run qs a c a' c' :
  Forall nonneg_query qs → cache_inv a c →
  run_queries qs (a, c) = Ok (a', c') → cache_inv a' c'.
Proof.
  intros Hqs. revert a c. induction Hqs as [|q qs Hq Hqs IH]; intros a c Hinv.
  - simpl. by intros [= <- <-].
  - simpl. destruct (run_query q (a, c)) as [[a1 c1]|] eqn:Hq1; [|done].
    simpl. apply IH. destruct q as [l r|idx val]; simpl in *.
    + destruct (range_sum_with_cache a l r c) as [res|] eqn:Hr0; [|done].
      simpl in Hq1. injection Hq1 as <- <-.
      destruct Hq as [Hl Hr].
      apply (cache_inv_range a c l r res Hinv Hl Hr Hr0).
    + apply (cache_inv_update a c idx val a1 c1 Hinv Hq Hq1).
Qed.

(** Right after a successful update no key that covers the index as
    given is left in the cache. *)
Lemma update_removes_covering a c idx val a' c' l r :
  dict_wf (_cache c) →
  update_with_cache a idx val c = Ok (a', c') →
  l ≤ idx ≤ r → lookup (l, r) (_cache c') = None.
Proof.
  intros Hd. unfold update_with_cache.
  destruct (list_setitem a idx val) as [a1|] eqn:Hs; [|done]. simpl.
  rewrite invalidate_spec by done. simpl. intros [= <- <-] Hcov. simpl.
  apply lookup_None_keys. unfold keys.
  intros ([k v] & Hkv & [Hnc _]%list_elem_of_filter)%list_elem_of_fmap.
  simpl in Hkv. subst k. apply Hnc. unfold covers. simpl. lia.
Qed.

(** Where the invalidation is right.  Start from any array and a fresh
    cache of any capacity, and run any sequence of
    [range_sum_with_cache] and [update_with_cache] calls whose [left],
    [right] and [index] arguments are not negative.  Then every
    key [(left, right)] present in the cache maps to the sum of the
    current array over the slice [left..right]; a cached range sum
    returns that sum; and after one more update, a [get] on a key that
    covers the updated index returns the miss value -1 without changing
    the cache, and the next [range_sum_with_cache] on it returns the sum
    over the updated array. *)
Lemma cache_coherence_on_positions (array : Array) (cap : Z) (qs : list query)
    (a : Array) (c0 c : LRUCache.t) :
  Forall nonneg_query qs →
  __init__ cap = Ok c0 →
  run_queries qs (array, c0) = Ok (a, c) →
  coherent a c ∧
  (∀ l r, 0 ≤ l → 0 ≤ r →
     ∃ c', range_sum_with_cache a l r c = Ok (sum (py_slice a l (r + 1)), c')) ∧
  (∀ idx val a' c', update_with_cache a idx val c = Ok (a', c') →
     list_setitem a idx val = Ok a' ∧
     _cache c' = filter (λ e, ¬ covers idx e) (_cache c) ∧
     ∀ l r, l ≤ idx ≤ r →
       get (l, r) c' = Ok (-1, c') ∧
       ∃ c'', range_sum_with_cache a' l r c'
                = Ok (sum (py_slice a' l (r + 1)), c'')).
Proof.
  intros Hqs [= <-] Hrun.
  assert (cache_inv a c) as Hinv.
  { eapply cache_inv_run; [done| |done]. split; simpl; [apply NoDup_nil_2|done]. }
  split_and!.
  - by apply cache_inv_coherent.
  - intros l r Hl Hr.
    assert (∃ res, range_sum_with_cache a l r c = Ok res) as [[v c'] Hres].
    { rewrite range_sum_with_cache_spec.
      destruct (lookup (l, r) (_cache c)) as [v|].
      - destruct (v =? -1); [rewrite put_spec|]; simpl; eauto.
      - rewrite put_spec; simpl; eauto. }
    destruct (cache_inv_range _ _ _ _ _ Hinv Hl Hr Hres) as [Hv _].
    simpl in Hv. subst v. eauto.
  - intros idx val a' c' Hup. destruct Hinv as [Hd _].
    pose proof (λ l r, update_removes_covering _ _ _ _ _ _ l r Hd Hup) as Hnone.
    unfold update_with_cache in Hup.
    destruct (list_setitem a idx val) as [a1|] eqn:Hs; [|done]. simpl in Hup.
    rewrite invalidate_spec in Hup by done. simpl in Hup.
    injection Hup as <- <-. split; [done|]. split; [done|].
    intros l r Hcov. specialize (Hnone l r Hcov). simpl in Hnone.
    split.
    + rewrite get_spec. simpl. by rewrite Hnone.
    + rewrite range_sum_with_cache_spec. simpl. rewrite Hnone.
      rewrite put_spec. simpl. eauto.
Qed.

End lru_claims.

(* ===================================================================== *)
(** * The splay tree: store-level reasoning *)

Section store.
Import SplayTree.
Local Open Scope splay_scope.
Local Open Scope nat_scope.
Implicit Types (h : list _Node) (s : SplayTree.t) (x y : loc) (n : _Node).

Lemma lookup_upd h x f y :
  upd h x f !! y = if decide (x = y) then f <$> h !! x else h !! y.
Proof.
  unfold upd. destruct (h !! x) as [n|] eqn:Hx.
  - rewrite list_lookup_insert. apply lookup_lt_Some in Hx as Hlt.
    destruct (decide (x = y)) as [->|Hne].
    + by rewrite decide_True.
    + rewrite decide_False; [done|]. by intros [? _].
  - destruct (decide (x = y)) as [->|Hne]; [by rewrite Hx|done].
Qed.

Lemma lookup_upd_opt h o f y :
  upd_opt h o f !! y = if decide (o = Some y) then f <$> h !! y else h !! y.
Proof.
  destruct o as [x|]; simpl; [|done]. rewrite lookup_upd.
  destruct (decide (x = y)) as [->|Hne].
  - by rewrite decide_True.
  - rewrite decide_False; [done|]. congruence.
Qed.

Lemma length_upd h x f : length (upd h x f) = length h.
Proof. unfold upd. destruct (h !! x); [apply length_insert|done]. Qed.

Lemma length_upd_opt h o f : length (upd_opt h o f) = length h.
Proof. destruct o; [apply length_upd|done]. Qed.

Lemma modify_eq x f s :
  modify x f s =
    match nodes s !! x with
    | Some _ => Some (tt, {| nodes := upd (nodes s) x f; root := root s |})
    | None => None
    end.
Proof. unfold modify, upd. by destruct (nodes s !! x). Qed.

Lemma bind_eq {A B} (m : M A) (k : A → M B) s a s' :
  m s = Some (a, s') → bind m k s = k a s'.
Proof. unfold bind. by intros ->. Qed.

Lemma bind_assoc {A B C} (m : M A) (f : A → M B) (g : B → M C) s :
  bind (bind m f) g s = bind m (λ a, bind (f a) g) s.
Proof. unfold bind. by destruct (m s) as [[a s']|]. Qed.

Lemma bind_ret {A B} (a : A) (k : A → M B) s : bind (ret a) k s = k a s.
Proof. done. Qed.

Lemma key_at_upd h x f a :
  (∀ n, key (f n) = key n) → key_at (upd h x f) a = key_at h a.
Proof.
  intros Hf. unfold key_at. rewrite lookup_upd.
  destruct (decide (x = a)) as [->|]; [|done].
  destruct (h !! a); simpl; [apply Hf|done].
Qed.

Lemma same_data_refl h : same_data h h.
Proof. by split. Qed.

Lemma same_data_trans h1 h2 h3 :
  same_data h1 h2 → same_data h2 h3 → same_data h1 h3.
Proof.
  intros [L1 H1] [L2 H2]. split; [congruence|].
  intros a. destruct (H1 a), (H2 a). split; congruence.
Qed.

Lemma same_data_upd h x f :
  (∀ n, key (f n) = key n ∧ value (f n) = value n) → same_data h (upd h x f).
Proof.
  intros Hf. split; [apply length_upd|]. intros a. rewrite lookup_upd.
  destruct (decide (x = a)) as [->|]; [|by split].
  destruct (h !! a) as [n|]; simpl; [|by split].
  destruct (Hf n). split; congruence.
Qed.

Lemma same_data_upd_opt h o f :
  (∀ n, key (f n) = key n ∧ value (f n) = value n) → same_data h (upd_opt h o f).
Proof. destruct o; simpl; [apply same_data_upd | intros; apply same_data_refl]. Qed.

Lemma same_data_key_at h h' a : same_data h h' → key_at h' a = key_at h a.
Proof.
  intros [_ H]. destruct (H a) as [Hk _]. unfold key_at.
  destruct (h' !! a), (h !! a); simpl in *; congruence.
Qed.

(** [==] decides identity on two nodes with different keys. *)
Lemma dataclass_eq_refl fuel h o : dataclass_eq fuel h o o = Some true.
Proof. destruct fuel; simpl; by destruct (decide (o = o)). Qed.

Lemma dataclass_eq_None_l fuel h y : dataclass_eq fuel h None (Some y) = Some false.
Proof. destruct fuel; simpl; by destruct (decide (None = Some y)). Qed.

Lemma dataclass_eq_None_r fuel h x : dataclass_eq fuel h (Some x) None = Some false.
Proof. destruct fuel; simpl; by destruct (decide (Some x = None)). Qed.

Lemma dataclass_eq_keys fuel h x y nx ny :
  h !! x = Some nx → h !! y = Some ny → key nx ≠ key ny →
  dataclass_eq (S fuel) h (Some x) (Some y) = Some false.
Proof.
  intros Hx Hy Hk. simpl.
  destruct (decide (Some x = Some y)) as [[= ->]|_]; [congruence|].
  rewrite Hx, Hy. by rewrite (proj2 (Z.eqb_neq _ _) Hk).
Qed.

End store.

Section rotations.
Import SplayTree.
Local Open Scope splay_scope.
Local Open Scope nat_scope.
Implicit Types (h : list _Node) (s : SplayTree.t) (x y : loc) (n : _Node).

Lemma is_Some_upd h x f a : is_Some (upd h x f !! a) ↔ is_Some (h !! a).
Proof. by rewrite !lookup_lt_is_Some, length_upd. Qed.

Lemma is_Some_upd_opt h o f a : is_Some (upd_opt h o f !! a) ↔ is_Some (h !! a).
Proof. by rewrite !lookup_lt_is_Some, length_upd_opt. Qed.

Lemma key_at_upd_opt h o f a :
  (∀ n, key (f n) = key n) → key_at (upd_opt h o f) a = key_at h a.
Proof. destruct o; simpl; [apply key_at_upd | done]. Qed.

(** The outcome of [a == b] when different nodes have different keys. *)
Lemma node_eq_decide s a b :
  (∀ x y, a = Some x → b = Some y → x ≠ y →
          is_Some (nodes s !! x) ∧ is_Some (nodes s !! y) ∧
          key_at (nodes s) x ≠ key_at (nodes s) y) →
  node_eq a b s = Some (bool_decide (a = b), s).
Proof.
  intros H. unfold node_eq.
  destruct (decide (a = b)) as [->|Hne].
  { by rewrite dataclass_eq_refl, bool_decide_eq_true_2. }
  rewrite bool_decide_eq_false_2 by done.
  destruct a as [x|], b as [y|]; [| |  |done].
  - destruct (H x y) as ([nx Hx] & [ny Hy] & Hk); [done|done|congruence|].
    unfold key_at in Hk. rewrite Hx, Hy in Hk.
    by rewrite (dataclass_eq_keys _ _ _ _ _ _ Hx Hy Hk).
  - by rewrite dataclass_eq_None_r.
  - by rewrite dataclass_eq_None_l.
Qed.

Lemma node_at_eq s x n : nodes s !! x = Some n → node_at x s = Some (n, s).
Proof. unfold node_at. by intros ->. Qed.

Lemma get_left_eq s x n : nodes s !! x = Some n → get_left x s = Some (left n, s).
Proof. intros H. unfold get_left. by rewrite (bind_eq _ _ _ _ _ (node_at_eq _ _ _ H)). Qed.
Lemma get_right_eq s x n : nodes s !! x = Some n → get_right x s = Some (right n, s).
Proof. intros H. unfold get_right. by rewrite (bind_eq _ _ _ _ _ (node_at_eq _ _ _ H)). Qed.
Lemma get_parent_eq s x n : nodes s !! x = Some n → get_parent x s = Some (parent n, s).
Proof. intros H. unfold get_parent. by rewrite (bind_eq _ _ _ _ _ (node_at_eq _ _ _ H)). Qed.
Lemma get_key_eq s x n : nodes s !! x = Some n → get_key x s = Some (key n, s).
Proof. intros H. unfold get_key. by rewrite (bind_eq _ _ _ _ _ (node_at_eq _ _ _ H)). Qed.
Lemma get_value_eq s x n : nodes s !! x = Some n → get_value x s = Some (value n, s).
Proof. intros H. unfold get_value. by rewrite (bind_eq _ _ _ _ _ (node_at_eq _ _ _ H)). Qed.

Lemma loop_fuel_eq s : loop_fuel s = Some (S (length (nodes s)), s).
Proof. done. Qed.
Lemma get_root_eq s : get_root s = Some (root s, s).
Proof. done. Qed.

Lemma modify_upd s x f n :
  nodes s !! x = Some n →
  modify x f s = Some (tt, {| nodes := upd (nodes s) x f; root := root s |}).
Proof. intros H. by rewrite modify_eq, H. Qed.

End rotations.

(** Lookups in updated stores, given the (in)equalities of the context. *)
Ltac store_lookup :=
  cbn [SplayTree.nodes SplayTree.root];
  repeat first
    [ rewrite lookup_upd
    | rewrite lookup_upd_opt
    | rewrite decide_True by congruence
    | rewrite decide_False by congruence ];
  repeat match goal with
         | H : ?h !! ?x = Some _ |- context [?h !! ?x] => rewrite H
         end;
  cbn [fmap option_fmap option_map].

Ltac solve_same_data :=
  repeat first
    [ apply same_data_refl
    | eapply same_data_trans;
      [|first [apply same_data_upd | apply same_data_upd_opt]; by intros []] ].

(** One step of a computation: the head of a [bind] is a read or a write
    of an attribute. *)
Ltac mread lem :=
  rewrite ?bind_assoc;
  erewrite bind_eq; [|apply lem; store_lookup; reflexivity];
  cbn [SplayTree.nodes SplayTree.root].
Ltac mwrite :=
  rewrite ?bind_assoc;
  erewrite bind_eq; [|eapply modify_upd; store_lookup; reflexivity];
  cbn [SplayTree.nodes SplayTree.root].

Section rotations_local.
Import SplayTree.
Local Open Scope splay_scope.
Local Open Scope nat_scope.
Implicit Types (h : list _Node) (s : SplayTree.t) (x y : loc) (n : _Node).

Lemma set_parent_opt s o v :
  (∀ b, o = Some b → is_Some (nodes s !! b)) →
  (match o with Some b => set_parent b v | None => ret tt end) s
    = Some (tt, {| nodes := upd_opt (nodes s) o (with_parent v); root := root s |}).
Proof.
  intros H. destruct o as [b|]; simpl.
  - destruct (H b eq_refl) as [nb Hb]. by apply (modify_upd _ _ _ nb).
  - by destruct s.
Qed.

Lemma right_rotate_local s x y nx ny :
  nodes s !! x = Some nx → left nx = Some y → nodes s !! y = Some ny →
  x ≠ y → right ny ≠ Some x → right ny ≠ Some y →
  parent nx ≠ Some x → parent nx ≠ Some y →
  (∀ b, right ny = Some b → is_Some (nodes s !! b) ∧ parent nx ≠ Some b) →
  (∀ p, parent nx = Some p →
     ∃ np, nodes s !! p = Some np ∧
       ∀ z, right np = Some z → z ≠ x →
            is_Some (nodes s !! z) ∧
            key_at (nodes s) x ≠ key_at (nodes s) z) →
  ∃ s', _right_rotate x s = Some (tt, s') ∧
    same_data (nodes s) (nodes s') ∧
    root s' = match parent nx with None => Some y | Some _ => root s end ∧
    nodes s' !! x = Some (with_parent (Some y) (with_left (right ny) nx)) ∧
    nodes s' !! y = Some (with_right (Some x) (with_parent (parent nx) ny)) ∧
    (∀ b nb, right ny = Some b → nodes s !! b = Some nb →
             nodes s' !! b = Some (with_parent (Some x) nb)) ∧
    (∀ p np, parent nx = Some p → nodes s !! p = Some np →
             nodes s' !! p =
               Some (if bool_decide (Some x = right np)
                     then with_right (Some y) np else with_left (Some y) np)) ∧
    (∀ a, a ≠ x → a ≠ y → right ny ≠ Some a → parent nx ≠ Some a →
          nodes s' !! a = nodes s !! a).
Proof.
  intros Hx Hl Hy Hxy Hbx Hby Hpx Hpy Hb Hp.
  unfold _right_rotate, set_left, set_right.
  mread get_left_eq. rewrite Hl.
  mread get_right_eq. mwrite.
  erewrite bind_eq;
    [|apply set_parent_opt; intros b Hb';
      apply is_Some_upd; by destruct (Hb b Hb')].
  cbn [nodes root].
  mread get_parent_eq. cbn [parent with_left].
  unfold set_parent at 1. mwrite.
  destruct (parent nx) as [p|] eqn:Hpar.
  - destruct (Hp p eq_refl) as (np & Hnp & Hz).
    assert (right ny ≠ Some p) as Hbp.
    { intros Hb'. by destruct (Hb p Hb') as [_ ?]. }
    mread get_right_eq. cbn [right with_parent].
    rewrite ?bind_assoc. erewrite bind_eq; cycle 1.
    { apply node_eq_decide. intros x' z [= <-] Hr Hne. cbn [nodes].
      rewrite !is_Some_upd, !is_Some_upd_opt, !is_Some_upd.
      rewrite !key_at_upd, !key_at_upd_opt, !key_at_upd by done.
      destruct (Hz z Hr) as [? ?]; [done|]. split_and!; [by eexists|done|done]. }
    destruct (bool_decide (Some x = right np)) eqn:Hc.
    + mwrite. mwrite. unfold set_parent. erewrite modify_upd; [|store_lookup; reflexivity].
      eexists. split; [reflexivity|]. cbn [nodes root].
      split_and!.
      * solve_same_data.
      * done.
      * by store_lookup.
      * by store_lookup.
      * intros b nb Hb1 Hb2. destruct (Hb b Hb1) as [_ ?].
        assert (b ≠ x) by congruence. assert (b ≠ y) by congruence.
        by store_lookup.
      * intros p' np' [= <-] Hnp'. rewrite Hnp in Hnp'. injection Hnp' as <-.
        rewrite Hc. by store_lookup.
      * intros a ? ? ? ?. by store_lookup.
    + mwrite. mwrite. unfold set_parent. erewrite modify_upd; [|store_lookup; reflexivity].
      eexists. split; [reflexivity|]. cbn [nodes root].
      split_and!.
      * solve_same_data.
      * done.
      * by store_lookup.
      * by store_lookup.
      * intros b nb Hb1 Hb2. destruct (Hb b Hb1) as [_ ?].
        assert (b ≠ x) by congruence. assert (b ≠ y) by congruence.
        by store_lookup.
      * intros p' np' [= <-] Hnp'. rewrite Hnp in Hnp'. injection Hnp' as <-.
        rewrite Hc. by store_lookup.
      * intros a ? ? ? ?. by store_lookup.
  - rewrite ?bind_assoc. erewrite bind_eq; [|reflexivity].
    mwrite. unfold set_parent. erewrite modify_upd; [|store_lookup; reflexivity].
    eexists. split; [reflexivity|]. cbn [nodes root].
    split_and!.
    + solve_same_data.
    + done.
    + by store_lookup.
    + by store_lookup.
    + intros b nb Hb1 Hb2.
      assert (b ≠ x) by congruence. assert (b ≠ y) by congruence.
      by store_lookup.
    + intros p' np' [=].
    + intros a ? ? ? ?. by store_lookup.
Qed.

Lemma left_rotate_local s x y nx ny :
  nodes s !! x = Some nx → right nx = Some y → nodes s !! y = Some ny →
  x ≠ y → left ny ≠ Some x → left ny ≠ Some y →
  parent nx ≠ Some x → parent nx ≠ Some y →
  (∀ b, left ny = Some b → is_Some (nodes s !! b) ∧ parent nx ≠ Some b) →
  (∀ p, parent nx = Some p →
     ∃ np, nodes s !! p = Some np ∧
       ∀ z, left np = Some z → z ≠ x →
            is_Some (nodes s !! z) ∧
            key_at (nodes s) x ≠ key_at (nodes s) z) →
  ∃ s', _left_rotate x s = Some (tt, s') ∧
    same_data (nodes s) (nodes s') ∧
    root s' = match parent nx with None => Some y | Some _ => root s end ∧
    nodes s' !! x = Some (with_parent (Some y) (with_right (left ny) nx)) ∧
    nodes s' !! y = Some (with_left (Some x) (with_parent (parent nx) ny)) ∧
    (∀ b nb, left ny = Some b → nodes s !! b = Some nb →
             nodes s' !! b = Some (with_parent (Some x) nb)) ∧
    (∀ p np, parent nx = Some p → nodes s !! p = Some np →
             nodes s' !! p =
               Some (if bool_decide (Some x = left np)
                     then with_left (Some y) np else with_right (Some y) np)) ∧
    (∀ a, a ≠ x → a ≠ y → left ny ≠ Some a → parent nx ≠ Some a →
          nodes s' !! a = nodes s !! a).
Proof.
  intros Hx Hl Hy Hxy Hbx Hby Hpx Hpy Hb Hp.
  unfold _left_rotate, set_right, set_left.
  mread get_right_eq. rewrite Hl.
  mread get_left_eq. mwrite.
  erewrite bind_eq;
    [|apply set_parent_opt; intros b Hb';
      apply is_Some_upd; by destruct (Hb b Hb')].
  cbn [nodes root].
  mread get_parent_eq. cbn [parent with_right].
  unfold set_parent at 1. mwrite.
  destruct (parent nx) as [p|] eqn:Hpar.
  - destruct (Hp p eq_refl) as (np & Hnp & Hz).
    assert (left ny ≠ Some p) as Hbp.
    { intros Hb'. by destruct (Hb p Hb') as [_ ?]. }
    mread get_left_eq. cbn [left with_parent].
    rewrite ?bind_assoc. erewrite bind_eq; cycle 1.
    { apply node_eq_decide. intros x' z [= <-] Hr Hne. cbn [nodes].
      rewrite !is_Some_upd, !is_Some_upd_opt, !is_Some_upd.
      rewrite !key_at_upd, !key_at_upd_opt, !key_at_upd by done.
      destruct (Hz z Hr) as [? ?]; [done|]. split_and!; [by eexists|done|done]. }
    destruct (bool_decide (Some x = left np)) eqn:Hc.
    + mwrite. mwrite. unfold set_parent. erewrite modify_upd; [|store_lookup; reflexivity].
      eexists. split; [reflexivity|]. cbn [nodes root].
      split_and!.
      * solve_same_data.
      * done.
      * by store_lookup.
      * by store_lookup.
      * intros b nb Hb1 Hb2. destruct (Hb b Hb1) as [_ ?].
        assert (b ≠ x) by congruence. assert (b ≠ y) by congruence.
        by store_lookup.
      * intros p' np' [= <-] Hnp'. rewrite Hnp in Hnp'. injection Hnp' as <-.
        rewrite Hc. by store_lookup.
      * intros a ? ? ? ?. by store_lookup.
    + mwrite. mwrite. unfold set_parent. erewrite modify_upd; [|store_lookup; reflexivity].
      eexists. split; [reflexivity|]. cbn [nodes root].
      split_and!.
      * solve_same_data.
      * done.
      * by store_lookup.
      * by store_lookup.
      * intros b nb Hb1 Hb2. destruct (Hb b Hb1) as [_ ?].
        assert (b ≠ x) by congruence. assert (b ≠ y) by congruence.
        by store_lookup.
      * intros p' np' [= <-] Hnp'. rewrite Hnp in Hnp'. injection Hnp' as <-.
        rewrite Hc. by store_lookup.
      * intros a ? ? ? ?. by store_lookup.
  - rewrite ?bind_assoc. erewrite bind_eq; [|reflexivity].
    mwrite. unfold set_parent. erewrite modify_upd; [|store_lookup; reflexivity].
    eexists. split; [reflexivity|]. cbn [nodes root].
    split_and!.
    + solve_same_data.
    + done.
    + by store_lookup.
    + by store_lookup.
    + intros b nb Hb1 Hb2.
      assert (b ≠ x) by congruence. assert (b ≠ y) by congruence.
      by store_lookup.
    + intros p' np' [=].
    + intros a ? ? ? ?. by store_lookup.
Qed.

End rotations_local.

(* ===================================================================== *)
(** * The splay tree: the shape of the store *)

Section shapes.
Import SplayTree.
Local Open Scope nat_scope.
Implicit Types (h : list _Node) (s : SplayTree.t) (t : shape) (c : list frame).

Lemma locs_plug c t : locs (plug c t) = ctx_left c ++ locs t ++ ctx_right c.
Proof.
  revert t. induction c as [|[p r|l p] c IH]; intros t; simpl.
  - by rewrite app_nil_r.
  - rewrite IH. simpl. by repeat (rewrite <- app_assoc; simpl).
  - rewrite IH. simpl. by repeat (rewrite <- app_assoc; simpl).
Qed.

Lemma top_plug_cons f c t t' : top (plug (f :: c) t) = top (plug (f :: c) t').
Proof.
  revert f t t'. induction c as [|f' c IH]; intros f t t'.
  - by destruct f.
  - apply (IH f').
Qed.

Lemma rep_plug h c t :
  rep h None (plug c t) ↔ rep_ctx h c (top t) ∧ rep h (ctx_top c) t.
Proof.
  revert t. induction c as [|f c IH]; intros t; simpl.
  - tauto.
  - rewrite IH. destruct f as [p r|l p]; simpl; split.
    + intros (Hc & n & Hn & Hl & Hr & Hp & Ht & Hr'). split; [|done].
      split; [|done]. exists n. done.
    + intros (((n & Hn & Hp & Hl & Hr & Hr') & Hc) & Ht). split; [done|].
      exists n. done.
    + intros (Hc & n & Hn & Hl & Hr & Hp & Hl' & Ht). split; [|done].
      split; [|done]. exists n. done.
    + intros (((n & Hn & Hp & Hl & Hr & Hl') & Hc) & Ht). split; [done|].
      exists n. done.
Qed.

Lemma rep_ext h h' par t :
  (∀ a, a ∈ locs t → h' !! a = h !! a) → rep h par t → rep h' par t.
Proof.
  revert par. induction t as [|l IHl x r IHr]; intros par Hext; simpl; [done|].
  intros (n & Hn & Hl & Hr & Hp & Hl' & Hr').
  exists n. split_and!; try done.
  - rewrite Hext; [done|]. apply elem_of_app. right. left.
  - apply IHl; [|done]. intros a Ha. apply Hext, elem_of_app. by left.
  - apply IHr; [|done]. intros a Ha. apply Hext, elem_of_app. right. by right.
Qed.

Lemma rep_lookup h par t a : rep h par t → a ∈ locs t → is_Some (h !! a).
Proof.
  revert par. induction t as [|l IHl x r IHr]; intros par; simpl.
  - intros _ Ha. by apply elem_of_nil in Ha.
  - intros (n & Hn & _ & _ & _ & Hl' & Hr').
    rewrite elem_of_app, elem_of_cons. intros [Ha|[->|Ha]]; eauto.
Qed.

Lemma top_elem_of t b : top t = Some b → b ∈ locs t.
Proof.
  destruct t as [|l x r]; simpl; [done|]. intros [= ->].
  apply elem_of_app. right. left.
Qed.

Lemma ctx_top_elem_of c p : ctx_top c = Some p → p ∈ ctx_left c ++ ctx_right c.
Proof.
  destruct c as [|[q r|l q] c]; simpl; [done| |]; intros [= ->].
  - apply elem_of_app. right. left.
  - rewrite !elem_of_app. left. right. right. left.
Qed.

Lemma rep_reparent h h' par par' l x r :
  rep h par (SNode l x r) →
  (∀ a, a ∈ locs l → h' !! a = h !! a) →
  (∀ a, a ∈ locs r → h' !! a = h !! a) →
  (∀ n, h !! x = Some n → h' !! x = Some (with_parent par' n)) →
  rep h' par' (SNode l x r).
Proof.
  simpl. intros (n & Hn & Hl & Hr & Hp & Hl' & Hr') El Er Ex.
  exists (with_parent par' n). split_and!; try done.
  - by apply Ex.
  - by apply (rep_ext h).
  - by apply (rep_ext h).
Qed.

Lemma rep_ctx_ext h h' c hole :
  (∀ a, a ∈ ctx_left c ++ ctx_right c → h' !! a = h !! a) →
  rep_ctx h c hole → rep_ctx h' c hole.
Proof.
  revert hole. induction c as [|f c IH]; intros hole Hext; [done|].
  cbn [rep_ctx]. intros [(n & Hn & Hp & Hf) Hc]. split.
  - exists n. split_and!; [|done|].
    + rewrite Hext; [done|]. by apply (ctx_top_elem_of (f :: c)).
    + destruct f as [p r|l p]; destruct Hf as (? & ? & Hr);
        split_and!; try done; apply (rep_ext h); try done;
        intros a Ha; apply Hext; simpl; set_solver.
  - apply IH; [|done]. intros a Ha. apply Hext.
    destruct f as [p r|l p]; simpl; set_solver.
Qed.

(** The innermost frame gets a new child; nothing else changes. *)
Lemma rep_ctx_rehole h h' f c hole hole' :
  NoDup (ctx_left (f :: c) ++ ctx_right (f :: c)) →
  rep_ctx h (f :: c) hole →
  (∀ a, a ∈ ctx_left (f :: c) ++ ctx_right (f :: c) → a ≠ frame_loc f →
        h' !! a = h !! a) →
  (∀ n, h !! frame_loc f = Some n →
        h' !! frame_loc f =
          Some (match f with
                | InLeft _ _ => with_left hole' n
                | InRight _ _ => with_right hole' n
                end)) →
  rep_ctx h' (f :: c) hole'.
Proof.
  intros Hnd [(n & Hn & Hp & Hf) Hc] Hext Hf'. cbn [rep_ctx]. split.
  - eexists. split; [by apply Hf'|].
    destruct f as [p r|l p]; simpl in *; destruct Hf as (? & ? & Hr);
      split_and!; try done; apply (rep_ext h); try done;
      intros a Ha; apply Hext; [set_solver| |set_solver|].
    + intros ->. apply NoDup_app in Hnd as (_ & _ & Hnd).
      apply NoDup_cons in Hnd as [Hnd _]. set_solver.
    + intros ->. apply NoDup_app in Hnd as (Hnd & _ & _).
      apply NoDup_app in Hnd as (_ & _ & Hnd).
      apply NoDup_app in Hnd as (_ & Hnd & _). set_solver.
  - apply (rep_ctx_ext h); [|done]. intros a Ha. apply Hext.
    + destruct f as [p r|l p]; simpl; set_solver.
    + intros ->. destruct f as [p r|l p]; simpl in *.
      * apply NoDup_app in Hnd as (_ & Hnd1 & Hnd2).
        apply NoDup_cons in Hnd2 as [Hnd2 _]. set_solver.
      * apply NoDup_app in Hnd as (Hnd1 & Hnd2 & _).
        apply NoDup_app in Hnd1 as (_ & Hnd1 & Hnd3).
        apply NoDup_app in Hnd3 as (_ & Hnd3 & _). set_solver.
Qed.

End shapes.

Ltac split_nodup :=
  repeat match goal with
         | H : NoDup (_ ++ _) |- _ => apply NoDup_app in H as (? & ? & ?)
         | H : NoDup (_ :: _) |- _ => apply NoDup_cons in H as (? & ?)
         end.

(** Membership in a concatenation, by search. *)
Ltac in_search :=
  first
    [ assumption
    | apply list_elem_of_here
    | apply elem_of_app; first [left; in_search | right; in_search]
    | apply elem_of_cons; first [left; reflexivity | right; in_search] ].

Ltac split_elem_of :=
  repeat match goal with
         | H : _ ∈ _ ++ _ |- _ => apply elem_of_app in H as [H|H]
         | H : _ ∈ _ :: _ |- _ => apply elem_of_cons in H as [H|H]; [subst|]
         | H : _ ∈ [] |- _ => by apply elem_of_nil in H
         end.

(** Distinctness of locations from the [NoDup] facts of the context: the
    goal is absurd because some location lies in two disjoint segments. *)
Ltac nd :=
  exfalso; cbn [locs ctx_left ctx_right] in *; split_nodup; split_elem_of;
  match goal with
  | Hd : ∀ a, a ∈ _ → a ∉ _, H1 : ?a ∈ _ |- _ => apply (Hd a); in_search
  | Hd : ?a ∉ _ |- _ => apply Hd; in_search
  | Hd : ∀ a, a ∈ _ → a ∉ _, a : nat |- _ => apply (Hd a); in_search
  end.

Section rotation_specs.
Import SplayTree.
Local Open Scope nat_scope.
Implicit Types (h : list _Node) (s : SplayTree.t) (t : shape) (c : list frame).

Lemma tree_inv_NoDup s t : tree_inv s t → NoDup (locs t).
Proof. intros (_ & _ & _ & H). by apply NoDup_fmap_1 in H. Qed.

Lemma key_at_inj s t a b :
  tree_inv s t → a ∈ locs t → b ∈ locs t →
  key_at (nodes s) a = key_at (nodes s) b → a = b.
Proof.
  intros (_ & _ & _ & Hnd) Ha Hb Hk.
  apply list_elem_of_lookup in Ha as [i Hi], Hb as [j Hj].
  assert (i = j) as ->; [|congruence].
  apply (NoDup_lookup _ _ _ (key_at (nodes s) a) Hnd).
  - by rewrite list_lookup_fmap, Hi.
  - by rewrite list_lookup_fmap, Hj, Hk.
Qed.

(** Moving data-preserving changes of the store under [tree_inv]. *)
Lemma tree_inv_intro s s' t t' :
  tree_inv s t → same_data (nodes s) (nodes s') → locs t' = locs t →
  root s' = top t' → rep (nodes s') None t' → tree_inv s' t'.
Proof.
  intros (_ & _ & Hlen & Hnd) Hsd Hlocs Hroot Hrep.
  split_and!; [done|done| |].
  - rewrite Hlocs. destruct Hsd. congruence.
  - rewrite Hlocs. erewrite list_fmap_ext; [exact Hnd|].
    intros i a _. by apply same_data_key_at.
Qed.

Lemma right_rotate_spec s c A y B x D :
  tree_inv s (plug c (SNode (SNode A y B) x D)) →
  ∃ s', _right_rotate x s = Some (tt, s') ∧
    tree_inv s' (plug c (SNode A y (SNode B x D))) ∧
    same_data (nodes s) (nodes s').
Proof.
  intros Hinv. pose proof (tree_inv_NoDup _ _ Hinv) as Hnd.
  pose proof (λ a b, key_at_inj _ _ a b Hinv) as Hinj.
  pose proof Hinv as (Hroot & Hrep & Hlen & Hkeys).
  rewrite locs_plug in Hnd, Hinj. simpl in Hnd, Hinj.
  apply rep_plug in Hrep as [Hctx Hrep]. simpl in Hrep.
  destruct Hrep as (nx & Hx & Hxl & Hxr & Hxp & Hrepy & HD).
  destruct Hrepy as (ny & Hy & Hyl & Hyr & Hyp & HA & HB).
  assert (x ≠ y) as Hxy by (intros ->; nd).
  destruct (right_rotate_local s x y nx ny) as
    (s' & Hrun & Hsd & Hroot' & Hx' & Hy' & Hb' & Hp' & Hother); try done.
  { rewrite Hyr. intros ?%top_elem_of. nd. }
  { rewrite Hyr. intros ?%top_elem_of. nd. }
  { rewrite Hxp. intros ?%ctx_top_elem_of. nd. }
  { rewrite Hxp. intros ?%ctx_top_elem_of. nd. }
  { intros b Hb. rewrite Hyr in Hb. apply top_elem_of in Hb. split.
    - by apply (rep_lookup _ _ _ _ HB).
    - rewrite Hxp. intros ?%ctx_top_elem_of. nd. }
  { intros p Hp. rewrite Hxp in Hp. destruct c as [|f c]; [done|].
    simpl in Hp. injection Hp as <-.
    destruct Hctx as [(np & Hnp & Hpp & Hf) Hc]. exists np. split; [done|].
    intros z Hz Hzx. destruct f as [q r|l q]; simpl in *.
    - destruct Hf as (_ & Hr & Hrr). rewrite Hr in Hz.
      apply top_elem_of in Hz. split; [by apply (rep_lookup _ _ _ _ Hrr)|].
      intros Hk. apply Hzx. symmetry. apply Hinj; [in_search|in_search|done].
    - destruct Hf as (_ & Hr & _). congruence. }
  exists s'. split; [done|]. split; [|done].
  apply (tree_inv_intro _ _ _ _ Hinv Hsd).
  - rewrite !locs_plug. simpl. by repeat (rewrite <- app_assoc; simpl).
  - rewrite Hroot', Hxp. destruct c as [|f c]; simpl; [done|].
    rewrite Hroot. apply (top_plug_cons f c).
  - apply rep_plug. split.
    + destruct c as [|f c]; [done|].
      eapply rep_ctx_rehole; [|exact Hctx| |].
      * split_nodup. apply NoDup_app. split_and!; [done| |done].
        intros a Ha Ha'. nd.
      * intros a Ha Haf. apply Hother.
        -- intros ->. nd.
        -- intros ->. nd.
        -- rewrite Hyr. intros ?%top_elem_of. nd.
        -- rewrite Hxp. simpl. congruence.
      * intros n Hn. rewrite (Hp' _ _ Hxp Hn).
        destruct Hctx as [(np & Hnp & Hpp & Hf) Hc].
        rewrite Hn in Hnp. injection Hnp as <-.
        destruct f as [q r|l q]; simpl in *.
        -- destruct Hf as (_ & Hr & _). rewrite bool_decide_eq_false_2; [done|].
           rewrite Hr. intros ?%eq_sym%top_elem_of. nd.
        -- destruct Hf as (_ & Hr & _). by rewrite bool_decide_eq_true_2.
    + simpl. eexists. split; [exact Hy'|]. simpl.
      split_and!; [done|done|done| |].
      * apply (rep_ext (nodes s)); [|done]. intros a Ha. apply Hother.
        -- intros ->. nd.
        -- intros ->. nd.
        -- rewrite Hyr. intros ?%top_elem_of. nd.
        -- rewrite Hxp. intros ?%ctx_top_elem_of. nd.
      * eexists. split; [exact Hx'|]. simpl.
        split_and!; [done|done|done| |].
        -- destruct B as [|Bl b Br]; [done|].
           eapply rep_reparent; [exact HB| | |].
           ++ intros a Ha. apply Hother.
              ** intros ->. nd.
              ** intros ->. nd.
              ** rewrite Hyr. simpl. intros [= ->]. nd.
              ** rewrite Hxp. intros ?%ctx_top_elem_of. nd.
           ++ intros a Ha. apply Hother.
              ** intros ->. nd.
              ** intros ->. nd.
              ** rewrite Hyr. simpl. intros [= ->]. nd.
              ** rewrite Hxp. intros ?%ctx_top_elem_of. nd.
           ++ intros n Hn. by apply Hb'.
        -- apply (rep_ext (nodes s)); [|done]. intros a Ha. apply Hother.
           ++ intros ->. nd.
           ++ intros ->. nd.
           ++ rewrite Hyr. intros ?%top_elem_of. nd.
           ++ rewrite Hxp. intros ?%ctx_top_elem_of. nd.
Qed.

Lemma left_rotate_spec s c A x B y D :
  tree_inv s (plug c (SNode A x (SNode B y D))) →
  ∃ s', _left_rotate x s = Some (tt, s') ∧
    tree_inv s' (plug c (SNode (SNode A x B) y D)) ∧
    same_data (nodes s) (nodes s').
Proof.
  intros Hinv. pose proof (tree_inv_NoDup _ _ Hinv) as Hnd.
  pose proof (λ a b, key_at_inj _ _ a b Hinv) as Hinj.
  pose proof Hinv as (Hroot & Hrep & Hlen & Hkeys).
  rewrite locs_plug in Hnd, Hinj. simpl in Hnd, Hinj.
  apply rep_plug in Hrep as [Hctx Hrep]. simpl in Hrep.
  destruct Hrep as (nx & Hx & Hxl & Hxr & Hxp & HA & Hrepy).
  destruct Hrepy as (ny & Hy & Hyl & Hyr & Hyp & HB & HD).
  assert (x ≠ y) as Hxy by (intros ->; nd).
  destruct (left_rotate_local s x y nx ny) as
    (s' & Hrun & Hsd & Hroot' & Hx' & Hy' & Hb' & Hp' & Hother); try done.
  { rewrite Hyl. intros ?%top_elem_of. nd. }
  { rewrite Hyl. intros ?%top_elem_of. nd. }
  { rewrite Hxp. intros ?%ctx_top_elem_of. nd. }
  { rewrite Hxp. intros ?%ctx_top_elem_of. nd. }
  { intros b Hb. rewrite Hyl in Hb. apply top_elem_of in Hb. split.
    - by apply (rep_lookup _ _ _ _ HB).
    - rewrite Hxp. intros ?%ctx_top_elem_of. nd. }
  { intros p Hp. rewrite Hxp in Hp. destruct c as [|f c]; [done|].
    simpl in Hp. injection Hp as <-.
    destruct Hctx as [(np & Hnp & Hpp & Hf) Hc]. exists np. split; [done|].
    intros z Hz Hzx. destruct f as [q r|l q]; simpl in *.
    - destruct Hf as (Hl & _ & _). congruence.
    - destruct Hf as (Hl & _ & Hll). rewrite Hl in Hz.
      apply top_elem_of in Hz. split; [by apply (rep_lookup _ _ _ _ Hll)|].
      intros Hk. apply Hzx. symmetry. apply Hinj; [in_search|in_search|done]. }
  exists s'. split; [done|]. split; [|done].
  apply (tree_inv_intro _ _ _ _ Hinv Hsd).
  - rewrite !locs_plug. simpl. by repeat (rewrite <- app_assoc; simpl).
  - rewrite Hroot', Hxp. destruct c as [|f c]; simpl; [done|].
    rewrite Hroot. apply (top_plug_cons f c).
  - apply rep_plug. split.
    + destruct c as [|f c]; [done|].
      eapply rep_ctx_rehole; [|exact Hctx| |].
      * split_nodup. apply NoDup_app. split_and!; [done| |done].
        intros a Ha Ha'. nd.
      * intros a Ha Haf. apply Hother.
        -- intros ->. nd.
        -- intros ->. nd.
        -- rewrite Hyl. intros ?%top_elem_of. nd.
        -- rewrite Hxp. simpl. congruence.
      * intros n Hn. rewrite (Hp' _ _ Hxp Hn).
        destruct Hctx as [(np & Hnp & Hpp & Hf) Hc].
        rewrite Hn in Hnp. injection Hnp as <-.
        destruct f as [q r|l q]; simpl in *.
        -- destruct Hf as (Hl & _ & _). by rewrite bool_decide_eq_true_2.
        -- destruct Hf as (Hl & _ & _). rewrite bool_decide_eq_false_2; [done|].
           rewrite Hl. intros ?%eq_sym%top_elem_of. nd.
    + simpl. eexists. split; [exact Hy'|]. simpl.
      split_and!; [done|done|done| |].
      * eexists. split; [exact Hx'|]. simpl.
        split_and!; [done|done|done| |].
        -- apply (rep_ext (nodes s)); [|done]. intros a Ha. apply Hother.
           ++ intros ->. nd.
           ++ intros ->. nd.
           ++ rewrite Hyl. intros ?%top_elem_of. nd.
           ++ rewrite Hxp. intros ?%ctx_top_elem_of. nd.
        -- destruct B as [|Bl b Br]; [done|].
           eapply rep_reparent; [exact HB| | |].
           ++ intros a Ha. apply Hother.
              ** intros ->. nd.
              ** intros ->. nd.
              ** rewrite Hyl. simpl. intros [= ->]. nd.
              ** rewrite Hxp. intros ?%ctx_top_elem_of. nd.
           ++ intros a Ha. apply Hother.
              ** intros ->. nd.
              ** intros ->. nd.
              ** rewrite Hyl. simpl. intros [= ->]. nd.
              ** rewrite Hxp. intros ?%ctx_top_elem_of. nd.
           ++ intros n Hn. by apply Hb'.
      * apply (rep_ext (nodes s)); [|done]. intros a Ha. apply Hother.
        -- intros ->. nd.
        -- intros ->. nd.
        -- rewrite Hyl. intros ?%top_elem_of. nd.
        -- rewrite Hxp. intros ?%ctx_top_elem_of. nd.
Qed.

End rotation_specs.

Section splay_specs.
Import SplayTree.
Local Open Scope splay_scope.
Local Open Scope nat_scope.
Implicit Types (h : list _Node) (s : SplayTree.t) (t : shape) (c : list frame).

Lemma focus_node s c l x r :
  tree_inv s (plug c (SNode l x r)) →
  ∃ n, nodes s !! x = Some n ∧ left n = top l ∧ right n = top r ∧
       parent n = ctx_top c.
Proof.
  intros (_ & Hrep & _). apply rep_plug in Hrep as [_ Hrep]. simpl in Hrep.
  destruct Hrep as (n & ? & ? & ? & ? & _). by exists n.
Qed.

Lemma focus_frame s f c t :
  tree_inv s (plug (f :: c) t) →
  ∃ n, nodes s !! frame_loc f = Some n ∧ parent n = ctx_top c ∧
       left n = match f with InLeft _ _ => top t | InRight l _ => top l end ∧
       right n = match f with InLeft _ r => top r | InRight _ _ => top t end.
Proof.
  intros Hinv. change (plug (f :: c) t) with (plug c (fill f t)) in Hinv.
  destruct f as [p r|l p]; simpl in *;
    destruct (focus_node _ _ _ _ _ Hinv) as (n & ? & ? & ? & ?); by exists n.
Qed.

Lemma node_eq_tree s t a b :
  tree_inv s t →
  (∀ x, a = Some x → x ∈ locs t) → (∀ y, b = Some y → y ∈ locs t) →
  node_eq a b s = Some (bool_decide (a = b), s).
Proof.
  intros Hinv Ha Hb. apply node_eq_decide. intros x y -> -> Hne.
  specialize (Ha x eq_refl). specialize (Hb y eq_refl).
  pose proof Hinv as (_ & Hrep & _).
  split_and!; [by eapply rep_lookup|by eapply rep_lookup|].
  intros Hk. apply Hne. by eapply key_at_inj.
Qed.

Lemma locs_focus c l x r : x ∈ locs (plug c (SNode l x r)).
Proof. rewrite locs_plug. simpl. in_search. Qed.

Lemma locs_frame f c t : frame_loc f ∈ locs (plug (f :: c) t).
Proof.
  change (plug (f :: c) t) with (plug c (fill f t)).
  destruct f; simpl; apply locs_focus.
Qed.

Lemma locs_in_subtree c t a : a ∈ locs t → a ∈ locs (plug c t).
Proof. intros. rewrite locs_plug. in_search. Qed.

Lemma the_parent_eq s f c l x r :
  tree_inv s (plug (f :: c) (SNode l x r)) →
  the_parent x s = Some (frame_loc f, s).
Proof.
  intros Hinv. destruct (focus_node _ _ _ _ _ Hinv) as (n & Hn & _ & _ & Hp).
  unfold the_parent. mread get_parent_eq. by rewrite Hp.
Qed.

Lemma the_grandparent_eq s f g c l x r :
  tree_inv s (plug (f :: g :: c) (SNode l x r)) →
  the_grandparent x s = Some (frame_loc g, s).
Proof.
  intros Hinv. unfold the_grandparent.
  erewrite bind_eq; [|by eapply the_parent_eq].
  destruct (focus_frame _ _ _ _ Hinv) as (n & Hn & Hp & _).
  unfold the_parent. mread get_parent_eq. by rewrite Hp.
Qed.

Lemma is_left_child_eq s f c l x r :
  tree_inv s (plug (f :: c) (SNode l x r)) →
  is_left_child x s
    = Some (match f with InLeft _ _ => true | InRight _ _ => false end, s).
Proof.
  intros Hinv. unfold is_left_child.
  erewrite bind_eq; [|by eapply the_parent_eq].
  destruct (focus_frame _ _ _ _ Hinv) as (n & Hn & _ & Hl & _).
  mread get_left_eq. rewrite Hl.
  pose proof (tree_inv_NoDup _ _ Hinv) as Hnd.
  rewrite locs_plug in Hnd.
  erewrite node_eq_tree; [|exact Hinv| |].
  - f_equal. f_equal. destruct f as [p pr|pl p]; simpl.
    + by rewrite bool_decide_eq_true_2.
    + rewrite bool_decide_eq_false_2; [done|].
      intros Ht%top_elem_of. simpl in Hnd. nd.
  - intros a Ha. destruct f as [p pr|pl p]; simpl in Ha.
    + injection Ha as <-. apply locs_focus.
    + apply top_elem_of in Ha. rewrite locs_plug. simpl. in_search.
  - intros a [= <-]. apply locs_focus.
Qed.

Lemma is_right_child_eq s f c l x r :
  tree_inv s (plug (f :: c) (SNode l x r)) →
  is_right_child x s
    = Some (match f with InLeft _ _ => false | InRight _ _ => true end, s).
Proof.
  intros Hinv. unfold is_right_child.
  erewrite bind_eq; [|by eapply the_parent_eq].
  destruct (focus_frame _ _ _ _ Hinv) as (n & Hn & _ & _ & Hr).
  mread get_right_eq. rewrite Hr.
  pose proof (tree_inv_NoDup _ _ Hinv) as Hnd.
  rewrite locs_plug in Hnd.
  erewrite node_eq_tree; [|exact Hinv| |].
  - f_equal. f_equal. destruct f as [p pr|pl p]; simpl.
    + rewrite bool_decide_eq_false_2; [done|].
      intros Ht%top_elem_of. simpl in Hnd. nd.
    + by rewrite bool_decide_eq_true_2.
  - intros a Ha. destruct f as [p pr|pl p]; simpl in Ha.
    + apply top_elem_of in Ha. rewrite locs_plug. simpl. in_search.
    + injection Ha as <-. apply locs_focus.
  - intros a [= <-]. apply locs_focus.
Qed.

Lemma top_fill f t : top (fill f t) = Some (frame_loc f).
Proof. by destruct f. Qed.

Lemma parent_is_left_child_eq s f g c l x r :
  tree_inv s (plug (f :: g :: c) (SNode l x r)) →
  parent_is_left_child x s
    = Some (match g with InLeft _ _ => true | InRight _ _ => false end, s).
Proof.
  intros Hinv. unfold parent_is_left_child.
  erewrite bind_eq; [|by eapply the_grandparent_eq].
  destruct (focus_node _ _ _ _ _ Hinv) as (n & Hn & _ & _ & Hp).
  change (plug (f :: g :: c) (SNode l x r))
    with (plug (g :: c) (fill f (SNode l x r))) in Hinv.
  destruct (focus_frame _ _ _ _ Hinv) as (ng & Hng & _ & Hl & _).
  mread get_left_eq. mread get_parent_eq. rewrite Hl, Hp. simpl.
  pose proof (tree_inv_NoDup _ _ Hinv) as Hnd.
  rewrite locs_plug in Hnd.
  erewrite node_eq_tree; [|exact Hinv| |].
  - f_equal. f_equal. destruct g as [q gr|gl q]; simpl.
    + by rewrite top_fill, bool_decide_eq_true_2.
    + rewrite bool_decide_eq_false_2; [done|].
      intros Ht%top_elem_of. destruct f; simpl in Hnd; nd.
  - intros a Ha. destruct g as [q gr|gl q]; simpl in Ha.
    + rewrite top_fill in Ha. injection Ha as <-.
      apply locs_in_subtree. destruct f; simpl; in_search.
    + apply top_elem_of in Ha. rewrite locs_plug. simpl. in_search.
  - intros a [= <-]. apply locs_in_subtree. destruct f; simpl; in_search.
Qed.

Lemma parent_is_right_child_eq s f g c l x r :
  tree_inv s (plug (f :: g :: c) (SNode l x r)) →
  parent_is_right_child x s
    = Some (match g with InLeft _ _ => false | InRight _ _ => true end, s).
Proof.
  intros Hinv. unfold parent_is_right_child.
  erewrite bind_eq; [|by eapply the_grandparent_eq].
  destruct (focus_node _ _ _ _ _ Hinv) as (n & Hn & _ & _ & Hp).
  change (plug (f :: g :: c) (SNode l x r))
    with (plug (g :: c) (fill f (SNode l x r))) in Hinv.
  destruct (focus_frame _ _ _ _ Hinv) as (ng & Hng & _ & _ & Hr).
  mread get_right_eq. mread get_parent_eq. rewrite Hr, Hp. simpl.
  pose proof (tree_inv_NoDup _ _ Hinv) as Hnd.
  rewrite locs_plug in Hnd.
  erewrite node_eq_tree; [|exact Hinv| |].
  - f_equal. f_equal. destruct g as [q gr|gl q]; simpl.
    + rewrite bool_decide_eq_false_2; [done|].
      intros Ht%top_elem_of. destruct f; simpl in Hnd; nd.
    + by rewrite top_fill, bool_decide_eq_true_2.
  - intros a Ha. destruct g as [q gr|gl q]; simpl in Ha.
    + apply top_elem_of in Ha. rewrite locs_plug. simpl. in_search.
    + rewrite top_fill in Ha. injection Ha as <-.
      apply locs_in_subtree. destruct f; simpl; in_search.
  - intros a [= <-]. apply locs_in_subtree. destruct f; simpl; in_search.
Qed.

Lemma and_then_eq (a b : M bool) s ra rb :
  a s = Some (ra, s) → b s = Some (rb, s) →
  and_then a b s = Some (ra && rb, s).
Proof.
  intros Ha Hb. unfold and_then. rewrite (bind_eq _ _ _ _ _ Ha).
  destruct ra; [done|]. done.
Qed.

(** One iteration of the loop of [_splay]: the node moves one or two
    levels up, as [splayed] says. *)
Lemma splay_step_spec s f c l x r :
  tree_inv s (plug (f :: c) (SNode l x r)) →
  ∃ s' c' l' r',
    _splay_step x s = Some (tt, s') ∧
    tree_inv s' (plug c' (SNode l' x r')) ∧
    same_data (nodes s) (nodes s') ∧
    length c' < length (f :: c) ∧
    splayed c' l' x r' = splayed (f :: c) l x r.
Proof.
  intros Hinv. unfold _splay_step.
  erewrite bind_eq; [|by eapply the_parent_eq].
  destruct (focus_frame _ _ _ _ Hinv) as (np & Hnp & Hpp & _).
  mread get_parent_eq. rewrite Hpp.
  destruct c as [|g c]; cbn [ctx_top].
  - (* zig *)
    erewrite bind_eq; [|by eapply is_left_child_eq].
    destruct f as [p pr|pl p]; cbn [frame_loc].
    + erewrite bind_eq; [|by eapply the_parent_eq]. cbn [frame_loc].
      destruct (right_rotate_spec s [] l x r p pr Hinv) as (s' & Hr & Hi & Hd).
      exists s', [], l, (SNode r p pr). split_and!; try done. simpl. lia.
    + erewrite bind_eq; [|by eapply the_parent_eq]. cbn [frame_loc].
      destruct (left_rotate_spec s [] pl p l x r Hinv) as (s' & Hr & Hi & Hd).
      exists s', [], (SNode pl p l), r. split_and!; try done. simpl. lia.
  - erewrite bind_eq;
      [|apply and_then_eq;
        [by eapply is_left_child_eq | by eapply parent_is_left_child_eq]].
    destruct f as [p pr|pl p], g as [q gr|gl q]; cbn [andb].
    + (* zig-zig, left-left *)
      erewrite bind_eq; [|by eapply the_grandparent_eq]. cbn [frame_loc].
      destruct (right_rotate_spec s c (SNode l x r) p pr q gr Hinv)
        as (s1 & Hr1 & Hi1 & Hd1).
      rewrite ?bind_assoc. erewrite bind_eq; [|exact Hr1].
      change (plug c (SNode (SNode l x r) p (SNode pr q gr)))
        with (plug (InLeft p (SNode pr q gr) :: c) (SNode l x r)) in Hi1.
      erewrite bind_eq; [|by eapply the_parent_eq]. cbn [frame_loc].
      destruct (right_rotate_spec s1 c l x r p (SNode pr q gr) Hi1)
        as (s2 & Hr2 & Hi2 & Hd2).
      exists s2, c, l, (SNode r p (SNode pr q gr)).
      split_and!; [done|done|by eapply same_data_trans|simpl; lia|done].
    + (* zig-zag: left child of a right child *)
      erewrite bind_eq;
        [|apply and_then_eq;
          [by eapply is_right_child_eq | by eapply parent_is_right_child_eq]].
      cbn [andb].
      erewrite bind_eq;
        [|apply and_then_eq;
          [by eapply is_left_child_eq | by eapply parent_is_right_child_eq]].
      cbn [andb].
      erewrite bind_eq; [|by eapply the_parent_eq]. cbn [frame_loc].
      destruct (right_rotate_spec s (InRight gl q :: c) l x r p pr Hinv)
        as (s1 & Hr1 & Hi1 & Hd1).
      rewrite ?bind_assoc. erewrite bind_eq; [|exact Hr1].
      change (plug (InRight gl q :: c) (SNode l x (SNode r p pr)))
        with (plug (InRight gl q :: c) (SNode l x (SNode r p pr))) in Hi1.
      erewrite bind_eq; [|by eapply the_parent_eq]. cbn [frame_loc].
      destruct (left_rotate_spec s1 c gl q l x (SNode r p pr) Hi1)
        as (s2 & Hr2 & Hi2 & Hd2).
      exists s2, c, (SNode gl q l), (SNode r p pr).
      split_and!; [done|done|by eapply same_data_trans|simpl; lia|done].
    + (* zig-zag: right child of a left child *)
      erewrite bind_eq;
        [|apply and_then_eq;
          [by eapply is_right_child_eq | by eapply parent_is_right_child_eq]].
      cbn [andb].
      erewrite bind_eq;
        [|apply and_then_eq;
          [by eapply is_left_child_eq | by eapply parent_is_right_child_eq]].
      cbn [andb].
      erewrite bind_eq; [|by eapply the_parent_eq]. cbn [frame_loc].
      destruct (left_rotate_spec s (InLeft q gr :: c) pl p l x r Hinv)
        as (s1 & Hr1 & Hi1 & Hd1).
      rewrite ?bind_assoc. erewrite bind_eq; [|exact Hr1].
      erewrite bind_eq; [|by eapply the_parent_eq]. cbn [frame_loc].
      destruct (right_rotate_spec s1 c (SNode pl p l) x r q gr Hi1)
        as (s2 & Hr2 & Hi2 & Hd2).
      exists s2, c, (SNode pl p l), (SNode r q gr).
      split_and!; [done|done|by eapply same_data_trans|simpl; lia|done].
    + (* zig-zig, right-right *)
      erewrite bind_eq;
        [|apply and_then_eq;
          [by eapply is_right_child_eq | by eapply parent_is_right_child_eq]].
      cbn [andb].
      erewrite bind_eq; [|by eapply the_grandparent_eq]. cbn [frame_loc].
      destruct (left_rotate_spec s c gl q pl p (SNode l x r) Hinv)
        as (s1 & Hr1 & Hi1 & Hd1).
      rewrite ?bind_assoc. erewrite bind_eq; [|exact Hr1].
      change (plug c (SNode (SNode gl q pl) p (SNode l x r)))
        with (plug (InRight (SNode gl q pl) p :: c) (SNode l x r)) in Hi1.
      erewrite bind_eq; [|by eapply the_parent_eq]. cbn [frame_loc].
      destruct (left_rotate_spec s1 c (SNode gl q pl) p l x r Hi1)
        as (s2 & Hr2 & Hi2 & Hd2).
      exists s2, c, (SNode (SNode gl q pl) p l), r.
      split_and!; [done|done|by eapply same_data_trans|simpl; lia|done].
Qed.

(** [splayed] keeps the in-order sequence and puts [x] at the root. *)
Lemma splayed_locs_top c l x r :
  locs (splayed c l x r) = locs (plug c (SNode l x r)) ∧
  top (splayed c l x r) = Some x.
Proof.
  remember (length c) as n eqn:Hn. revert c l r Hn.
  induction (lt_wf n) as [n _ IH]. intros c l r ->.
  assert (∀ c' l' r',
            length c' < length c →
            locs (splayed c' l' x r') = locs (plug c' (SNode l' x r')) ∧
            top (splayed c' l' x r') = Some x) as IH'.
  { intros c' l' r' Hlt. by apply (IH (length c')). }
  clear IH.
  destruct c as [|[p pr|pl p] [|[g gr|gl g] c]]; cbn [splayed].
  - done.
  - split; [|done]. simpl. by repeat (rewrite <- app_assoc; simpl).
  - destruct (IH' c l (SNode r p (SNode pr g gr))) as [-> ->]; [simpl; lia|].
    split; [|done]. rewrite !locs_plug. simpl.
    by repeat (rewrite <- app_assoc; simpl).
  - destruct (IH' c (SNode gl g l) (SNode r p pr)) as [-> ->]; [simpl; lia|].
    split; [|done]. rewrite !locs_plug. simpl.
    by repeat (rewrite <- app_assoc; simpl).
  - split; [|done]. simpl. by repeat (rewrite <- app_assoc; simpl).
  - destruct (IH' c (SNode pl p l) (SNode r g gr)) as [-> ->]; [simpl; lia|].
    split; [|done]. rewrite !locs_plug. simpl.
    by repeat (rewrite <- app_assoc; simpl).
  - destruct (IH' c (SNode (SNode gl g pl) p l) r) as [-> ->]; [simpl; lia|].
    split; [|done]. rewrite !locs_plug. simpl.
    by repeat (rewrite <- app_assoc; simpl).
Qed.

Lemma splay_loop_spec fuel s c l x r :
  tree_inv s (plug c (SNode l x r)) → length c < fuel →
  ∃ s', _splay_loop fuel x s = Some (tt, s') ∧
    tree_inv s' (splayed c l x r) ∧ same_data (nodes s) (nodes s').
Proof.
  revert s c l r. induction fuel as [|fuel IH]; intros s c l r Hinv Hlt; [lia|].
  cbn [_splay_loop].
  destruct (focus_node _ _ _ _ _ Hinv) as (n & Hn & _ & _ & Hp).
  mread get_parent_eq. rewrite Hp.
  destruct c as [|f c]; cbn [ctx_top].
  - exists s. split_and!; [done|done|apply same_data_refl].
  - destruct (splay_step_spec _ _ _ _ _ _ Hinv)
      as (s1 & c' & l' & r' & Hstep & Hinv1 & Hd1 & Hlen & <-).
    rewrite ?bind_assoc. erewrite bind_eq; [|exact Hstep].
    destruct (IH s1 c' l' r' Hinv1) as (s' & Hrun & Hinv' & Hd').
    { simpl in *. lia. }
    exists s'. split_and!; [done|done|by eapply same_data_trans].
Qed.

Lemma ctx_length c : length c ≤ length (ctx_left c) + length (ctx_right c).
Proof.
  induction c as [|[p r|l p] c IH]; simpl; [lia| |].
  - rewrite length_app. lia.
  - rewrite !length_app. simpl. lia.
Qed.

Lemma splay_spec s c l x r :
  tree_inv s (plug c (SNode l x r)) →
  ∃ s', _splay x s = Some (tt, s') ∧
    tree_inv s' (splayed c l x r) ∧ same_data (nodes s) (nodes s').
Proof.
  intros Hinv. unfold _splay, loop_fuel. unfold bind at 1.
  apply splay_loop_spec; [done|].
  destruct Hinv as (_ & _ & Hlen & _). rewrite <- Hlen, locs_plug.
  rewrite !length_app. simpl. pose proof (ctx_length c). lia.
Qed.

End splay_specs.

Section find_specs.
Import SplayTree.
Local Open Scope splay_scope.
Local Open Scope nat_scope.
Implicit Types (h : list _Node) (s : SplayTree.t) (t : shape) (c : list frame).

Lemma key_at_lookup h x n : h !! x = Some n → key_at h x = key n.
Proof. unfold key_at. by intros ->. Qed.

Lemma find_loop_spec fuel s c t k :
  tree_inv s (plug c t) → length (locs t) < fuel →
  ∃ s', _find_loop fuel k (top t) s
          = Some ((find_shape (key_at (nodes s)) k c t).2, s') ∧
    tree_inv s' (find_shape (key_at (nodes s)) k c t).1 ∧
    same_data (nodes s) (nodes s').
Proof.
  revert fuel c. induction t as [|l IHl a r IHr]; intros fuel c Hinv Hfuel.
  - destruct fuel; simpl; exists s; split_and!; try done; apply same_data_refl.
  - destruct fuel as [|fuel]; [lia|]. cbn [top _find_loop find_shape].
    destruct (focus_node _ _ _ _ _ Hinv) as (n & Hn & Hl & Hr & _).
    mread get_key_eq. rewrite (key_at_lookup _ _ _ Hn).
    simpl in Hfuel. rewrite length_app in Hfuel. simpl in Hfuel.
    destruct (k =? key n)%Z.
    { destruct (splay_spec _ _ _ _ _ Hinv) as (s' & Hs & Hi & Hd).
      rewrite ?bind_assoc. erewrite bind_eq; [|exact Hs].
      exists s'. done. }
    destruct (k <? key n)%Z.
    + mread get_left_eq. rewrite Hl. destruct l as [|ll b lr].
      * destruct (splay_spec _ _ _ _ _ Hinv) as (s' & Hs & Hi & Hd).
        cbn [top]. rewrite ?bind_assoc. erewrite bind_eq; [|exact Hs].
        exists s'. done.
      * apply (IHl fuel (InLeft a r :: c)); [done|lia].
    + mread get_right_eq. rewrite Hr. destruct r as [|rl b rr].
      * destruct (splay_spec _ _ _ _ _ Hinv) as (s' & Hs & Hi & Hd).
        cbn [top]. rewrite ?bind_assoc. erewrite bind_eq; [|exact Hs].
        exists s'. done.
      * apply (IHr fuel (InRight l a :: c)); [done|lia].
Qed.

Lemma find_shape_locs kf k c t :
  locs (find_shape kf k c t).1 = locs (plug c t).
Proof.
  revert c. induction t as [|l IHl a r IHr]; intros c; simpl; [done|].
  destruct (k =? kf a)%Z; [apply splayed_locs_top|].
  destruct (k <? kf a)%Z.
  - destruct l; [apply splayed_locs_top | apply (IHl (InLeft a r :: c))].
  - destruct r; [apply splayed_locs_top | apply (IHr (InRight l a :: c))].
Qed.

Lemma find_shape_top kf k c l a r :
  top (find_shape kf k c (SNode l a r)).1 = last_shape kf k (SNode l a r).
Proof.
  revert c a r.
  assert (∀ t c, t ≠ SLeaf → top (find_shape kf k c t).1 = last_shape kf k t)
    as H; [|intros; by apply H].
  clear l. intros t.
  induction t as [|l IHl a r IHr]; intros c Hne; [done|]. simpl.
  destruct (k =? kf a)%Z; [apply splayed_locs_top|].
  destruct (k <? kf a)%Z.
  - destruct l; [apply splayed_locs_top | by apply (IHl (InLeft a r :: c))].
  - destruct r; [apply splayed_locs_top | by apply (IHr (InRight l a :: c))].
Qed.

End find_specs.

(* ===================================================================== *)
(** * The splay tree as a sorted association list *)

Section assoc_lists.
Implicit Types (k v : Z) (kvs : list (Z * Z)).

Lemma ins_app_lt k v kvs1 k' v' kvs2 :
  k < k' →
  ins k v (kvs1 ++ (k', v') :: kvs2) = ins k v kvs1 ++ (k', v') :: kvs2.
Proof.
  intros Hlt. induction kvs1 as [|[k1 v1] kvs1 IH]; simpl.
  - by rewrite (proj2 (Z.ltb_lt _ _) Hlt).
  - destruct (k <? k1); [done|]. destruct (k =? k1); [done|]. by rewrite IH.
Qed.

Lemma ins_app_gt k v kvs1 kvs2 :
  Forall (λ e, e.1 < k) kvs1 → ins k v (kvs1 ++ kvs2) = kvs1 ++ ins k v kvs2.
Proof.
  induction 1 as [|[k1 v1] kvs1 Hlt _ IH]; simpl; [done|]. simpl in Hlt.
  rewrite (proj2 (Z.ltb_ge _ _)) by lia.
  rewrite (proj2 (Z.eqb_neq _ _)) by lia. by rewrite IH.
Qed.

Lemma ins_keys k v kvs a :
  a ∈ (ins k v kvs).*1 ↔ a = k ∨ a ∈ kvs.*1.
Proof.
  induction kvs as [|[k1 v1] kvs IH]; simpl.
  - rewrite list_elem_of_singleton, elem_of_nil. tauto.
  - destruct (Z.ltb_spec k k1); simpl.
    { rewrite !elem_of_cons. tauto. }
    destruct (Z.eqb_spec k k1) as [->|]; simpl.
    { rewrite !elem_of_cons. tauto. }
    rewrite !elem_of_cons, IH. tauto.
Qed.

Lemma ins_sorted k v kvs :
  StronglySorted Z.lt kvs.*1 → StronglySorted Z.lt (ins k v kvs).*1.
Proof.
  induction kvs as [|[k1 v1] kvs IH]; simpl.
  - intros _. repeat constructor.
  - intros [Hall Hs]%StronglySorted_cons.
    destruct (Z.ltb_spec k k1); simpl.
    { apply StronglySorted_cons. split.
      - constructor; [done|]. eapply Forall_impl; [exact Hall|].
        simpl. intros; lia.
      - by apply StronglySorted_cons. }
    destruct (Z.eqb_spec k k1) as [->|]; simpl.
    { by apply StronglySorted_cons. }
    apply StronglySorted_cons. split; [|auto].
    apply Forall_forall. intros a [->|Ha]%ins_keys; [lia|].
    rewrite Forall_forall in Hall. auto.
Qed.

Lemma assoc_ins k v kvs k' :
  assoc k' (ins k v kvs) = if (k' =? k)%Z then Some v else assoc k' kvs.
Proof.
  induction kvs as [|[k1 v1] kvs IH]; simpl.
  - by destruct (k' =? k).
  - destruct (Z.ltb_spec k k1); simpl.
    { by destruct (k' =? k). }
    destruct (Z.eqb_spec k k1) as [->|]; simpl.
    { by destruct (k' =? k1). }
    rewrite IH. destruct (Z.eqb_spec k' k1) as [->|]; [|done].
    by rewrite (proj2 (Z.eqb_neq _ _)) by lia.
Qed.

Lemma assoc_None k kvs : assoc k kvs = None ↔ k ∉ kvs.*1.
Proof.
  induction kvs as [|[k1 v1] kvs IH]; simpl.
  - split; [intros _; apply not_elem_of_nil | done].
  - rewrite not_elem_of_cons. destruct (Z.eqb_spec k k1); [|tauto].
    split; [done | tauto].
Qed.

Lemma assoc_Some_elem_of k v kvs : assoc k kvs = Some v → (k, v) ∈ kvs.
Proof.
  induction kvs as [|[k1 v1] kvs IH]; simpl; [done|].
  destruct (Z.eqb_spec k k1) as [->|].
  - intros [= ->]. left.
  - intros. right. auto.
Qed.

Lemma assoc_elem_of k v kvs : NoDup kvs.*1 → (k, v) ∈ kvs → assoc k kvs = Some v.
Proof.
  induction kvs as [|[k1 v1] kvs IH]; simpl.
  - intros _ H. by apply elem_of_nil in H.
  - intros [Hk Hnd]%NoDup_cons [[= -> ->]|Hin]%elem_of_cons.
    + by rewrite Z.eqb_refl.
    + destruct (Z.eqb_spec k k1) as [->|]; [|auto].
      exfalso. apply Hk. apply list_elem_of_fmap. by exists (k1, v).
Qed.

Lemma sorted_NoDup (l : list Z) : StronglySorted Z.lt l → NoDup l.
Proof.
  induction 1 as [|a l _ IH Hall]; constructor; [|done].
  intros Ha. rewrite Forall_forall in Hall. specialize (Hall _ Ha). lia.
Qed.

End assoc_lists.

Section tree_get.
Import SplayTree.
Local Open Scope splay_scope.
Implicit Types (h : list _Node) (s : SplayTree.t) (t : shape) (c : list frame).

Lemma entries_keys s t : (entries s t).*1 = key_at (nodes s) <$> locs t.
Proof. unfold entries. rewrite <- list_fmap_compose. done. Qed.

Lemma same_data_value_at h h' a : same_data h h' → value_at h' a = value_at h a.
Proof.
  intros [_ H]. destruct (H a) as [_ Hv]. unfold value_at.
  destruct (h' !! a), (h !! a); simpl in *; congruence.
Qed.

Lemma entries_same_data s s' t t' :
  same_data (nodes s) (nodes s') → locs t' = locs t →
  entries s' t' = entries s t.
Proof.
  intros Hd Hl. unfold entries. rewrite Hl. apply list_fmap_ext.
  intros i a _. unfold entry_at.
  by rewrite (same_data_key_at _ _ _ Hd), (same_data_value_at _ _ _ Hd).
Qed.

Lemma find_shape_result kf k c t :
  StronglySorted Z.lt (kf <$> locs t) →
  match (find_shape kf k c t).2 with
  | Some a => a ∈ locs t ∧ kf a = k
  | None => k ∉ kf <$> locs t
  end.
Proof.
  revert c. induction t as [|l IHl a r IHr]; intros c; simpl.
  { intros _. apply not_elem_of_nil. }
  rewrite fmap_app, fmap_cons.
  intros (Hlr & Hl & [Har Hr]%StronglySorted_cons)%StronglySorted_app.
  rewrite Forall_forall in Har.
  destruct (Z.eqb_spec k (kf a)) as [->|Hne]; simpl.
  { split; [in_search|done]. }
  destruct (Z.ltb_spec k (kf a)) as [Hlt|Hge].
  - assert (k ∉ kf a :: (kf <$> locs r)) as Hnr.
    { intros [->|Hin]%elem_of_cons; [lia|]. specialize (Har _ Hin). lia. }
    destruct l as [|ll b lr]; [done|]. cbv iota.
    + specialize (IHl (InLeft a r :: c) Hl).
      destruct (find_shape kf k (InLeft a r :: c) (SNode ll b lr)).2 as [x|].
      * destruct IHl as [Hin Hk]. split; [|done]. simpl in Hin. in_search.
      * intros [Hin|Hin]%elem_of_app; [by apply IHl | by apply Hnr].
  - assert (k ∉ (kf <$> locs l) ++ [kf a]) as Hnl.
    { intros [Hin|Hin]%elem_of_app.
      - specialize (Hlr _ (kf a) Hin ltac:(left)). lia.
      - apply list_elem_of_singleton in Hin. lia. }
    destruct r as [|rl b rr]; cbv iota.
    + simpl. intros [Hin|Hin]%elem_of_app; [apply Hnl; in_search|].
      apply list_elem_of_singleton in Hin. lia.
    + specialize (IHr (InRight l a :: c) Hr).
      destruct (find_shape kf k (InRight l a :: c) (SNode rl b rr)).2 as [x|].
      * destruct IHr as [Hin Hk]. split; [|done]. simpl in Hin. in_search.
      * intros [Hin|Hin]%elem_of_app; [apply Hnl; in_search|].
        apply elem_of_cons in Hin as [->|Hin]; [lia|]. by apply IHr.
Qed.

Lemma tree_get_spec s T k :
  bst_inv s T →
  ∃ s' T',
    get k s = Some (assoc k (entries s T), s') ∧
    bst_inv s' T' ∧
    entries s' T' = entries s T ∧
    same_data (nodes s) (nodes s') ∧
    (T = SLeaf → s' = s) ∧
    (T ≠ SLeaf → root s' = last_shape (key_at (nodes s)) k T).
Proof.
  intros [Hinv Hsorted].
  pose proof Hinv as (Hroot & Hrep & Hlen & Hnd).
  destruct (find_loop_spec (S (length (nodes s))) s [] T k Hinv)
    as (s' & Hfind & Hinv' & Hd); [lia|].
  set (T' := (find_shape (key_at (nodes s)) k [] T).1) in *.
  assert (locs T' = locs T) as Hlocs by apply find_shape_locs.
  pose proof (entries_same_data _ _ _ _ Hd Hlocs) as Hent.
  pose proof (find_shape_result (key_at (nodes s)) k [] T) as Hres.
  rewrite <- entries_keys in Hres. specialize (Hres Hsorted).
  exists s', T'.
  assert (get k s = Some (assoc k (entries s T), s')) as Hget.
  { unfold get, _find_node. rewrite !bind_assoc.
    rewrite (bind_eq _ _ _ _ _ (loop_fuel_eq s)). cbv beta.
    rewrite ?bind_assoc.
    rewrite (bind_eq _ _ _ _ _ (get_root_eq s)). cbv beta.
    rewrite Hroot. erewrite bind_eq; [|exact Hfind].
    destruct (find_shape (key_at (nodes s)) k [] T).2 as [a|].
    - destruct Hres as [Hin Hk].
      destruct (rep_lookup _ _ _ a (proj1 (proj2 Hinv'))) as [n Hn].
      { by rewrite Hlocs. }
      mread get_value_eq. unfold ret. f_equal. f_equal.
      symmetry. apply assoc_elem_of; [by apply sorted_NoDup|].
      unfold entries. apply list_elem_of_fmap. exists a. split; [|done].
      unfold entry_at. f_equal; [done|]. rewrite <- (same_data_value_at _ _ _ Hd).
      unfold value_at. by rewrite Hn.
    - unfold ret. f_equal. f_equal. symmetry. by apply assoc_None. }
  split_and!; try done.
  - split; [done|]. by rewrite Hent.
  - intros ->. simpl in Hfind. unfold ret in Hfind. congruence.
  - intros Hne. destruct Hinv' as (-> & _). destruct T as [|l a r]; [done|].
    apply find_shape_top.
Qed.

End tree_get.

Section attach.
Import SplayTree.
Local Open Scope splay_scope.
Implicit Types (h : list _Node) (s : SplayTree.t) (t : shape) (c : list frame).

Lemma sorted_split (kf : loc → Z) l1 x l2 :
  StronglySorted Z.lt (kf <$> (l1 ++ x :: l2)) →
  Forall (λ y, kf y < kf x) l1 ∧ Forall (λ y, kf x < kf y) l2.
Proof.
  rewrite fmap_app, fmap_cons.
  intros (Hlr & _ & [Hx _]%StronglySorted_cons)%StronglySorted_app.
  split.
  - apply Forall_forall. intros y Hy. apply Hlr; [|left].
    apply list_elem_of_fmap. by exists y.
  - rewrite Forall_fmap in Hx. exact Hx.
Qed.

Lemma entries_app s l1 l2 :
  entry_at s <$> (l1 ++ l2) = (entry_at s <$> l1) ++ (entry_at s <$> l2).
Proof. apply fmap_app. Qed.

Lemma attached_lookup_old b s a k v x :
  is_Some (nodes s !! x) → x ≠ a →
  nodes (attached b s a k v) !! x = nodes s !! x.
Proof.
  intros Hx Hne. simpl. rewrite lookup_upd, decide_False by done.
  apply lookup_app_l. by apply lookup_lt_is_Some.
Qed.

Lemma attached_lookup_new b s a k v :
  is_Some (nodes s !! a) →
  nodes (attached b s a k v) !! length (nodes s)
    = Some (mkNode k v None None (Some a)).
Proof.
  intros Ha%lookup_lt_is_Some. simpl. rewrite lookup_upd.
  rewrite decide_False by lia.
  rewrite lookup_app_r by lia. by rewrite Nat.sub_diag.
Qed.

Lemma attached_lookup_node b s a k v n :
  nodes s !! a = Some n →
  nodes (attached b s a k v) !! a
    = Some (if b then with_left (Some (length (nodes s))) n
            else with_right (Some (length (nodes s))) n).
Proof.
  intros Ha. simpl. rewrite lookup_upd, decide_True by done.
  rewrite lookup_app_l by (by eapply lookup_lt_Some). rewrite Ha.
  by destruct b.
Qed.

Lemma attached_entry_old b s a k v x :
  is_Some (nodes s !! x) → entry_at (attached b s a k v) x = entry_at s x.
Proof.
  intros [n Hn]. unfold entry_at, key_at, value_at.
  destruct (decide (x = a)) as [->|Hne].
  - rewrite (attached_lookup_node _ _ _ _ _ _ Hn), Hn. by destruct b.
  - by rewrite attached_lookup_old.
Qed.

Lemma attached_entry_new b s a k v :
  is_Some (nodes s !! a) →
  entry_at (attached b s a k v) (length (nodes s)) = (k, v).
Proof.
  intros Ha. unfold entry_at, key_at, value_at.
  by rewrite attached_lookup_new.
Qed.

Lemma attached_entries b s a k v (l : list loc) :
  (∀ x, x ∈ l → is_Some (nodes s !! x)) →
  entry_at (attached b s a k v) <$> l = entry_at s <$> l.
Proof.
  intros H. apply list_fmap_ext. intros i x Hx.
  apply attached_entry_old, H. by eapply list_elem_of_lookup_2.
Qed.

Lemma top_plug_same c t t' : top t = top t' → top (plug c t) = top (plug c t').
Proof. destruct c; [done | intros _; apply top_plug_cons]. Qed.

Lemma NoDup_keys_entries s (l : list loc) :
  NoDup (key_at (nodes s) <$> l) ↔ NoDup (entry_at s <$> l).*1.
Proof. by rewrite <- list_fmap_compose. Qed.

Lemma tree_inv_lookup s t x : tree_inv s t → x ∈ locs t → is_Some (nodes s !! x).
Proof. intros (_ & Hrep & _). by apply (rep_lookup _ None). Qed.

Lemma attach_left_inv s c a r k v :
  tree_inv s (plug c (SNode SLeaf a r)) →
  k ∉ key_at (nodes s) <$> locs (plug c (SNode SLeaf a r)) →
  tree_inv (attached true s a k v)
    (plug (InLeft a r :: c) (SNode SLeaf (length (nodes s)) SLeaf)) ∧
  entries (attached true s a k v)
    (plug (InLeft a r :: c) (SNode SLeaf (length (nodes s)) SLeaf))
    = (entry_at s <$> ctx_left c) ++ (k, v)
        :: (entry_at s <$> (a :: locs r ++ ctx_right c)).
Proof.
  intros Hinv Hk. pose proof (tree_inv_NoDup _ _ Hinv) as Hnd.
  pose proof (λ x, tree_inv_lookup _ _ x Hinv) as Hlk.
  pose proof Hinv as (Hroot & Hrep & Hlen & Hkeys).
  rewrite locs_plug in Hnd, Hlk, Hk, Hkeys, Hlen. simpl in Hnd, Hlk, Hk, Hkeys, Hlen.
  apply rep_plug in Hrep as [Hctx Hrep]. simpl in Hrep.
  destruct Hrep as (na & Ha & Hal & Har & Hap & _ & Hr).
  set (n := length (nodes s)).
  assert (entries (attached true s a k v)
            (plug (InLeft a r :: c) (SNode SLeaf n SLeaf))
          = (entry_at s <$> ctx_left c) ++ (k, v)
              :: (entry_at s <$> (a :: locs r ++ ctx_right c))) as Hent.
  { unfold entries. rewrite locs_plug. cbn [locs ctx_left ctx_right app].
    rewrite fmap_app, fmap_cons.
    rewrite attached_entry_new by eauto.
    rewrite !attached_entries; [done| |].
    - intros x Hx. apply Hlk. in_search.
    - intros x Hx. apply Hlk. in_search. }
  split; [|done]. split_and!.
  - simpl. rewrite Hroot. by apply top_plug_same.
  - apply rep_plug. split.
    + cbn [rep_ctx frame_loc]. split.
      * eexists. split; [by apply attached_lookup_node|]. simpl.
        split_and!; [done|done|done|].
        apply (rep_ext (nodes s)); [|done]. intros x Hx.
        apply (attached_lookup_old true s a k v x);
          [apply Hlk; in_search|]. intros ->. nd.
      * apply (rep_ctx_ext (nodes s)); [|done]. intros x Hx.
        apply (attached_lookup_old true s a k v x);
          [apply Hlk; split_elem_of; in_search|].
        intros ->. nd.
    + cbn [rep ctx_top frame_loc]. eexists.
      split; [apply attached_lookup_new; eauto|]. done.
  - rewrite locs_plug. simpl. rewrite length_upd, !length_app in *.
    simpl in *. rewrite length_app in *. simpl in *. lia.
  - apply NoDup_keys_entries. fold (entries (attached true s a k v)
      (plug (InLeft a r :: c) (SNode SLeaf n SLeaf))). rewrite Hent.
    rewrite <- Permutation_middle, <- fmap_app. simpl.
    apply NoDup_cons. split.
    + rewrite <- list_fmap_compose. exact Hk.
    + rewrite <- list_fmap_compose. exact Hkeys.
Qed.

Lemma attach_right_inv s c l a k v :
  tree_inv s (plug c (SNode l a SLeaf)) →
  k ∉ key_at (nodes s) <$> locs (plug c (SNode l a SLeaf)) →
  tree_inv (attached false s a k v)
    (plug (InRight l a :: c) (SNode SLeaf (length (nodes s)) SLeaf)) ∧
  entries (attached false s a k v)
    (plug (InRight l a :: c) (SNode SLeaf (length (nodes s)) SLeaf))
    = (entry_at s <$> (ctx_left c ++ locs l ++ [a])) ++ (k, v)
        :: (entry_at s <$> ctx_right c).
Proof.
  intros Hinv Hk. pose proof (tree_inv_NoDup _ _ Hinv) as Hnd.
  pose proof (λ x, tree_inv_lookup _ _ x Hinv) as Hlk.
  pose proof Hinv as (Hroot & Hrep & Hlen & Hkeys).
  rewrite locs_plug in Hnd, Hlk, Hk, Hkeys, Hlen. simpl in Hnd, Hlk, Hk, Hkeys, Hlen.
  apply rep_plug in Hrep as [Hctx Hrep]. simpl in Hrep.
  destruct Hrep as (na & Ha & Hal & Har & Hap & Hl & _).
  set (n := length (nodes s)).
  assert (entries (attached false s a k v)
            (plug (InRight l a :: c) (SNode SLeaf n SLeaf))
          = (entry_at s <$> (ctx_left c ++ locs l ++ [a])) ++ (k, v)
              :: (entry_at s <$> ctx_right c)) as Hent.
  { unfold entries. rewrite locs_plug. cbn [locs ctx_left ctx_right app].
    rewrite fmap_app, fmap_cons.
    rewrite attached_entry_new by eauto.
    rewrite !attached_entries; [done| |].
    - intros x Hx. apply Hlk. in_search.
    - intros x Hx. apply Hlk. split_elem_of; in_search. }
  split; [|done]. split_and!.
  - simpl. rewrite Hroot. by apply top_plug_same.
  - apply rep_plug. split.
    + cbn [rep_ctx frame_loc]. split.
      * eexists. split; [by apply attached_lookup_node|]. simpl.
        split_and!; [done|done|done|].
        apply (rep_ext (nodes s)); [|done]. intros x Hx.
        apply (attached_lookup_old false s a k v x);
          [apply Hlk; in_search|]. intros ->. nd.
      * apply (rep_ctx_ext (nodes s)); [|done]. intros x Hx.
        apply (attached_lookup_old false s a k v x);
          [apply Hlk; split_elem_of; in_search|].
        intros ->. nd.
    + cbn [rep ctx_top frame_loc]. eexists.
      split; [apply attached_lookup_new; eauto|]. done.
  - rewrite locs_plug. simpl. rewrite length_upd, !length_app in *.
    simpl in *. rewrite ?length_app in *. simpl in *. lia.
  - apply NoDup_keys_entries. fold (entries (attached false s a k v)
      (plug (InRight l a :: c) (SNode SLeaf n SLeaf))). rewrite Hent.
    rewrite <- Permutation_middle, <- fmap_app. simpl.
    apply NoDup_cons. split.
    + rewrite <- list_fmap_compose.
      replace ((ctx_left c ++ locs l ++ [a]) ++ ctx_right c)
        with (ctx_left c ++ (locs l ++ [a]) ++ ctx_right c)
        by (by repeat (rewrite <- app_assoc; simpl)).
      exact Hk.
    + rewrite <- list_fmap_compose.
      replace ((ctx_left c ++ locs l ++ [a]) ++ ctx_right c)
        with (ctx_left c ++ (locs l ++ [a]) ++ ctx_right c)
        by (by repeat (rewrite <- app_assoc; simpl)).
      exact Hkeys.
Qed.

End attach.

Section insert_specs.
Import SplayTree.
Local Open Scope splay_scope.
Implicit Types (h : list _Node) (s : SplayTree.t) (t : shape) (c : list frame).

Lemma rep_same_links h h' par t :
  (∀ x n, h !! x = Some n →
     ∃ n', h' !! x = Some n' ∧ left n' = left n ∧ right n' = right n ∧
           parent n' = parent n) →
  rep h par t → rep h' par t.
Proof.
  intros Hl. revert par. induction t as [|l IHl x r IHr]; intros par; simpl; [done|].
  intros (n & Hn & ? & ? & ? & ? & ?).
  destruct (Hl _ _ Hn) as (n' & Hn' & ? & ? & ?).
  exists n'. split_and!; try congruence; auto.
Qed.

Lemma revalued_inv s t a v before after :
  tree_inv s t → locs t = before ++ a :: after →
  tree_inv (revalued s a v) t ∧
  entries (revalued s a v) t
    = (entry_at s <$> before)
        ++ (key_at (nodes s) a, v) :: (entry_at s <$> after).
Proof.
  intros Hinv Hlocs. pose proof (tree_inv_NoDup _ _ Hinv) as Hnd.
  pose proof (λ x, tree_inv_lookup _ _ x Hinv) as Hlk.
  destruct Hinv as (Hroot & Hrep & Hlen & Hkeys).
  rewrite Hlocs in Hnd, Hlk.
  assert (∀ x, key_at (nodes (revalued s a v)) x = key_at (nodes s) x) as Hkey.
  { intros x. simpl. by apply key_at_upd. }
  split.
  - split_and!; [done| | |].
    + eapply rep_same_links; [|exact Hrep]. intros x n Hn. simpl.
      rewrite lookup_upd. destruct (decide (a = x)) as [->|].
      * rewrite Hn. simpl. by eexists.
      * by exists n.
    + simpl. by rewrite length_upd.
    + erewrite list_fmap_ext; [exact Hkeys|]. intros i x _. apply Hkey.
  - unfold entries. rewrite Hlocs, fmap_app, fmap_cons. f_equal; [|f_equal].
    + apply list_fmap_ext. intros i x Hx%list_elem_of_lookup_2.
      unfold entry_at, value_at. rewrite Hkey. simpl.
      rewrite lookup_upd, decide_False; [done|]. intros ->. nd.
    + destruct (Hlk a) as [n Hn]; [in_search|].
      unfold entry_at, value_at. rewrite Hkey. simpl.
      by rewrite lookup_upd, decide_True, Hn.
    + apply list_fmap_ext. intros i x Hx%list_elem_of_lookup_2.
      unfold entry_at, value_at. rewrite Hkey. simpl.
      rewrite lookup_upd, decide_False; [done|]. intros ->. nd.
Qed.

Lemma entry_keys_lt s (l : list loc) k :
  Forall (λ y, key_at (nodes s) y < k) l →
  Forall (λ e, e.1 < k) (entry_at s <$> l).
Proof. intros H. by apply Forall_fmap. Qed.

Lemma insert_shape_top kf k n c t :
  top (insert_shape kf k n c t).1 = Some (insert_shape kf k n c t).2.
Proof.
  revert c. induction t as [|l IHl a r IHr]; intros c; cbn [insert_shape].
  { apply splayed_locs_top. }
  destruct (k =? kf a)%Z; [apply splayed_locs_top|].
  destruct (k <? kf a)%Z.
  - destruct l; [apply splayed_locs_top | apply (IHl (InLeft a r :: c))].
  - destruct r; [apply splayed_locs_top | apply (IHr (InRight l a :: c))].
Qed.

Lemma attach_left_run s c a r k v (K : loc → M unit) :
  tree_inv s (plug c (SNode SLeaf a r)) →
  (n ← new_node k v (Some a); set_left a (Some n);;
   l ← get_left a; l ← deref l; K l) s
  = K (length (nodes s)) (attached true s a k v).
Proof.
  intros Hinv. destruct (focus_node _ _ _ _ _ Hinv) as (na & Ha & _).
  unfold bind at 1. unfold new_node. unfold set_left.
  erewrite bind_eq; cycle 1.
  { eapply modify_upd. simpl. rewrite lookup_app_l; [exact Ha|].
    by eapply lookup_lt_Some. }
  cbn [nodes root].
  change {| nodes := upd (nodes s ++ [mkNode k v None None (Some a)]) a
                       (with_left (Some (length (nodes s))));
            root := root s |} with (attached true s a k v).
  erewrite bind_eq;
    [|apply get_left_eq; by apply (attached_lookup_node true)].
  done.
Qed.

Lemma attach_right_run s c l a k v (K : loc → M unit) :
  tree_inv s (plug c (SNode l a SLeaf)) →
  (n ← new_node k v (Some a); set_right a (Some n);;
   r ← get_right a; r ← deref r; K r) s
  = K (length (nodes s)) (attached false s a k v).
Proof.
  intros Hinv. destruct (focus_node _ _ _ _ _ Hinv) as (na & Ha & _).
  unfold bind at 1. unfold new_node. unfold set_right.
  erewrite bind_eq; cycle 1.
  { eapply modify_upd. simpl. rewrite lookup_app_l; [exact Ha|].
    by eapply lookup_lt_Some. }
  cbn [nodes root].
  change {| nodes := upd (nodes s ++ [mkNode k v None None (Some a)]) a
                       (with_right (Some (length (nodes s))));
            root := root s |} with (attached false s a k v).
  erewrite bind_eq;
    [|apply get_right_eq; by apply (attached_lookup_node false)].
  done.
Qed.

Lemma assoc_app_list {A} (l1 l2 l3 l4 : list A) :
  l1 ++ (l2 ++ l3) ++ l4 = (l1 ++ l2) ++ l3 ++ l4.
Proof. by rewrite <- !app_assoc. Qed.

Lemma insert_here s c l a r k v :
  tree_inv s (plug c (SNode l a r)) →
  StronglySorted Z.lt (key_at (nodes s) <$> locs (plug c (SNode l a r))) →
  key_at (nodes s) a = k →
  ∃ s', (set_value a v;; _splay a) s = Some (tt, s') ∧
    insert_post s c (SNode l a r) k v s'.
Proof.
  intros Hinv Hsorted Hk.
  destruct (focus_node _ _ _ _ _ Hinv) as (na & Ha & _).
  assert (locs (plug c (SNode l a r))
          = (ctx_left c ++ locs l) ++ a :: (locs r ++ ctx_right c)) as Hlocs.
  { rewrite locs_plug. simpl. by repeat (rewrite <- app_assoc; simpl). }
  destruct (revalued_inv s _ a v _ _ Hinv Hlocs) as [Hinv1 Hent1].
  destruct (splay_spec _ _ _ _ _ Hinv1) as (s' & Hsplay & Hinv' & Hd).
  exists s'. split.
  { unfold set_value. erewrite bind_eq; [|by eapply modify_upd]. exact Hsplay. }
  rewrite Hlocs in Hsorted. apply sorted_split in Hsorted as [Hlt _].
  apply Forall_app in Hlt as [_ Hlt].
  unfold insert_post. cbn [insert_shape].
  rewrite Hk, Z.eqb_refl. cbn [fst snd].
  split_and!.
  - done.
  - rewrite (entries_same_data _ _ _ _ Hd (proj1 (splayed_locs_top _ _ _ _))).
    rewrite Hent1. cbn [locs]. rewrite !fmap_app, fmap_cons.
    rewrite ins_app_gt by (apply entry_keys_lt; by rewrite <- Hk).
    change (entry_at s a) with (key_at (nodes s) a, value_at (nodes s) a).
    rewrite Hk. cbn [ins]. rewrite Z.ltb_irrefl, Z.eqb_refl.
    by repeat (rewrite <- app_assoc; simpl).
  - unfold entry_at.
    rewrite (same_data_key_at _ _ _ Hd), (same_data_value_at _ _ _ Hd).
    simpl. rewrite key_at_upd by done. unfold value_at.
    rewrite lookup_upd, decide_True, Ha by done. simpl. by rewrite Hk.
  - intros _. destruct Hd as [-> _]. simpl. rewrite length_upd.
    split_and!; [done| |done]. simpl. in_search.
  - intros Hn. exfalso. apply Hn. apply list_elem_of_fmap. exists a.
    split; [done|]. simpl. in_search.
Qed.

Lemma insert_left_leaf s c a r k v :
  tree_inv s (plug c (SNode SLeaf a r)) →
  StronglySorted Z.lt (key_at (nodes s) <$> locs (plug c (SNode SLeaf a r))) →
  ctx_bounds (key_at (nodes s)) k c →
  k < key_at (nodes s) a →
  ∃ s', (n ← new_node k v (Some a); set_left a (Some n);;
         l ← get_left a; l ← deref l; _splay l) s = Some (tt, s') ∧
    insert_post s c (SNode SLeaf a r) k v s'.
Proof.
  intros Hinv Hsorted [Hbl Hbr] Hlt.
  pose proof (λ x, tree_inv_lookup _ _ x Hinv) as Hlk.
  assert (locs (plug c (SNode SLeaf a r))
          = ctx_left c ++ a :: (locs r ++ ctx_right c)) as Hlocs.
  { rewrite locs_plug. simpl. by repeat (rewrite <- app_assoc; simpl). }
  pose proof Hsorted as Hsplit. rewrite Hlocs in Hsplit.
  apply sorted_split in Hsplit as [_ Hgt].
  assert (k ∉ key_at (nodes s) <$> locs (plug c (SNode SLeaf a r))) as Hnew.
  { rewrite Hlocs. intros (x & -> & Hx)%list_elem_of_fmap.
    rewrite Forall_forall in Hbl, Hgt.
    apply elem_of_app in Hx as [Hx|Hx]; [specialize (Hbl _ Hx); lia|].
    apply elem_of_cons in Hx as [->|Hx]; [lia|].
    specialize (Hgt _ Hx). lia. }
  destruct (attach_left_inv _ _ _ _ _ v Hinv Hnew) as [Hinv1 Hent1].
  destruct (splay_spec _ _ _ _ _ Hinv1) as (s' & Hsplay & Hinv' & Hd).
  exists s'. split.
  { rewrite (attach_left_run s c a r k v _ Hinv). exact Hsplay. }
  unfold insert_post. cbn [insert_shape].
  rewrite (proj2 (Z.eqb_neq _ _)) by lia.
  rewrite (proj2 (Z.ltb_lt _ _)) by lia. cbn [fst snd].
  split_and!.
  - done.
  - rewrite (entries_same_data _ _ _ _ Hd (proj1 (splayed_locs_top _ _ _ _))).
    rewrite Hent1. cbn [locs app]. rewrite !fmap_cons, ?fmap_app.
    change (entry_at s a) with (key_at (nodes s) a, value_at (nodes s) a).
    cbn [ins]. rewrite (proj2 (Z.ltb_lt _ _)) by lia.
    by repeat (rewrite <- app_assoc; simpl).
  - unfold entry_at.
    rewrite (same_data_key_at _ _ _ Hd), (same_data_value_at _ _ _ Hd).
    apply (attached_entry_new true). apply Hlk. rewrite Hlocs. in_search.
  - intros Hin. exfalso. apply Hnew. rewrite Hlocs.
    apply list_elem_of_fmap in Hin as (x & -> & Hx). simpl in Hx.
    apply list_elem_of_fmap. exists x. split; [done|].
    split_elem_of; in_search.
  - intros _. destruct Hd as [-> _]. simpl.
    rewrite length_upd, length_app. simpl. split; [lia|done].
Qed.

Lemma insert_right_leaf s c l a k v :
  tree_inv s (plug c (SNode l a SLeaf)) →
  StronglySorted Z.lt (key_at (nodes s) <$> locs (plug c (SNode l a SLeaf))) →
  ctx_bounds (key_at (nodes s)) k c →
  key_at (nodes s) a < k →
  ∃ s', (n ← new_node k v (Some a); set_right a (Some n);;
         r ← get_right a; r ← deref r; _splay r) s = Some (tt, s') ∧
    insert_post s c (SNode l a SLeaf) k v s'.
Proof.
  intros Hinv Hsorted [Hbl Hbr] Hlt.
  pose proof (λ x, tree_inv_lookup _ _ x Hinv) as Hlk.
  assert (locs (plug c (SNode l a SLeaf))
          = (ctx_left c ++ locs l) ++ a :: ctx_right c) as Hlocs.
  { rewrite locs_plug. simpl. by repeat (rewrite <- app_assoc; simpl). }
  pose proof Hsorted as Hsplit. rewrite Hlocs in Hsplit.
  apply sorted_split in Hsplit as [Hlt' _].
  assert (k ∉ key_at (nodes s) <$> locs (plug c (SNode l a SLeaf))) as Hnew.
  { rewrite Hlocs. intros (x & -> & Hx)%list_elem_of_fmap.
    rewrite Forall_forall in Hbr, Hlt'.
    apply elem_of_app in Hx as [Hx|Hx]; [specialize (Hlt' _ Hx); lia|].
    apply elem_of_cons in Hx as [->|Hx]; [lia|].
    specialize (Hbr _ Hx). lia. }
  destruct (attach_right_inv _ _ _ _ _ v Hinv Hnew) as [Hinv1 Hent1].
  destruct (splay_spec _ _ _ _ _ Hinv1) as (s' & Hsplay & Hinv' & Hd).
  exists s'. split.
  { rewrite (attach_right_run s c l a k v _ Hinv). exact Hsplay. }
  apply Forall_app in Hlt' as [_ Hltl].
  unfold insert_post. cbn [insert_shape].
  rewrite (proj2 (Z.eqb_neq _ _)) by lia.
  rewrite (proj2 (Z.ltb_ge _ _)) by lia. cbn [fst snd].
  split_and!.
  - done.
  - rewrite (entries_same_data _ _ _ _ Hd (proj1 (splayed_locs_top _ _ _ _))).
    rewrite Hent1. cbn [locs app]. rewrite !fmap_app.
    rewrite ins_app_gt
      by (apply entry_keys_lt; eapply Forall_impl; [exact Hltl|];
          simpl; intros; lia).
    rewrite fmap_cons.
    change (entry_at s a) with (key_at (nodes s) a, value_at (nodes s) a).
    cbn [fmap list_fmap ins].
    rewrite (proj2 (Z.ltb_ge _ _)) by lia.
    rewrite (proj2 (Z.eqb_neq _ _)) by lia.
    by repeat (rewrite <- app_assoc; simpl).
  - unfold entry_at.
    rewrite (same_data_key_at _ _ _ Hd), (same_data_value_at _ _ _ Hd).
    apply (attached_entry_new false). apply Hlk. rewrite Hlocs. in_search.
  - intros Hin. exfalso. apply Hnew. rewrite Hlocs.
    apply list_elem_of_fmap in Hin as (x & -> & Hx). simpl in Hx.
    apply list_elem_of_fmap. exists x. split; [done|].
    split_elem_of; in_search.
  - intros _. destruct Hd as [-> _]. simpl.
    rewrite length_upd, length_app. simpl. split; [lia|done].
Qed.

Lemma ctx_bounds_left s c l a r k :
  StronglySorted Z.lt (key_at (nodes s) <$> locs (plug c (SNode l a r))) →
  ctx_bounds (key_at (nodes s)) k c → k < key_at (nodes s) a →
  ctx_bounds (key_at (nodes s)) k (InLeft a r :: c).
Proof.
  intros Hsorted [Hbl Hbr] Hlt. split; [done|]. cbn [ctx_right].
  replace (locs (plug c (SNode l a r)))
    with ((ctx_left c ++ locs l) ++ a :: (locs r ++ ctx_right c)) in Hsorted
    by (rewrite locs_plug; simpl; by repeat (rewrite <- app_assoc; simpl)).
  apply sorted_split in Hsorted as [_ Hgt].
  apply Forall_app in Hgt as [Hgt _].
  constructor; [done|]. apply Forall_app. split; [|done].
  eapply Forall_impl; [exact Hgt|]. simpl. intros; lia.
Qed.

Lemma ctx_bounds_right s c l a r k :
  StronglySorted Z.lt (key_at (nodes s) <$> locs (plug c (SNode l a r))) →
  ctx_bounds (key_at (nodes s)) k c → key_at (nodes s) a < k →
  ctx_bounds (key_at (nodes s)) k (InRight l a :: c).
Proof.
  intros Hsorted [Hbl Hbr] Hlt. split; [|done]. cbn [ctx_left].
  replace (locs (plug c (SNode l a r)))
    with ((ctx_left c ++ locs l) ++ a :: (locs r ++ ctx_right c)) in Hsorted
    by (rewrite locs_plug; simpl; by repeat (rewrite <- app_assoc; simpl)).
  apply sorted_split in Hsorted as [Hlt' _].
  apply Forall_app in Hlt' as [_ Hlt'].
  apply Forall_app. split; [done|]. apply Forall_app. split.
  - eapply Forall_impl; [exact Hlt'|]. simpl. intros; lia.
  - by constructor.
Qed.

Lemma key_in_left (kf : loc → Z) k l a r :
  k ≠ kf a → (∀ x, x ∈ locs r → kf x ≠ k) →
  k ∈ kf <$> locs (SNode l a r) ↔ k ∈ kf <$> locs l.
Proof.
  intros Hne Hr. cbn [locs]. rewrite fmap_app, fmap_cons, elem_of_app, elem_of_cons.
  split; [|by left]. intros [?|[->|Hx]]; [done|done|].
  apply list_elem_of_fmap in Hx as (x & -> & Hx). by destruct (Hr x Hx).
Qed.

Lemma key_in_right (kf : loc → Z) k l a r :
  k ≠ kf a → (∀ x, x ∈ locs l → kf x ≠ k) →
  k ∈ kf <$> locs (SNode l a r) ↔ k ∈ kf <$> locs r.
Proof.
  intros Hne Hl. cbn [locs]. rewrite fmap_app, fmap_cons, elem_of_app, elem_of_cons.
  split; [|intros; right; by right]. intros [Hx|[->|?]]; [|done|done].
  apply list_elem_of_fmap in Hx as (x & -> & Hx). by destruct (Hl x Hx).
Qed.

Lemma insert_shape_left kf k n c l a r :
  k ≠ kf a → k < kf a → l ≠ SLeaf →
  insert_shape kf k n c (SNode l a r) = insert_shape kf k n (InLeft a r :: c) l.
Proof.
  intros. cbn [insert_shape]. rewrite (proj2 (Z.eqb_neq _ _)) by lia.
  rewrite (proj2 (Z.ltb_lt _ _)) by lia. by destruct l.
Qed.

Lemma insert_shape_right kf k n c l a r :
  k ≠ kf a → kf a ≤ k → r ≠ SLeaf →
  insert_shape kf k n c (SNode l a r) = insert_shape kf k n (InRight l a :: c) r.
Proof.
  intros. cbn [insert_shape]. rewrite (proj2 (Z.eqb_neq _ _)) by lia.
  rewrite (proj2 (Z.ltb_ge _ _)) by lia. by destruct r.
Qed.

Lemma new_node_eq k v p s :
  new_node k v p s
    = Some (length (nodes s),
            {| nodes := nodes s ++ [mkNode k v None None p]; root := root s |}).
Proof. done. Qed.

Lemma insert_loop_spec t : ∀ fuel s c k v,
  match t with
  | SLeaf => True
  | SNode l a r =>
      tree_inv s (plug c t) →
      StronglySorted Z.lt (key_at (nodes s) <$> locs (plug c t)) →
      ctx_bounds (key_at (nodes s)) k c →
      (length (locs t) < fuel)%nat →
      ∃ s', _insert_loop fuel k v a s = Some (tt, s') ∧
        insert_post s c t k v s'
  end.
Proof.
  induction t as [|l IHl a r IHr]; intros fuel s c k v; [done|].
  intros Hinv Hsorted Hb Hfuel.
  destruct fuel as [|fuel]; [lia|]. cbn [_insert_loop].
  destruct (focus_node _ _ _ _ _ Hinv) as (na & Ha & Hl & Hr & _).
  mread get_key_eq. rewrite <- (key_at_lookup _ _ _ Ha).
  simpl in Hfuel. rewrite length_app in Hfuel. simpl in Hfuel.
  pose proof Hsorted as Hsplit.
  replace (locs (plug c (SNode l a r)))
    with ((ctx_left c ++ locs l) ++ a :: (locs r ++ ctx_right c)) in Hsplit
    by (rewrite locs_plug; simpl; by repeat (rewrite <- app_assoc; simpl)).
  apply sorted_split in Hsplit as [Hlt' Hgt'].
  apply Forall_app in Hlt' as [_ Hltl]. apply Forall_app in Hgt' as [Hgtr _].
  rewrite Forall_forall in Hltl, Hgtr.
  destruct (Z.eqb_spec k (key_at (nodes s) a)) as [Hk|Hne].
  { by apply insert_here. }
  destruct (Z.ltb_spec k (key_at (nodes s) a)) as [Hlt|Hge].
  - mread get_left_eq. rewrite Hl. destruct l as [|ll b lr]; cbn [top].
    { by apply insert_left_leaf. }
    destruct (IHl fuel s (InLeft a r :: c) k v) as (s' & Hrun & Hpost);
      [done|done|by eapply ctx_bounds_left|lia|].
    exists s'. split; [done|].
    destruct Hpost as (Hinv' & Hent & Hentry & Hin & Hnin).
    unfold insert_post. rewrite insert_shape_left by done.
    cbv zeta in *.
    set (res := insert_shape (key_at (nodes s)) k (length (nodes s))
                  (InLeft a r :: c) (SNode ll b lr)) in *.
    assert (k ∈ key_at (nodes s) <$> locs (SNode (SNode ll b lr) a r) ↔
            k ∈ key_at (nodes s) <$> locs (SNode ll b lr)) as Hiff.
    { apply key_in_left; [done|]. intros x Hx. specialize (Hgtr _ Hx). lia. }
    split_and!.
    + done.
    + rewrite Hent. cbn [ctx_left ctx_right].
      remember (SNode ll b lr) as l eqn:El. cbn [locs].
      rewrite (fmap_app _ (locs l)), !fmap_cons.
      change (entry_at s a) with (key_at (nodes s) a, value_at (nodes s) a).
      rewrite ins_app_lt by done. rewrite !fmap_app.
      by repeat (rewrite <- app_assoc; simpl).
    + done.
    + intros Hk%Hiff. destruct (Hin Hk) as (? & ? & ?).
      split_and!; [done| |done]. cbn [locs]. in_search.
    + intros Hk. apply Hnin. by rewrite <- Hiff.
  - mread get_right_eq. rewrite Hr. destruct r as [|rl b rr]; cbn [top].
    { apply insert_right_leaf; [done|done|done|lia]. }
    destruct (IHr fuel s (InRight l a :: c) k v) as (s' & Hrun & Hpost);
      [done|done|by eapply ctx_bounds_right; [|done|lia]|lia|].
    exists s'. split; [done|].
    destruct Hpost as (Hinv' & Hent & Hentry & Hin & Hnin).
    unfold insert_post. rewrite insert_shape_right by done.
    cbv zeta in *.
    set (res := insert_shape (key_at (nodes s)) k (length (nodes s))
                  (InRight l a :: c) (SNode rl b rr)) in *.
    assert (k ∈ key_at (nodes s) <$> locs (SNode l a (SNode rl b rr)) ↔
            k ∈ key_at (nodes s) <$> locs (SNode rl b rr)) as Hiff.
    { apply key_in_right; [done|]. intros x Hx. specialize (Hltl _ Hx). lia. }
    split_and!.
    + done.
    + rewrite Hent. cbn [ctx_left ctx_right].
      remember (SNode rl b rr) as r eqn:Er. cbn [locs].
      rewrite !fmap_app, !fmap_cons.
      rewrite (ins_app_gt _ _ (entry_at s <$> locs l)); cycle 1.
      { apply entry_keys_lt. apply Forall_forall. intros y Hy.
        specialize (Hltl _ Hy). lia. }
      change (entry_at s a) with (key_at (nodes s) a, value_at (nodes s) a).
      cbn [fmap list_fmap ins].
      rewrite (proj2 (Z.ltb_ge k _)) by lia.
      rewrite (proj2 (Z.eqb_neq k _)) by lia.
      simpl. by repeat (rewrite <- app_assoc; simpl).
    + done.
    + intros Hk%Hiff. destruct (Hin Hk) as (? & ? & ?).
      split_and!; [done| |done]. cbn [locs]. in_search.
    + intros Hk. apply Hnin. by rewrite <- Hiff.
Qed.

Lemma tree_insert_spec s T k v :
  bst_inv s T →
  ∃ s' T' x,
    insert k v s = Some (tt, s') ∧
    bst_inv s' T' ∧
    entries s' T' = ins k v (entries s T) ∧
    root s' = Some x ∧
    entry_at s' x = (k, v) ∧
    (k ∈ (entries s T).*1 →
       length (nodes s') = length (nodes s) ∧ x ∈ locs T ∧
       key_at (nodes s) x = k) ∧
    (k ∉ (entries s T).*1 →
       length (nodes s') = S (length (nodes s)) ∧ x = length (nodes s)).
Proof.
  intros [Hinv Hsorted]. pose proof Hinv as (Hroot & Hrep & Hlen & Hkeys).
  unfold insert. rewrite (bind_eq _ _ _ _ _ (get_root_eq s)). rewrite Hroot.
  destruct T as [|l a r]; cbn [top].
  - simpl in Hlen. symmetry in Hlen. apply length_zero_iff_nil in Hlen.
    rewrite (bind_eq _ _ _ _ _ (new_node_eq _ _ _ _)). unfold set_root.
    rewrite Hlen. cbn [nodes root length app].
    eexists _, (SNode SLeaf 0%nat SLeaf), 0%nat.
    split; [reflexivity|]. split_and!.
    + split.
      * split_and!; [done| |done|].
        -- simpl. eexists. split; [reflexivity|]. done.
        -- simpl. apply NoDup_singleton.
      * unfold entries. simpl. repeat constructor.
    + done.
    + done.
    + done.
    + intros Hin. by apply elem_of_nil in Hin.
    + done.
  - rewrite entries_keys in *.
    destruct (insert_loop_spec (SNode l a r) (S (length (nodes s))) s [] k v)
      as (s' & Hrun & Hinv' & Hent & Hentry & Hin & Hnin);
      [done|done|by split|lia|].
    cbv zeta in *. cbn [ctx_left ctx_right fmap list_fmap app] in Hent.
    rewrite app_nil_r in Hent.
    fold (entries s (SNode l a r)) in Hent.
    eexists s', _, _.
    rewrite (bind_eq _ _ _ _ _ (loop_fuel_eq s)).
    split; [exact Hrun|]. split_and!.
    + split; [done|]. rewrite Hent. apply ins_sorted.
      by rewrite entries_keys.
    + done.
    + destruct Hinv' as (-> & _). apply insert_shape_top.
    + done.
    + intros Hk. by apply Hin.
    + intros Hk. by apply Hnin.
Qed.

End insert_specs.

Section observations.
Import SplayTree.
Local Open Scope splay_scope.
Implicit Types (h : list _Node) (s : SplayTree.t) (t : shape) (c : list frame).

Lemma bst_inv_empty : bst_inv empty SLeaf.
Proof.
  split; [|constructor]. split_and!; [done|done|done|constructor].
Qed.

(** Every sequence of calls runs to its end and leaves a search tree. *)
Lemma run_ops_spec os s T :
  bst_inv s T → ∃ s' T', run_ops os s = Some (tt, s') ∧ bst_inv s' T'.
Proof.
  revert s T. induction os as [|o os IH]; intros s T Hinv; simpl.
  - by exists s, T.
  - destruct o as [k|k v]; simpl.
    + destruct (tree_get_spec s T k Hinv) as (s1 & T1 & Hget & Hinv1 & _).
      rewrite bind_assoc, (bind_eq _ _ _ _ _ Hget), bind_ret.
      by apply (IH s1 T1).
    + destruct (tree_insert_spec s T k v Hinv)
        as (s1 & T1 & x & Hins & Hinv1 & _).
      rewrite (bind_eq _ _ _ _ _ Hins). by apply (IH s1 T1).
Qed.

(** The traversal of the store lists the nodes of the shape. *)
Lemma inorder_rep fuel h par t :
  rep h par t → (length (locs t) ≤ fuel)%nat →
  inorder fuel h (top t) = Some (locs t).
Proof.
  revert fuel par. induction t as [|l IHl x r IHr]; intros fuel par.
  { by destruct fuel. }
  simpl. intros (n & Hn & Hl & Hr & _ & Hl' & Hr').
  rewrite length_app. simpl. intros Hfuel.
  destruct fuel as [|fuel]; [lia|]. simpl. rewrite Hn, Hl, Hr.
  rewrite (IHl fuel (Some x)), (IHr fuel (Some x)); [done|done|lia|done|lia].
Qed.

Lemma inorder_keys_spec s T :
  tree_inv s T → inorder_keys s = Some (entries s T).*1.
Proof.
  intros (Hroot & Hrep & Hlen & _). unfold inorder_keys.
  rewrite Hroot, (inorder_rep _ _ None T Hrep) by lia.
  by rewrite entries_keys.
Qed.

Lemma last_visited_rep fuel h par t k :
  rep h par t → (length (locs t) < fuel)%nat →
  last_visited fuel h k (top t) = last_shape (key_at h) k t.
Proof.
  revert fuel par. induction t as [|l IHl x r IHr]; intros fuel par.
  { by destruct fuel. }
  simpl. intros (n & Hn & Hl & Hr & _ & Hl' & Hr').
  rewrite length_app. simpl. intros Hfuel.
  destruct fuel as [|fuel]; [lia|]. simpl.
  rewrite Hn, (key_at_lookup _ _ _ Hn), Hl, Hr.
  destruct (k =? key n); [done|]. destruct (k <? key n).
  - destruct l as [|ll b lr]; [done|]. apply (IHl fuel (Some x)); [done|lia].
  - destruct r as [|rl b rr]; [done|]. apply (IHr fuel (Some x)); [done|lia].
Qed.

(** The nodes of the tree are exactly the objects of the store. *)
Lemma tree_inv_all_locs s T x :
  tree_inv s T → x ∈ locs T ↔ (x < length (nodes s))%nat.
Proof.
  intros Hinv. split.
  - intros Hx. apply lookup_lt_is_Some. by eapply tree_inv_lookup.
  - intros Hx. pose proof (tree_inv_NoDup _ _ Hinv) as Hnd.
    destruct Hinv as (_ & Hrep & Hlen & _).
    apply list_elem_of_In.
    apply (NoDup_length_incl (l := locs T) (l' := seq 0 (length (nodes s)))).
    + by apply NoDup_ListNoDup.
    + rewrite length_seq. lia.
    + intros y Hy%list_elem_of_In. apply in_seq. split; [lia|]. simpl.
      apply lookup_lt_is_Some. by eapply rep_lookup.
    + apply in_seq. lia.
Qed.

Lemma plug_app c1 c2 t : plug (c1 ++ c2) t = plug c2 (plug c1 t).
Proof. revert t. induction c1 as [|f c1 IH]; intros t; simpl; [done|apply IH]. Qed.

(** Every node of a shape is the focus of a path. *)
Lemma focus_exists T x : x ∈ locs T → ∃ c l r, T = plug c (SNode l x r).
Proof.
  induction T as [|L IHL a R IHR]; simpl.
  { intros Hx. by apply elem_of_nil in Hx. }
  rewrite elem_of_app, elem_of_cons. intros [Hx|[->|Hx]].
  - destruct (IHL Hx) as (c & l & r & ->).
    exists (c ++ [InLeft a R]), l, r. by rewrite plug_app.
  - by exists [], L, R.
  - destruct (IHR Hx) as (c & l & r & ->).
    exists (c ++ [InRight L a]), l, r. by rewrite plug_app.
Qed.

(** A rotation about any node keeps the in-order sequence of entries. *)
Lemma right_rotate_any s T x :
  tree_inv s T → x ∈ locs T →
  ∃ s' T', _right_rotate x s = Some (tt, s') ∧ tree_inv s' T' ∧
    entries s' T' = entries s T.
Proof.
  intros Hinv Hx. destruct (focus_exists T x Hx) as (c & l & r & ->).
  destruct l as [|A y B].
  - destruct (focus_node _ _ _ _ _ Hinv) as (n & Hn & Hl & _).
    exists s, (plug c (SNode SLeaf x r)). split; [|done].
    unfold _right_rotate. mread get_left_eq. by rewrite Hl.
  - destruct (right_rotate_spec _ _ _ _ _ _ _ Hinv) as (s' & Hrun & Hinv' & Hd).
    exists s', (plug c (SNode A y (SNode B x r))). split_and!; [done|done|].
    apply entries_same_data; [done|]. rewrite !locs_plug. simpl.
    by repeat (rewrite <- app_assoc; simpl).
Qed.

Lemma left_rotate_any s T x :
  tree_inv s T → x ∈ locs T →
  ∃ s' T', _left_rotate x s = Some (tt, s') ∧ tree_inv s' T' ∧
    entries s' T' = entries s T.
Proof.
  intros Hinv Hx. destruct (focus_exists T x Hx) as (c & l & r & ->).
  destruct r as [|B y D].
  - destruct (focus_node _ _ _ _ _ Hinv) as (n & Hn & _ & Hr & _).
    exists s, (plug c (SNode l x SLeaf)). split; [|done].
    unfold _left_rotate. mread get_right_eq. by rewrite Hr.
  - destruct (left_rotate_spec _ _ _ _ _ _ _ Hinv) as (s' & Hrun & Hinv' & Hd).
    exists s', (plug c (SNode (SNode l x B) y D)). split_and!; [done|done|].
    apply entries_same_data; [done|]. rewrite !locs_plug. simpl.
    by repeat (rewrite <- app_assoc; simpl).
Qed.

End observations.

Section last_node.
Import SplayTree.

Lemma last_shape_found (kf : loc → Z) k t :
  StronglySorted Z.lt (kf <$> locs t) → k ∈ kf <$> locs t →
  ∃ x, last_shape kf k t = Some x ∧ x ∈ locs t ∧ kf x = k.
Proof.
  induction t as [|l IHl a r IHr]; intros Hsorted Hin.
  { by apply elem_of_nil in Hin. }
  pose proof Hsorted as Hsplit. cbn [locs] in Hsplit.
  apply sorted_split in Hsplit as [Hlt Hgt].
  rewrite Forall_forall in Hlt, Hgt.
  cbn [locs] in Hsorted. rewrite fmap_app, fmap_cons in Hsorted.
  apply StronglySorted_app in Hsorted
    as (_ & Hsl & [_ Hsr]%StronglySorted_cons).
  cbn [last_shape].
  destruct (Z.eqb_spec k (kf a)) as [->|Hne].
  { exists a. split_and!; [done| |done]. simpl. in_search. }
  destruct (Z.ltb_spec k (kf a)) as [Hk|Hk].
  - apply key_in_left in Hin; [|done|intros x Hx; specialize (Hgt _ Hx); lia].
    destruct (IHl Hsl Hin) as (x & Hx & Hxl & Hkx).
    destruct l as [|ll b lr]; [by apply elem_of_nil in Hin|].
    exists x. split_and!; [done| |done]. cbn [locs]. in_search.
  - apply key_in_right in Hin; [|done|intros x Hx; specialize (Hlt _ Hx); lia].
    destruct (IHr Hsr Hin) as (x & Hx & Hxr & Hkx).
    destruct r as [|rl b rr]; [by apply elem_of_nil in Hin|].
    exists x. split_and!; [done| |done]. cbn [locs]. in_search.
Qed.

End last_node.

(* ===================================================================== *)
(** * The splay tree: the claims *)

Section splay_claims.
Import SplayTree.
Local Open Scope splay_scope.

(** C4 (search-tree order).  After every sequence of [insert] and [get]
    calls on an empty tree the calls have all returned, the in-order
    traversal of the tree visits every node, and its keys are strictly
    increasing.  A single [_right_rotate] or [_left_rotate] about any
    node [x] of that tree returns and leaves the in-order key sequence as
    it was. *)
Theorem C4_bst_order (os : list op) (x : loc) :
  ∃ s ks,
    run_ops os empty = Some (tt, s) ∧
    inorder_keys s = Some ks ∧
    length ks = length (nodes s) ∧
    StronglySorted Z.lt ks ∧
    ((x < length (nodes s))%nat →
     ∃ s1 s2,
       _right_rotate x s = Some (tt, s1) ∧ inorder_keys s1 = Some ks ∧
       _left_rotate x s = Some (tt, s2) ∧ inorder_keys s2 = Some ks).
Proof.
  destruct (run_ops_spec os empty SLeaf bst_inv_empty)
    as (s & T & Hrun & Hinv & Hsorted).
  exists s, (entries s T).*1. split_and!; [done| |  |done|].
  - by apply inorder_keys_spec.
  - rewrite entries_keys, length_fmap. by destruct Hinv as (_ & _ & ? & _).
  - intros Hx%(tree_inv_all_locs s T x Hinv).
    destruct (right_rotate_any s T x Hinv Hx) as (s1 & T1 & Hr1 & Hinv1 & He1).
    destruct (left_rotate_any s T x Hinv Hx) as (s2 & T2 & Hr2 & Hinv2 & He2).
    exists s1, s2. split_and!; [done| |done|].
    + by rewrite (inorder_keys_spec _ _ Hinv1), He1.
    + by rewrite (inorder_keys_spec _ _ Hinv2), He2.
Qed.

Lemma C4_bst_order_witness :
  ∃ s, run_ops [Insert 5 5; Insert 3 3; Insert 8 8; Get 3] empty = Some (tt, s) ∧
    inorder_keys s = Some [3; 5; 8] ∧
    StronglySorted Z.lt [3; 5; 8].
Proof.
  destruct (C4_bst_order [Insert 5 5; Insert 3 3; Insert 8 8; Get 3] 0%nat)
    as (s & ks & Hrun & Hin & _ & Hs & _).
  exists s. split; [exact Hrun|].
  assert (Some ks = Some [3; 5; 8]) as [= ->].
  { rewrite <- Hin. vm_compute in Hrun. injection Hrun as <-. reflexivity. }
  split; [exact Hin | exact Hs].
Defined.

Lemma entry_at_lookup s x n :
  nodes s !! x = Some n → entry_at s x = (key n, value n).
Proof. intros H. unfold entry_at, key_at, value_at. by rewrite H. Qed.

Lemma keys_elem_of s T k :
  tree_inv s T →
  k ∈ (entries s T).*1 ↔ ∃ y ny, nodes s !! y = Some ny ∧ key ny = k.
Proof.
  intros Hinv. rewrite entries_keys, list_elem_of_fmap. split.
  - intros (y & -> & Hy). destruct (tree_inv_lookup _ _ _ Hinv Hy) as [ny Hny].
    exists y, ny. split; [done|]. by rewrite (key_at_lookup _ _ _ Hny).
  - intros (y & ny & Hny & <-). exists y.
    split; [by rewrite (key_at_lookup _ _ _ Hny)|].
    apply (tree_inv_all_locs s T y Hinv). by eapply lookup_lt_Some.
Qed.

(** C3 (self-adjustment).  In the state [s] reached by any sequence of
    calls from the empty tree:
    - [get k] returns; on the empty tree it returns ABSENT and changes
      nothing; otherwise the new root is the node at which the descent
      for [k] stops in [s], which is the node with key [k], whose value
      is returned, when there is one, and the last node visited, with
      ABSENT returned, when no node has key [k];
    - [insert k v] returns, and the new root is a node with key [k] and
      value [v], the only node with that key; when [s] has a node with
      key [k] the root is that same node and no node is created; when it
      has none the root is the node just created. *)
Theorem C3_self_adjustment (os : list op) (k v : Z) :
  ∃ s, run_ops os empty = Some (tt, s) ∧
    (∃ r s', get k s = Some (r, s') ∧
       match root s with
       | None => r = None ∧ s' = s
       | Some _ =>
           root s' = last_visited (S (length (nodes s))) (nodes s) k (root s) ∧
           length (nodes s') = length (nodes s) ∧
           match r with
           | Some v' =>
               ∃ x n, root s' = Some x ∧ nodes s' !! x = Some n ∧
                      key n = k ∧ value n = v'
           | None =>
               is_Some (root s') ∧
               ∀ y ny, nodes s !! y = Some ny → key ny ≠ k
           end
       end) ∧
    (∃ s' x n, insert k v s = Some (tt, s') ∧
       root s' = Some x ∧ nodes s' !! x = Some n ∧ key n = k ∧ value n = v ∧
       (∀ y ny, nodes s' !! y = Some ny → key ny = k → y = x) ∧
       (∀ y ny, nodes s !! y = Some ny → key ny = k →
                x = y ∧ length (nodes s') = length (nodes s)) ∧
       ((∀ y ny, nodes s !! y = Some ny → key ny ≠ k) →
        x = length (nodes s) ∧ length (nodes s') = S (length (nodes s)))).
Proof.
  destruct (run_ops_spec os empty SLeaf bst_inv_empty) as (s & T & Hrun & Hinv).
  exists s. split; [done|]. split.
  - destruct (tree_get_spec s T k Hinv)
      as (s' & T' & Hget & Hinv' & Hent & Hd & Hleaf & Hnode).
    exists (assoc k (entries s T)), s'. split; [done|].
    destruct Hinv as [Hinv Hsorted]. destruct Hinv' as [Hinv' _].
    pose proof Hinv as (Hroot & Hrep & Hlen & _).
    rewrite Hroot. destruct T as [|l a r]; cbn [top].
    { split; [done|by apply Hleaf]. }
    specialize (Hnode ltac:(done)).
    split.
    { rewrite Hnode. symmetry.
      apply (last_visited_rep _ _ None (SNode l a r)); [done|lia]. }
    split; [by destruct Hd|].
    destruct (assoc k (entries s (SNode l a r))) as [v'|] eqn:Hassoc.
    + assert (k ∈ (entries s (SNode l a r)).*1) as Hk.
      { apply assoc_Some_elem_of in Hassoc. apply list_elem_of_fmap.
        by exists (k, v'). }
      rewrite entries_keys in Hk, Hsorted.
      destruct (last_shape_found _ _ _ Hsorted Hk) as (x & Hx & Hxin & Hkx).
      rewrite Hx in Hnode.
      assert (x ∈ locs T') as Hx'.
      { apply (tree_inv_all_locs s' T' x Hinv'). destruct Hd as [-> _].
        by apply (tree_inv_all_locs s _ x Hinv). }
      destruct (tree_inv_lookup _ _ _ Hinv' Hx') as [n Hn].
      exists x, n. split_and!; [done|done| |].
      * rewrite <- (key_at_lookup _ _ _ Hn). by rewrite (same_data_key_at _ _ _ Hd).
      * assert (assoc k (entries s (SNode l a r))
                = Some (value_at (nodes s) x)) as Hv.
        { apply assoc_elem_of.
          - apply sorted_NoDup. by rewrite entries_keys.
          - apply list_elem_of_fmap. exists x. split; [|done].
            unfold entry_at. by rewrite Hkx. }
        rewrite Hassoc in Hv. injection Hv as ->.
        rewrite <- (same_data_value_at _ _ _ Hd). unfold value_at. by rewrite Hn.
    + split.
      { rewrite Hnode. destruct (last_shape (key_at (nodes s)) k (SNode l a r)) eqn:E;
          [done|].
        exfalso. clear -E. revert E. generalize (key_at (nodes s)). intros kf.
        assert (∀ t, t ≠ SLeaf → last_shape kf k t ≠ None) as H.
        { clear. intros t0. induction t0 as [|l IHl a r IHr]; [done|].
          intros _. simpl.
          destruct (k =? kf a); [done|]. destruct (k <? kf a).
          - destruct l; [done|]. by apply IHl.
          - destruct r; [done|]. by apply IHr. }
        by apply H. }
      intros y ny Hy Hk. apply assoc_None in Hassoc. apply Hassoc.
      apply (keys_elem_of _ _ _ Hinv). by exists y, ny.
  - destruct (tree_insert_spec s T k v Hinv)
      as (s' & T' & x & Hins & [Hinv' Hsorted'] & Hent & Hroot' & Hentry & Hin & Hnin).
    destruct Hinv as [Hinv Hsorted].
    assert (x ∈ locs T') as Hx'.
    { apply top_elem_of. by destruct Hinv' as (<- & _). }
    destruct (tree_inv_lookup _ _ _ Hinv' Hx') as [n Hn].
    rewrite (entry_at_lookup _ _ _ Hn) in Hentry. injection Hentry as Hk Hv.
    exists s', x, n. split_and!; try done.
    + intros y ny Hy Hky. apply (key_at_inj s' T' y x Hinv').
      * apply (tree_inv_all_locs s' T' y Hinv'). by eapply lookup_lt_Some.
      * done.
      * rewrite (key_at_lookup _ _ _ Hy), (key_at_lookup _ _ _ Hn). congruence.
    + intros y ny Hy Hky.
      destruct Hin as (Hlen & Hxin & Hkx).
      { apply (keys_elem_of _ _ _ Hinv). by exists y, ny. }
      split; [|done]. apply (key_at_inj s T x y Hinv); [done| |].
      * apply (tree_inv_all_locs s T y Hinv). by eapply lookup_lt_Some.
      * rewrite (key_at_lookup _ _ _ Hy). congruence.
    + intros Hno. destruct Hnin as [Hlen Hx].
      { intros (y & ny & Hy & Hky)%(keys_elem_of _ _ _ Hinv). by eapply Hno. }
      done.
Qed.

End splay_claims.

(* ===================================================================== *)
(** * The memoized Fibonacci functions *)

Section fibonacci.
Import SplayTree.
Local Open Scope splay_scope.

Lemma fib_base n : 0 ≤ n → n < 2 → fib (Z.to_nat n) = n.
Proof.
  intros H0 H2. assert (n = 0 ∨ n = 1) as [->| ->] by lia; done.
Qed.

Lemma fib_step n :
  2 ≤ n → fib (Z.to_nat n) = fib (Z.to_nat (n - 1)) + fib (Z.to_nat (n - 2)).
Proof.
  intros H. replace (Z.to_nat n) with (S (S (Z.to_nat (n - 2)))) by lia.
  replace (Z.to_nat (n - 1)) with (S (Z.to_nat (n - 2))) by lia. done.
Qed.

Lemma cache_ok_insert cache n r :
  cache_ok cache → 0 ≤ n → r = fib (Z.to_nat n) → cache_ok (<[n := r]> cache).
Proof.
  intros Hok Hn -> k r'. rewrite lookup_insert.
  destruct (decide (n = k)) as [->|]; [|apply Hok].
  by intros [= <-].
Qed.

Lemma fibonacci_lru_rec_spec fuel n cache :
  0 ≤ n → (Z.to_nat n < fuel)%nat → cache_ok cache →
  ∃ cache', fibonacci_lru_rec fuel n cache = Some (fib (Z.to_nat n), cache') ∧
    cache_ok cache'.
Proof.
  revert n cache. induction fuel as [|fuel IH]; intros n cache Hn Hfuel Hok; [lia|].
  simpl. destruct (cache !! n) as [r|] eqn:Hc.
  { destruct (Hok _ _ Hc) as [_ ->]. by exists cache. }
  destruct (Z.ltb_spec n 2).
  - rewrite (fib_base n) by done. eexists. split; [done|].
    apply cache_ok_insert; [done|done|]. by rewrite fib_base.
  - destruct (IH (n - 1) cache) as (c1 & -> & Hok1); [lia|lia|done|].
    destruct (IH (n - 2) c1) as (c2 & -> & Hok2); [lia|lia|done|].
    rewrite <- fib_step by done. eexists. split; [done|].
    by apply cache_ok_insert.
Qed.

Lemma fib_entries_ins n r kvs :
  fib_entries kvs → 0 ≤ n → r = fib (Z.to_nat n) → fib_entries (ins n r kvs).
Proof.
  intros Hall Hn ->. induction Hall as [|[k v] kvs Hkv Hall IH]; simpl.
  - by repeat constructor.
  - destruct (n <? k).
    { constructor; [done|]. by constructor. }
    destruct (n =? k); by constructor.
Qed.

Lemma fibonacci_splay_rec_spec fuel n s T :
  0 ≤ n → (Z.to_nat n < fuel)%nat →
  bst_inv s T → fib_entries (entries s T) →
  ∃ s' T', fibonacci_splay_rec fuel n s = Some (fib (Z.to_nat n), s') ∧
    bst_inv s' T' ∧ fib_entries (entries s' T').
Proof.
  revert n s T. induction fuel as [|fuel IH]; intros n s T Hn Hfuel Hinv Hfib; [lia|].
  cbn [fibonacci_splay_rec].
  destruct (tree_get_spec s T n Hinv) as (s0 & T0 & Hget & Hinv0 & Hent0 & _).
  rewrite (bind_eq _ _ _ _ _ Hget). rewrite <- Hent0 in Hfib.
  destruct (assoc n (entries s T)) as [r|] eqn:Hassoc.
  { apply assoc_Some_elem_of in Hassoc. rewrite <- Hent0 in Hassoc.
    unfold fib_entries in Hfib. rewrite Forall_forall in Hfib.
    destruct (Hfib _ Hassoc) as [_ Hr]. simpl in Hr. subst r.
    exists s0, T0. split_and!; [done|done|by apply Forall_forall]. }
  destruct (Z.ltb_spec n 2).
  - destruct (tree_insert_spec s0 T0 n n Hinv0)
      as (s1 & T1 & x & Hins & Hinv1 & Hent1 & _).
    rewrite (bind_eq _ _ _ _ _ Hins). cbv beta. unfold ret.
    exists s1, T1. rewrite (fib_base n) by done. split_and!; [done|done|].
    rewrite Hent1. apply fib_entries_ins; [done|done|]. by rewrite fib_base.
  - destruct (IH (n - 1) s0 T0) as (s1 & T1 & Hr1 & Hinv1 & Hfib1);
      [lia|lia|done|done|].
    rewrite (bind_eq _ _ _ _ _ Hr1).
    destruct (IH (n - 2) s1 T1) as (s2 & T2 & Hr2 & Hinv2 & Hfib2);
      [lia|lia|done|done|].
    rewrite (bind_eq _ _ _ _ _ Hr2). cbv zeta.
    rewrite <- fib_step by done.
    destruct (tree_insert_spec s2 T2 n (fib (Z.to_nat n)) Hinv2)
      as (s3 & T3 & x & Hins & Hinv3 & Hent3 & _).
    rewrite (bind_eq _ _ _ _ _ Hins). cbv beta. unfold ret.
    exists s3, T3. split_and!; [done|done|].
    rewrite Hent3. by apply fib_entries_ins.
Qed.

(** C10 (the two memoized implementations agree).  For every [n ≥ 0],
    [fibonacci_splay(n, t)] on a fresh tree returns the [n]-th Fibonacci
    number, and so does [fibonacci_lru(n)], on an empty cache and on any
    cache that earlier calls have filled. *)
Theorem C10_fibonacci_agree (n : Z) :
  0 ≤ n →
  (∃ t', fibonacci_splay n empty = Some (fib (Z.to_nat n), t')) ∧
  (∃ c', fibonacci_lru n ∅ = Some (fib (Z.to_nat n), c')) ∧
  (∀ cache, cache_ok cache →
     ∃ c', fibonacci_lru n cache = Some (fib (Z.to_nat n), c') ∧ cache_ok c').
Proof.
  intros Hn. split_and!.
  - destruct (fibonacci_splay_rec_spec (S (Z.to_nat n)) n empty SLeaf)
      as (s' & T' & Hrun & _); [done|lia|apply bst_inv_empty|constructor|].
    by exists s'.
  - destruct (fibonacci_lru_rec_spec (S (Z.to_nat n)) n ∅)
      as (c' & Hrun & _); [done|lia|by intros k r; rewrite lookup_empty|].
    by exists c'.
  - intros cache Hok. by apply fibonacci_lru_rec_spec; [|lia|].
Qed.

Lemma C10_fibonacci_agree_witness :
  0 ≤ 20 ∧
  (∃ t', fibonacci_splay 20 empty = Some (6765, t')) ∧
  (∃ c', fibonacci_lru 20 ∅ = Some (6765, c')).
Proof.
  split; [lia|].
  destruct (C10_fibonacci_agree 20) as (H1 & H2 & _); [lia|].
  split; [exact H1 | exact H2].
Defined.

End fibonacci.

(* ===================================================================== *)
(** * The recency cache and the query loop: further properties *)

Section lru_extras.
Import OrderedDict LRUCache.
Implicit Types (c : LRUCache.t) (d : OrderedDict.t) (k : Key) (v : Z).

Lemma range_sum_with_cache_total (a : Array) l r c :
  ∃ res, range_sum_with_cache a l r c = Ok res.
Proof.
  rewrite range_sum_with_cache_spec.
  destruct (lookup (l, r) (_cache c)) as [v|].
  - destruct (v =? -1); [rewrite put_spec|]; simpl; eauto.
  - rewrite put_spec; simpl; eauto.
Qed.

Lemma range_sum_with_cache_wf (a : Array) l r c res :
  dict_wf (_cache c) → range_sum_with_cache a l r c = Ok res →
  dict_wf (_cache res.2).
Proof.
  intros Hd. unfold range_sum_with_cache.
  destruct (get (l, r) c) as [[v c1]|] eqn:Hg; simpl; [|done].
  pose proof (get_wf _ _ _ Hd Hg) as Hd1. simpl in Hd1.
  destruct (v =? -1).
  - destruct (put _ _ c1) as [c2|] eqn:Hp; simpl; [|done].
    intros [= <-]. simpl. by eapply put_wf.
  - by intros [= <-].
Qed.

Lemma list_setitem_length (a : Array) idx v a' :
  list_setitem a idx v = Ok a' → length a' = length a.
Proof.
  unfold list_setitem. case_match; [|done]. intros [= <-].
  by rewrite length_insert.
Qed.

Lemma list_setitem_ok (a : Array) idx v :
  - Z.of_nat (length a) ≤ idx ∧ idx < Z.of_nat (length a) →
  list_setitem a idx v
    = Ok (<[Z.to_nat (idx `mod` Z.of_nat (length a)) := v]> a).
Proof.
  intros H. unfold list_setitem.
  destruct (Z.ltb_spec idx 0).
  - rewrite andb_true_intro by (split; [apply Z.leb_le|apply Z.ltb_lt]; lia).
    do 3 f_equal.
    rewrite <- (Z.mod_unique_pos idx (Z.of_nat (length a)) (-1)
                  (idx + Z.of_nat (length a))); lia.
  - rewrite andb_true_intro by (split; [apply Z.leb_le|apply Z.ltb_lt]; lia).
    by rewrite Z.mod_small by lia.
Qed.

Lemma list_setitem_raise (a : Array) idx v :
  idx < - Z.of_nat (length a) ∨ Z.of_nat (length a) ≤ idx →
  list_setitem a idx v = Raise IndexError.
Proof.
  intros H. unfold list_setitem.
  destruct (Z.ltb_spec idx 0).
  - destruct (Z.leb_spec 0 (idx + Z.of_nat (length a))); [lia|done].
  - destruct (Z.ltb_spec idx (Z.of_nat (length a))); [lia|].
    by rewrite andb_false_r.
Qed.

Lemma run_queries_loop_transparent qs : ∀ (a : Array) c chk,
  Forall nonneg_query qs → cache_inv a c →
  (st ←! _run_queries_loop qs (a, Some c, chk); Ok (st.1.1, st.2))
  = (st ←! _run_queries_loop qs (a, None, chk); Ok (st.1.1, st.2)).
Proof.
  induction qs as [|q qs IH]; intros a c chk Hq Hinv; [done|].
  apply Forall_cons in Hq as [Hq Hqs]. cbn [_run_queries_loop].
  destruct q as [l r|idx v]; simpl in Hq; unfold _run_queries_body.
  - destruct Hq as [Hl Hr].
    destruct (range_sum_with_cache_total a l r c) as [res Hres].
    rewrite Hres.
    destruct (cache_inv_range _ _ _ _ _ Hinv Hl Hr Hres) as [Hv Hinv'].
    unfold range_sum_no_cache. simpl. rewrite Hv. by apply IH.
  - assert (∀ a' c', update_with_cache a idx v c = Ok (a', c') →
                     cache_inv a' c') as Hup.
    { intros a' c'. by apply cache_inv_update. }
    unfold update_no_cache. unfold update_with_cache in *.
    destruct (list_setitem a idx v) as [a1|] eqn:Hs; simpl; [|done].
    simpl in Hup. rewrite invalidate_spec in * by apply Hinv. simpl.
    simpl in Hup. apply IH; [done|]. by apply Hup.
Qed.

(** X1 (the cache is transparent).  For queries whose range bounds and
    update indices are not negative, [_run_queries] with the cache ends
    with the same list and the same checksum as without it, or fails
    with the same exception. *)
Theorem X1_cache_transparency (array : Array) (queries : list query) :
  Forall nonneg_query queries →
  _run_queries array queries true = _run_queries array queries false.
Proof.
  intros Hq. unfold _run_queries. simpl.
  apply run_queries_loop_transparent; [done|].
  split; simpl; [apply NoDup_nil_2|done].
Qed.

Lemma X1_cache_transparency_witness :
  Forall nonneg_query [Range 0 4; Update 2 100; Range 1 3; Range 0 4] ∧
  _run_queries [1; 2; 3; 4; 5]
    [Range 0 4; Update 2 100; Range 1 3; Range 0 4] true
    = Ok ([1; 2; 100; 4; 5], Z.lxor (Z.lxor 15 106) 112) ∧
  _run_queries [1; 2; 3; 4; 5]
    [Range 0 4; Update 2 100; Range 1 3; Range 0 4] true
    = _run_queries [1; 2; 3; 4; 5]
        [Range 0 4; Update 2 100; Range 1 3; Range 0 4] false.
Proof.
  assert (Forall nonneg_query [Range 0 4; Update 2 100; Range 1 3; Range 0 4]) as Hq.
  { repeat constructor; simpl; lia. }
  split; [exact Hq|]. split; [reflexivity|].
  exact (X1_cache_transparency [1; 2; 3; 4; 5] _ Hq).
Defined.

Lemma run_queries_loop_failure qs : ∀ (a : Array) (oc : option LRUCache.t) chk,
  (∀ c, oc = Some c → dict_wf (_cache c)) →
  (Forall (index_ok (Z.of_nat (length a))) qs →
     ∃ a' oc' chk', _run_queries_loop qs (a, oc, chk) = Ok (a', oc', chk') ∧
       length a' = length a) ∧
  (¬ Forall (index_ok (Z.of_nat (length a))) qs →
     _run_queries_loop qs (a, oc, chk) = Raise IndexError).
Proof.
  induction qs as [|q qs IH]; intros a oc chk Hwf.
  { split; [by eauto|]. intros H. by destruct H. }
  cbn [_run_queries_loop]. destruct q as [l r|idx v].
  - assert (∃ oc' chk', _run_queries_body (Range l r) (a, oc, chk)
                          = Ok (a, oc', chk') ∧
                        ∀ c, oc' = Some c → dict_wf (_cache c))
      as (oc' & chk' & -> & Hwf').
    { unfold _run_queries_body. destruct oc as [c|].
      - destruct (range_sum_with_cache_total a l r c) as [res Hres].
        rewrite Hres. simpl. eexists _, _. split; [done|].
        intros ? [= <-]. eapply range_sum_with_cache_wf; [|done]. by apply Hwf.
      - simpl. eexists _, _. split; [done|]. done. }
    simpl. destruct (IH a oc' chk' Hwf') as [IH1 IH2]. split.
    + intros [_ H]%Forall_cons. by apply IH1.
    + intros H. apply IH2. intros H'. apply H. by constructor.
  - destruct (decide (- Z.of_nat (length a) ≤ idx ∧ idx < Z.of_nat (length a)))
      as [Hin|Hout].
    + assert (∃ a' oc', _run_queries_body (Update idx v) (a, oc, chk)
                          = Ok (a', oc', chk) ∧ length a' = length a ∧
                        ∀ c, oc' = Some c → dict_wf (_cache c))
        as (a' & oc' & -> & Hlen & Hwf').
      { unfold _run_queries_body, update_with_cache, update_no_cache.
        rewrite (list_setitem_ok a idx v Hin). destruct oc as [c|]; simpl.
        - rewrite invalidate_spec by by apply Hwf. simpl.
          eexists _, _. split; [done|]. split; [by rewrite length_insert|].
          intros ? [= <-]. simpl. apply filter_wf. by apply Hwf.
        - eexists _, _. split; [done|]. split; [by rewrite length_insert|done]. }
      simpl. destruct (IH a' oc' chk Hwf') as [IH1 IH2]. rewrite Hlen in *.
      split.
      * intros [_ H]%Forall_cons. destruct (IH1 H) as (a2 & oc2 & chk2 & ? & ?).
        eauto 10.
      * intros H. apply IH2. intros H'. apply H. by constructor.
    + assert (_run_queries_body (Update idx v) (a, oc, chk) = Raise IndexError)
        as ->.
      { unfold _run_queries_body, update_with_cache, update_no_cache.
        rewrite (list_setitem_raise a idx v) by lia. by destruct oc. }
      split; [|done]. intros [H _]%Forall_cons. by destruct Hout.
Qed.

(** The two runs on queries within the list. *)
Lemma two_runs_agree (array : Array) (queries : list query) :
  Forall (in_bounds (Z.of_nat (length array))) queries →
  ∃ a checksum,
    _run_queries array queries false = Ok (a, checksum) ∧
    _run_queries array queries true = Ok (a, checksum) ∧
    length a = length array.
Proof.
  intros Hq.
  assert (Forall (index_ok (Z.of_nat (length array))) queries) as Hok.
  { eapply Forall_impl; [exact Hq|].
    intros [l r|idx v]; cbn [in_bounds index_ok]; lia. }
  assert (Forall nonneg_query queries) as Hnn.
  { eapply Forall_impl; [exact Hq|].
    intros [l r|idx v]; cbn [in_bounds nonneg_query]; lia. }
  destruct (run_queries_loop_failure queries array None 0) as [Hrun _]; [done|].
  destruct (Hrun Hok) as (a & oc & chk & Hloop & Hlen).
  pose proof (run_queries_loop_transparent queries array
                {| capacity := 1000; _cache := [] |} 0 Hnn) as Heq.
  rewrite Hloop in Heq. exists a, chk. unfold _run_queries. simpl.
  rewrite Hloop. split; [done|]. split; [|done].
  apply Heq. split; simpl; [apply NoDup_nil_2|done].
Qed.

(** X2 (the only failure of a run).  With and without the cache,
    [_run_queries] runs to the end of the queries when every update
    index lies in [-len, len) for the list, and the list then keeps its
    length; otherwise the run raises [IndexError].  No range query and
    no operation of the cache fails. *)
Theorem X2_only_failure_of_a_run (array : Array) (queries : list query)
    (use_cache : bool) :
  (Forall (index_ok (Z.of_nat (length array))) queries →
     ∃ a checksum, _run_queries array queries use_cache = Ok (a, checksum) ∧
       length a = length array) ∧
  (¬ Forall (index_ok (Z.of_nat (length array))) queries →
     _run_queries array queries use_cache = Raise IndexError).
Proof.
  unfold _run_queries.
  set (oc := if use_cache then Some {| capacity := 1000; _cache := [] |}
             else None).
  assert ((if use_cache then c ←! __init__ 1000; Ok (Some c) else Ok None)
          = Ok oc) as -> by by destruct use_cache.
  simpl.
  assert (∀ c, oc = Some c → dict_wf (_cache c)) as Hwf.
  { intros c. destruct use_cache; [|done]. intros [= <-]. apply NoDup_nil_2. }
  destruct (run_queries_loop_failure queries array oc 0 Hwf) as [H1 H2]. split.
  - intros H. destruct (H1 H) as (a & oc' & chk & -> & Hlen). simpl. eauto.
  - intros H. by rewrite (H2 H).
Qed.

Lemma sum_insert (l : Array) i v x :
  l !! i = Some x → sum (<[i := v]> l) = sum l - x + v.
Proof.
  revert i. induction l as [|y l IH]; intros [|i]; simpl; try done.
  - intros [= ->]. lia.
  - intros H. rewrite (IH i H). lia.
Qed.

Lemma py_slice_insert_inside (a : Array) l r idx v x :
  0 ≤ l → l ≤ idx → idx ≤ r → a !! Z.to_nat idx = Some x →
  sum (py_slice (<[Z.to_nat idx := v]> a) l (r + 1))
    = sum (py_slice a l (r + 1)) - x + v.
Proof.
  intros Hl Hli Hir Hx. rewrite !py_slice_nonneg by lia.
  rewrite drop_insert_ge by lia. rewrite take_insert_lt by lia.
  apply sum_insert. rewrite lookup_take_lt by lia. rewrite lookup_drop.
  rewrite <- Hx. f_equal. lia.
Qed.

(** X3 (an update and the range sums).  [update_no_cache] at a position
    [index] of the list that holds [x] succeeds, and afterwards the sum
    of a range with non-negative bounds is the old sum plus
    [value - x] when the range contains [index], and the old sum
    otherwise. *)
Theorem X3_update_then_range_sum (array : Array) (index value l r x : Z) :
  0 ≤ index → array !! Z.to_nat index = Some x → 0 ≤ l → 0 ≤ r →
  ∃ a' s, update_no_cache array index value = Ok a' ∧
    range_sum_no_cache array l r = Ok s ∧
    range_sum_no_cache a' l r
      = Ok (if decide (l ≤ index ∧ index ≤ r) then s - x + value else s).
Proof.
  intros Hi Hx Hl Hr. unfold update_no_cache, range_sum_no_cache.
  pose proof (lookup_lt_Some _ _ _ Hx) as Hlt.
  rewrite list_setitem_ok by lia. rewrite Z.mod_small by lia.
  eexists _, _. split; [done|]. split; [done|]. f_equal.
  case_decide as Hc.
  - apply py_slice_insert_inside; [lia..|done].
  - f_equal. apply py_slice_insert_outside; [lia..|done].
Qed.

Lemma X3_update_then_range_sum_witness :
  0 ≤ 2 ∧ [1; 2; 3; 4; 5] !! Z.to_nat 2 = Some 3 ∧ 0 ≤ 0 ∧ 0 ≤ 4 ∧
  ∃ a', update_no_cache [1; 2; 3; 4; 5] 2 100 = Ok a' ∧
    range_sum_no_cache a' 0 4 = Ok 112.
Proof.
  split; [lia|]. split; [reflexivity|]. split; [lia|]. split; [lia|].
  destruct (X3_update_then_range_sum [1; 2; 3; 4; 5] 2 100 0 4 3)
    as (a' & s & H1 & H2 & H3); [lia|reflexivity|lia|lia|].
  exists a'. split; [exact H1|]. rewrite H3.
  injection H2 as <-. reflexivity.
Defined.

(** X4 (put, then get).  In a cache of capacity at least 1, [put]
    stores the entry in the last (most recently used) position, whatever
    it evicts, and a [get] of the key right after it returns the value
    and leaves the cache as it is. *)
Theorem X4_put_then_get (c : LRUCache.t) (key : Key) (value : Z) :
  1 ≤ capacity c →
  ∃ c', put key value c = Ok c' ∧
    lookup key (_cache c') = Some value ∧
    last (_cache c') = Some (key, value) ∧
    get key c' = Ok (value, c').
Proof.
  intros Hcap. destruct (put_last key value c Hcap) as (d & Hp & Hn & _).
  eexists. split; [done|]. simpl. split; [by apply lookup_snoc|].
  split; [by rewrite last_snoc|].
  rewrite get_spec. simpl. rewrite lookup_snoc by done.
  by rewrite remove_snoc_absent.
Qed.

Lemma X4_put_then_get_witness :
  1 ≤ 2 ∧
  ∃ c', put (4, 6) 1 {| capacity := 2; _cache := [((0, 2), 5); ((1, 3), 9)] |}
          = Ok c' ∧
    get (4, 6) c' = Ok (1, c').
Proof.
  split; [lia|].
  destruct (X4_put_then_get
              {| capacity := 2; _cache := [((0, 2), 5); ((1, 3), 9)] |}
              (4, 6) 1) as (c' & H1 & _ & _ & H2); [simpl; lia|].
  exists c'. by split.
Defined.

(** X5 (a hit refreshes the key only).  A [get] of a stored key returns
    its value and moves the entry to the last position; the capacity,
    the number of entries, the value of every key and the order of the
    other entries stay the same. *)
Theorem X5_get_hit_refreshes (c : LRUCache.t) (key : Key) (value : Z) :
  dict_wf (_cache c) →
  lookup key (_cache c) = Some value →
  ∃ c', get key c = Ok (value, c') ∧
    capacity c' = capacity c ∧
    last (_cache c') = Some (key, value) ∧
    len (_cache c') = len (_cache c) ∧
    (∀ k, lookup k (_cache c') = lookup k (_cache c)) ∧
    filter (λ e, e.1 ≠ key) (_cache c') = filter (λ e, e.1 ≠ key) (_cache c).
Proof.
  intros Hd Hl. rewrite get_spec, Hl. eexists. split; [done|]. simpl.
  split; [done|]. split; [by rewrite last_snoc|]. split_and!.
  - unfold len. rewrite length_app. simpl.
    pose proof (remove_length_present _ _ _ Hd Hl). lia.
  - intros k. rewrite lookup_app. destruct (decide (k = key)) as [->|Hne].
    + rewrite lookup_remove_eq. simpl. by rewrite decide_True.
    + rewrite lookup_remove_ne by done. simpl. rewrite decide_False by done.
      by destruct (lookup k (_cache c)).
  - rewrite filter_app. simpl. rewrite filter_cons_False by (simpl; tauto).
    simpl. rewrite app_nil_r. unfold remove. rewrite list_filter_filter.
    apply filter_iff_elem_of. tauto.
Qed.

Lemma X5_get_hit_refreshes_witness :
  dict_wf [((0, 2), 5); ((1, 3), 9)] ∧
  lookup (0, 2) [((0, 2), 5); ((1, 3), 9)] = Some 5 ∧
  ∃ c', get (0, 2) {| capacity := 2; _cache := [((0, 2), 5); ((1, 3), 9)] |}
          = Ok (5, c') ∧
    last (_cache c') = Some ((0, 2), 5) ∧
    lookup (1, 3) (_cache c') = Some 9.
Proof.
  assert (dict_wf [((0, 2), 5); ((1, 3), 9)]) as Hd.
  { repeat constructor; set_solver. }
  split; [exact Hd|]. split; [reflexivity|].
  destruct (X5_get_hit_refreshes
              {| capacity := 2; _cache := [((0, 2), 5); ((1, 3), 9)] |}
              (0, 2) 5 Hd eq_refl) as (c' & H1 & _ & H2 & _ & H3 & _).
  exists c'. split; [exact H1|]. split; [exact H2|]. exact (H3 (1, 3)).
Defined.

(** X6 (invalidations compose).  [invalidate_ranges_containing] never
    fails; a second invalidation of the same position changes nothing,
    the invalidations of two positions give the same cache in either
    order, and after the invalidation of [p] a [get] of any range that
    contains [p] is a miss. *)
Theorem X6_invalidations_compose (c : LRUCache.t) (p q : Z) :
  dict_wf (_cache c) →
  ∃ c1 c2 c12,
    invalidate_ranges_containing p c = Ok c1 ∧
    invalidate_ranges_containing q c = Ok c2 ∧
    invalidate_ranges_containing p c1 = Ok c1 ∧
    invalidate_ranges_containing q c1 = Ok c12 ∧
    invalidate_ranges_containing p c2 = Ok c12 ∧
    (∀ l r, l ≤ p ≤ r → get (l, r) c1 = Ok (-1, c1)).
Proof.
  intros Hd. rewrite !invalidate_spec by done.
  eexists _, _, _. split; [done|]. split; [done|].
  rewrite !invalidate_spec by (simpl; by apply filter_wf). simpl.
  unfold with_cache. simpl. rewrite !list_filter_filter. split_and!.
  - do 2 f_equal. apply filter_iff_elem_of. tauto.
  - done.
  - do 2 f_equal. apply filter_iff_elem_of. tauto.
  - intros l r Hcov. rewrite get_spec. simpl.
    assert (lookup (l, r) (filter (λ e, ¬ covers p e) (_cache c)) = None) as ->;
      [|done].
    apply lookup_None_keys. unfold keys.
    intros ([k v] & Hkv & [Hnc _]%list_elem_of_filter)%list_elem_of_fmap.
    simpl in Hkv. subst k. apply Hnc. unfold covers. simpl. lia.
Qed.

Lemma X6_invalidations_compose_witness :
  dict_wf [((0, 2), 5); ((1, 3), 9); ((4, 6), 1)] ∧
  ∃ c1 c2 c12,
    invalidate_ranges_containing 1
      {| capacity := 3; _cache := [((0, 2), 5); ((1, 3), 9); ((4, 6), 1)] |}
      = Ok c1 ∧
    invalidate_ranges_containing 1 c1 = Ok c1 ∧
    invalidate_ranges_containing 5 c1 = Ok c12 ∧
    invalidate_ranges_containing 1 c2 = Ok c12.
Proof.
  assert (dict_wf [((0, 2), 5); ((1, 3), 9); ((4, 6), 1)]) as Hd.
  { repeat constructor; set_solver. }
  split; [exact Hd|].
  destruct (X6_invalidations_compose
              {| capacity := 3;
                 _cache := [((0, 2), 5); ((1, 3), 9); ((4, 6), 1)] |}
              1 5 Hd) as (c1 & c2 & c12 & H1 & _ & H2 & H3 & H4 & _).
  exists c1, c2, c12. split; [exact H1|]. split; [exact H2|].
  split; [exact H3|exact H4].
Defined.

Lemma put_all_window es : ∀ cap d,
  1 ≤ cap → dict_wf (d ++ es) → Z.of_nat (length d) ≤ cap →
  put_all es {| capacity := cap; _cache := d |}
    = Ok {| capacity := cap;
            _cache := drop (length (d ++ es) - Z.to_nat cap) (d ++ es) |}.
Proof.
  induction es as [|[k v] es IH]; intros cap d Hcap Hwf Hlen.
  { simpl. rewrite app_nil_r.
    replace (length d - Z.to_nat cap)%nat with 0%nat by lia. done. }
  cbn [put_all].
  assert (lookup k d = None) as Hk.
  { apply lookup_None_keys. unfold dict_wf, keys in *.
    rewrite fmap_app in Hwf. apply NoDup_app in Hwf as (_ & Hwf & _).
    intros Hin. apply (Hwf k Hin). simpl. left. }
  rewrite put_spec. simpl. rewrite (remove_absent k d Hk).
  replace (d ++ (k, v) :: es) with ((d ++ [(k, v)]) ++ es) in *
    by by rewrite <- app_assoc.
  destruct (cap <? len (d ++ [(k, v)])) eqn:Hlt.
  - apply Z.ltb_lt in Hlt. unfold len in Hlt. rewrite length_app in Hlt.
    simpl in Hlt. destruct d as [|e0 d]; simpl in *; [lia|].
    unfold with_cache. simpl. rewrite IH; [|done| |rewrite length_app; simpl; lia].
    + do 2 f_equal. rewrite !length_app in *. simpl in *.
      replace (S (length d + 1 + length es) - Z.to_nat cap)%nat
        with (S (length d + 1 + length es - Z.to_nat cap))%nat by lia.
      done.
    + unfold dict_wf, keys in *. simpl in Hwf. by apply NoDup_cons in Hwf as [_ ?].
  - apply Z.ltb_ge in Hlt. unfold len in Hlt. unfold with_cache. simpl.
    rewrite IH; [done|done|done|lia].
Qed.

(** X7 (the window of the most recent entries).  Putting any number of
    entries with distinct keys into a fresh cache of capacity
    [cap ≥ 1] leaves exactly the last [cap] of them, in order: each of
    them is stored with its value, and a [get] of any earlier key is a
    miss. *)
Theorem X7_most_recent_window (cap : Z) (es : list (Key * Z)) :
  1 ≤ cap → dict_wf es →
  ∃ c0 c, __init__ cap = Ok c0 ∧ put_all es c0 = Ok c ∧
    _cache c = drop (length es - Z.to_nat cap) es ∧
    (∀ key value, (key, value) ∈ drop (length es - Z.to_nat cap) es →
                  lookup key (_cache c) = Some value) ∧
    (∀ key, key ∈ keys (take (length es - Z.to_nat cap) es) →
            get key c = Ok (-1, c)).
Proof.
  intros Hcap Hwf. exists {| capacity := cap; _cache := [] |}. eexists.
  split; [done|].
  rewrite (put_all_window es cap []) by (simpl; done || lia). simpl.
  split; [done|]. split; [done|].
  set (n := (length es - Z.to_nat cap)%nat).
  assert (dict_wf (drop n es)) as Hwd.
  { unfold dict_wf, keys in *. rewrite <- (take_drop n es), fmap_app in Hwf.
    by apply NoDup_app in Hwf as (_ & _ & ?). }
  split.
  - intros key value Hin. by apply elem_of_lookup.
  - intros key Hin. rewrite get_spec. simpl.
    assert (lookup key (drop n es) = None) as ->; [|done].
    apply lookup_None_keys. unfold dict_wf, keys in *.
    rewrite <- (take_drop n es), fmap_app in Hwf.
    apply NoDup_app in Hwf as (_ & Hwf & _). by apply Hwf.
Qed.

Lemma X7_most_recent_window_witness :
  1 ≤ 2 ∧ dict_wf [((0, 2), 5); ((1, 3), 9); ((4, 6), 1); ((7, 8), 2)] ∧
  ∃ c0 c, __init__ 2 = Ok c0 ∧
    put_all [((0, 2), 5); ((1, 3), 9); ((4, 6), 1); ((7, 8), 2)] c0 = Ok c ∧
    _cache c = [((4, 6), 1); ((7, 8), 2)].
Proof.
  assert (dict_wf [((0, 2), 5); ((1, 3), 9); ((4, 6), 1); ((7, 8), 2)]) as Hd.
  { repeat constructor; set_solver. }
  split; [lia|]. split; [exact Hd|].
  destruct (X7_most_recent_window 2
              [((0, 2), 5); ((1, 3), 9); ((4, 6), 1); ((7, 8), 2)])
    as (c0 & c & H0 & H1 & H2 & _); [lia|exact Hd|].
  exists c0, c. split; [exact H0|]. split; [exact H1|]. exact H2.
Defined.

Lemma range_sum_with_cache_again (a : Array) l r c d s :
  _cache c = d ++ [((l, r), s)] → lookup (l, r) d = None →
  len (_cache c) ≤ capacity c →
  s ≠ -1 ∨ s = sum (py_slice a l (r + 1)) →
  range_sum_with_cache a l r c = Ok (s, c).
Proof.
  intros Hc Hn Hlen Hs. destruct c as [cap dc]. simpl in *. subst dc.
  rewrite range_sum_with_cache_spec. simpl.
  rewrite lookup_snoc, remove_snoc_absent by done. unfold with_cache. simpl.
  destruct (Z.eqb_spec s (-1)) as [->|Hne]; [|done].
  destruct Hs as [|Hs]; [done|]. rewrite <- Hs.
  rewrite put_spec. simpl. rewrite (remove_snoc_absent _ _ _ Hn).
  destruct (cap <? _) eqn:E; [|done].
  apply Z.ltb_lt in E. unfold len in *. rewrite length_app in E, Hlen.
  simpl in E, Hlen. lia.
Qed.

(** X8 (a repeated cached range sum).  In a cache within its capacity
    (at least 1), [range_sum_with_cache] leaves its key in the last
    position with the result it returns, and the same call again returns
    the same result and leaves the cache unchanged. *)
Theorem X8_repeated_range_sum (array : Array) (l r : Z) (c : LRUCache.t) :
  dict_wf (_cache c) → 1 ≤ capacity c → len (_cache c) ≤ capacity c →
  ∃ res c', range_sum_with_cache array l r c = Ok (res, c') ∧
    last (_cache c') = Some ((l, r), res) ∧
    range_sum_with_cache array l r c' = Ok (res, c').
Proof.
  intros Hd Hcap Hlen. rewrite range_sum_with_cache_spec.
  assert (∀ c1, dict_wf (_cache c1) → 1 ≤ capacity c1 →
            len (_cache c1) ≤ capacity c1 →
            ∃ c', put (l, r) (sum (py_slice array l (r + 1))) c1 = Ok c' ∧
              last (_cache c') = Some ((l, r), sum (py_slice array l (r + 1))) ∧
              range_sum_with_cache array l r c'
                = Ok (sum (py_slice array l (r + 1)), c')) as Hput.
  { intros c1 Hd1 Hcap1 Hlen1.
    destruct (put_last (l, r) (sum (py_slice array l (r + 1))) c1 Hcap1)
      as (d & Hp & Hn & _).
    eexists. split; [done|]. simpl. split; [by rewrite last_snoc|].
    eapply range_sum_with_cache_again; [done|done| |by right].
    destruct (put_len _ _ _ _ Hd1 Hcap1 Hlen1 Hp) as [_ H]. done. }
  destruct (lookup (l, r) (_cache c)) as [v|] eqn:Hl.
  - assert (dict_wf (remove (l, r) (_cache c) ++ [((l, r), v)])) as Hd1.
    { apply snoc_wf; [by apply remove_wf|apply lookup_remove_eq]. }
    assert (len (remove (l, r) (_cache c) ++ [((l, r), v)]) = len (_cache c))
      as Hlen1.
    { unfold len. rewrite length_app. simpl.
      pose proof (remove_length_present _ _ _ Hd Hl). lia. }
    destruct (Z.eqb_spec v (-1)) as [->|Hne].
    + destruct (Hput (with_cache c (remove (l, r) (_cache c) ++ [((l, r), -1)])))
        as (c' & -> & ? & ?); simpl; [done|done|lia|]. eauto.
    + eexists _, _. split; [done|]. simpl. split; [by rewrite last_snoc|].
      eapply range_sum_with_cache_again;
        [done|apply lookup_remove_eq|simpl; lia|by left].
  - destruct (Hput c) as (c' & -> & ? & ?); [done|done|lia|]. simpl. eauto.
Qed.

Lemma X8_repeated_range_sum_witness :
  dict_wf [((1, 3), 9)] ∧ 1 ≤ 2 ∧ len [((1, 3), 9)] ≤ 2 ∧
  ∃ res c', range_sum_with_cache [1; 2; 3; 4; 5] 0 4
              {| capacity := 2; _cache := [((1, 3), 9)] |} = Ok (res, c') ∧
    range_sum_with_cache [1; 2; 3; 4; 5] 0 4 c' = Ok (res, c').
Proof.
  assert (dict_wf [((1, 3), 9)]) as Hd.
  { repeat constructor; set_solver. }
  split; [exact Hd|]. split; [lia|]. split; [unfold len; simpl; lia|].
  destruct (X8_repeated_range_sum [1; 2; 3; 4; 5] 0 4
              {| capacity := 2; _cache := [((1, 3), 9)] |})
    as (res & c' & H1 & _ & H2); [exact Hd|simpl; lia|unfold len; simpl; lia|].
  exists res, c'. split; [exact H1|exact H2].
Defined.

End lru_extras.

Section lru_model_extras.
Import OrderedDict LRUCache.
Implicit Types (c : LRUCache.t) (d : OrderedDict.t) (k : Key) (v : Z).

Lemma lookup_tail k v d :
  dict_wf d → lookup k (tail d) = Some v → lookup k d = Some v.
Proof.
  intros Hwf Hl. apply elem_of_lookup; [done|].
  apply lookup_elem_of in Hl. destruct d; [done|]. simpl in *. by right.
Qed.

Lemma lookup_filter_Some (P : Key * Z → Prop) `{!∀ e, Decision (P e)} k v d :
  dict_wf d → lookup k (filter P d) = Some v → lookup k d = Some v ∧ P (k, v).
Proof.
  intros Hwf Hl. apply lookup_elem_of in Hl.
  apply list_elem_of_filter in Hl as [HP Hin]. split; [|done].
  by apply elem_of_lookup.
Qed.

Lemma run_lru_op_model (o : lru_op) c c' (m : gmap Key Z) :
  dict_wf (_cache c) →
  (∀ k v, lookup k (_cache c) = Some v → m !! k = Some v) →
  run_lru_op o c = Ok c' →
  dict_wf (_cache c') ∧
  ∀ k v, lookup k (_cache c') = Some v → lru_op_model m o !! k = Some v.
Proof.
  intros Hwf Hm. destruct o as [k0|k0 v0|p]; simpl.
  - rewrite get_spec. destruct (lookup k0 (_cache c)) as [v0|] eqn:Hl; simpl.
    + intros [= <-]. simpl. split.
      { apply snoc_wf; [by apply remove_wf|apply lookup_remove_eq]. }
      intros k v. rewrite lookup_app. destruct (decide (k = k0)) as [->|Hne].
      * rewrite lookup_remove_eq. simpl. rewrite decide_True by done.
        intros [= <-]. by apply Hm.
      * rewrite lookup_remove_ne by done. simpl. rewrite decide_False by done.
        destruct (lookup k (_cache c)) eqn:Hk; [|done]. intros [= <-]. by apply Hm.
    + intros [= <-]. done.
  - intros Hp. split; [by eapply put_wf|]. revert Hp. rewrite put_spec.
    intros [= <-]. simpl.
    assert (dict_wf (remove k0 (_cache c) ++ [(k0, v0)])) as Hwf1.
    { apply snoc_wf; [by apply remove_wf|apply lookup_remove_eq]. }
    assert (∀ k v, lookup k (remove k0 (_cache c) ++ [(k0, v0)]) = Some v →
                   <[k0 := v0]> m !! k = Some v) as Hm1.
    { intros k v. rewrite lookup_app. destruct (decide (k = k0)) as [->|Hne].
      - rewrite lookup_remove_eq. simpl. rewrite decide_True by done.
        intros [= <-]. by rewrite lookup_insert_eq.
      - rewrite lookup_remove_ne by done. simpl. rewrite decide_False by done.
        rewrite lookup_insert_ne by done.
        destruct (lookup k (_cache c)) eqn:Hk; [|done]. intros [= <-]. by apply Hm. }
    intros k v. destruct (capacity c <? _); [|by apply Hm1].
    intros H. apply Hm1. by apply lookup_tail.
  - rewrite invalidate_spec by done. intros [= <-]. simpl.
    split; [by apply filter_wf|]. intros k v H.
    apply lookup_filter_Some in H as [Hl Hnc]; [|done].
    apply map_lookup_filter_Some. split; [by apply Hm|]. done.
Qed.

Lemma run_lru_model os : ∀ c (m : gmap Key Z),
  dict_wf (_cache c) →
  (∀ k v, lookup k (_cache c) = Some v → m !! k = Some v) →
  ∃ c', run_lru os c = Ok c' ∧ dict_wf (_cache c') ∧
    ∀ k v, lookup k (_cache c') = Some v → foldl lru_op_model m os !! k = Some v.
Proof.
  induction os as [|o os IH]; intros c m Hwf Hm; simpl.
  { by exists c. }
  destruct (run_lru_op_total o c Hwf) as [c1 Hc1]. rewrite Hc1. simpl.
  destruct (run_lru_op_model o c c1 m Hwf Hm Hc1) as [Hwf1 Hm1].
  by apply IH.
Qed.

(** X9 (a hit returns the latest put).  After any sequence of [get],
    [put] and [invalidate_ranges_containing] calls on a fresh cache of
    any capacity, a [get] that does not return -1 returns the value of
    the last [put] under the key, and no invalidation of a position of
    the range has come after that [put]; for a key that was never put,
    or was invalidated since, [get] returns -1. *)
Theorem X9_hits_return_the_latest_put (cap : Z) (os : list lru_op) (key : Key) :
  ∃ c0 c r c', __init__ cap = Ok c0 ∧ run_lru os c0 = Ok c ∧
    get key c = Ok (r, c') ∧
    (lru_model os !! key = None → r = -1) ∧
    (r ≠ -1 → lru_model os !! key = Some r).
Proof.
  destruct (run_lru_model os {| capacity := cap; _cache := [] |} ∅)
    as (c & Hrun & Hwf & Hm); [apply NoDup_nil_2|done|].
  exists {| capacity := cap; _cache := [] |}, c.
  rewrite get_spec. destruct (lookup key (_cache c)) as [v|] eqn:Hl.
  - eexists _, _. split; [done|]. split; [done|]. split; [done|].
    apply Hm in Hl. fold (lru_model os) in Hl. rewrite Hl. split; [done|]. done.
  - eexists _, _. split; [done|]. split; [done|]. split; [done|]. done.
Qed.

End lru_model_extras.

(* ===================================================================== *)
(** * The generated queries and the benchmark *)

Section random_extras.
Implicit Types (g : random.generator).

Lemma random_bind_inr {A B} (m : random.M A) (f : A → random.M B) g a g' :
  m g = inr (a, g') → random.bind m f g = f a g'.
Proof. unfold random.bind. by intros ->. Qed.

Lemma random_bind_inl {A B} (m : random.M A) (f : A → random.M B) g e :
  m g = inl e → random.bind m f g = inl e.
Proof. unfold random.bind. by intros ->. Qed.

Lemma randint_spec a b g :
  a ≤ b → ∃ z g', random.randint a b g = inr (z, g') ∧ a ≤ z ∧ z ≤ b.
Proof.
  intros H. unfold random.randint. rewrite (proj2 (Z.ltb_ge b a)) by lia.
  unfold random.bind, random.next, random.ret. eexists _, _. split; [done|].
  pose proof (Z.mod_pos_bound (random.draws g (random.used g)) (b - a + 1)).
  lia.
Qed.

Lemma randint_empty a b g : b < a → random.randint a b g = inl random.ValueError.
Proof.
  intros H. unfold random.randint. by rewrite (proj2 (Z.ltb_lt b a)) by lia.
Qed.

Lemma random_total g : ∃ u g', random.random g = inr (u, g').
Proof. unfold random.random, random.bind, random.next, random.ret. eauto. Qed.

Lemma choice_spec {A} (seq : list A) g :
  seq ≠ [] → ∃ x g', random.choice seq g = inr (x, g') ∧ x ∈ seq.
Proof.
  intros H. destruct seq as [|x0 seq]; [done|]. unfold random.choice.
  unfold random.bind, random.next, random.ret. eexists _, _. split; [done|].
  apply list_elem_of_In, nth_In.
  pose proof (Z.mod_pos_bound (random.draws g (random.used g))
                (Z.of_nat (length (x0 :: seq)))) as Hm.
  simpl length in *. lia.
Qed.

Lemma half_bounds n : 1 ≤ n → 0 ≤ n `div` 2 ∧ n `div` 2 ≤ n - 1.
Proof. intros H. Z.div_mod_to_equations. lia. Qed.

Lemma make_hot_spec n count : ∀ g,
  1 ≤ n →
  ∃ hot g', make_hot count n g = inr (hot, g') ∧
    length hot = count ∧ Forall (hot_ok n) hot.
Proof.
  induction count as [|count IH]; intros g Hn.
  { eexists _, _. split; [done|]. split; [done|]. constructor. }
  destruct (half_bounds n Hn) as [H0 H1].
  cbn [make_hot].
  destruct (randint_spec 0 (n `div` 2) g H0) as (l & g1 & Hl & ? & ?).
  rewrite (random_bind_inr _ _ _ _ _ Hl).
  destruct (randint_spec (n `div` 2) (n - 1) g1 H1) as (r & g2 & Hr & ? & ?).
  rewrite (random_bind_inr _ _ _ _ _ Hr).
  destruct (IH g2 Hn) as (hot & g3 & Hh & Hlen & Hok).
  rewrite (random_bind_inr _ _ _ _ _ Hh). unfold random.ret.
  eexists _, _. split; [done|]. split; [by simpl; f_equal|].
  constructor; [|done]. unfold hot_ok. simpl. lia.
Qed.

Lemma make_hot_empty n count g :
  n ≤ 0 → make_hot (S count) n g = inl random.ValueError.
Proof.
  intros Hn. cbn [make_hot].
  destruct (Z.lt_ge_cases (n `div` 2) 0) as [Hneg|Hpos].
  - by rewrite (random_bind_inl _ _ _ _ (randint_empty 0 _ g Hneg)).
  - destruct (randint_spec 0 (n `div` 2) g Hpos) as (l & g1 & Hl & _).
    rewrite (random_bind_inr _ _ _ _ _ Hl).
    rewrite (random_bind_inl _ _ _ random.ValueError); [done|].
    apply randint_empty. lia.
Qed.

Lemma make_queries_body_spec n hot p_hot p_update queries g :
  1 ≤ n → Forall (hot_ok n) hot →
  match make_queries_body n hot p_hot p_update queries g with
  | inr (queries', _) => ∃ q, queries' = queries ++ [q] ∧ in_bounds n q
  | inl e => e = random.Uncaught IndexError ∧ hot = []
  end.
Proof.
  intros Hn Hhot. unfold make_queries_body.
  destruct (random_total g) as (u & g1 & Hu).
  rewrite (random_bind_inr _ _ _ _ _ Hu).
  destruct (float_lt u p_update).
  - destruct (randint_spec 0 (n - 1) g1) as (idx & g2 & Hi & ? & ?); [lia|].
    rewrite (random_bind_inr _ _ _ _ _ Hi).
    destruct (randint_spec 1 100 g2) as (val & g3 & Hv & ? & ?); [lia|].
    rewrite (random_bind_inr _ _ _ _ _ Hv). unfold random.ret.
    eexists. split; [done|]. simpl. lia.
  - destruct (random_total g1) as (u' & g2 & Hu').
    rewrite (random_bind_inr _ _ _ _ _ Hu').
    destruct (float_lt u' p_hot).
    + destruct hot as [|lr0 hot'] eqn:Hh.
      { by rewrite (random_bind_inl _ _ _ (random.Uncaught IndexError)). }
      rewrite <- Hh in *.
      destruct (choice_spec hot g2) as (lr & g3 & Hc & Hin); [by subst|].
      rewrite (random_bind_inr _ _ _ _ _ Hc). unfold random.ret.
      eexists. split; [done|].
      rewrite Forall_forall in Hhot. destruct (Hhot lr Hin) as (? & ? & ?).
      simpl. lia.
    + destruct (randint_spec 0 (n - 1) g2) as (l & g3 & Hl & ? & ?); [lia|].
      rewrite (random_bind_inr _ _ _ _ _ Hl).
      destruct (randint_spec l (n - 1) g3) as (r & g4 & Hr & ? & ?); [lia|].
      rewrite (random_bind_inr _ _ _ _ _ Hr). unfold random.ret.
      eexists. split; [done|]. simpl. lia.
Qed.

Lemma make_queries_loop_spec n hot p_hot p_update count : ∀ queries g,
  1 ≤ n → Forall (hot_ok n) hot →
  match make_queries_loop count n hot p_hot p_update queries g with
  | inr (queries', _) =>
      ∃ new, queries' = queries ++ new ∧ length new = count ∧
             Forall (in_bounds n) new
  | inl e => e = random.Uncaught IndexError ∧ hot = [] ∧ (0 < count)%nat
  end.
Proof.
  induction count as [|count IH]; intros queries g Hn Hhot.
  { simpl. exists []. by rewrite app_nil_r. }
  cbn [make_queries_loop].
  pose proof (make_queries_body_spec n hot p_hot p_update queries g Hn Hhot)
    as Hb.
  destruct (make_queries_body n hot p_hot p_update queries g)
    as [e|[queries1 g1]] eqn:Hbody.
  - rewrite (random_bind_inl _ _ _ _ Hbody). destruct Hb. split_and!; [done..|lia].
  - rewrite (random_bind_inr _ _ _ _ _ Hbody). destruct Hb as (q & -> & Hq).
    specialize (IH (queries ++ [q]) g1 Hn Hhot).
    destruct (make_queries_loop _ _ _ _ _ _ g1) as [e|[queries2 g2]].
    + destruct IH as (? & ? & ?). split_and!; [done..|lia].
    + destruct IH as (new & -> & Hlen & Hnew). exists (q :: new).
      rewrite <- app_assoc. split; [done|]. split; [by simpl; f_equal|].
      by constructor.
Qed.

(** With a pool of hot ranges the queries are generated. *)
Lemma make_queries_ok (n q hot_pool : Z) (p_hot p_update : Q) g :
  1 ≤ n → 1 ≤ hot_pool →
  ∃ queries g',
    make_queries n q hot_pool p_hot p_update g = inr (queries, g') ∧
    Forall (in_bounds n) queries.
Proof.
  intros Hn Hp. unfold make_queries.
  destruct (make_hot_spec n (Z.to_nat hot_pool) g Hn)
    as (hot & g1 & Hh & Hlen & Hok).
  rewrite (random_bind_inr _ _ _ _ _ Hh).
  pose proof (make_queries_loop_spec n hot p_hot p_update (Z.to_nat q) [] g1
                Hn Hok) as Hl.
  destruct (make_queries_loop _ _ _ _ _ _ g1) as [e|[queries g2]].
  - destruct Hl as (_ & -> & _). simpl in Hlen. lia.
  - destruct Hl as (new & -> & _ & ?). by exists new, g2.
Qed.

(** X10 (the queries of [make_queries]).  For a list of [n ≥ 1] elements
    and every stream of random draws, [make_queries] returns [q] queries
    (none for [q ≤ 0]), each within the list: a range has
    [0 ≤ left ≤ right ≤ n - 1], an update has [0 ≤ idx ≤ n - 1] and a
    value in [1..100].  The only failure is the [IndexError] of
    [random.choice] on an empty pool, which needs [hot_pool ≤ 0] and
    [q > 0]. *)
Theorem X10_make_queries_in_bounds (n q hot_pool : Z) (p_hot p_update : Q) g :
  1 ≤ n →
  match make_queries n q hot_pool p_hot p_update g with
  | inr (queries, _) =>
      length queries = Z.to_nat q ∧ Forall (in_bounds n) queries
  | inl e => e = random.Uncaught IndexError ∧ hot_pool ≤ 0 ∧ 0 < q
  end.
Proof.
  intros Hn. unfold make_queries.
  destruct (make_hot_spec n (Z.to_nat hot_pool) g Hn)
    as (hot & g1 & Hh & Hlen & Hok).
  rewrite (random_bind_inr _ _ _ _ _ Hh).
  pose proof (make_queries_loop_spec n hot p_hot p_update (Z.to_nat q) [] g1
                Hn Hok) as Hl.
  destruct (make_queries_loop _ _ _ _ _ _ g1) as [e|[queries g2]].
  - destruct Hl as (-> & -> & ?). simpl in Hlen. split; [done|]. lia.
  - destruct Hl as (new & -> & ? & ?). done.
Qed.

Lemma X10_make_queries_in_bounds_witness :
  1 ≤ 10 ∧
  ∃ queries g',
    make_queries 10 4 2 p_hot_default p_update_default
      (random.mk (λ i, 7919 * Z.of_nat i + 13) 0) = inr (queries, g') ∧
    length queries = 4%nat ∧ Forall (in_bounds 10) queries.
Proof.
  split; [lia|].
  pose proof (X10_make_queries_in_bounds 10 4 2 p_hot_default p_update_default
                (random.mk (λ i, 7919 * Z.of_nat i + 13) 0) ltac:(lia)) as H.
  destruct (make_queries 10 4 2 p_hot_default p_update_default
              (random.mk (λ i, 7919 * Z.of_nat i + 13) 0))
    as [e|[queries g']] eqn:Hm.
  - destruct H as (_ & H & _). lia.
  - exists queries, g'. split; [reflexivity|exact H].
Defined.

(** X11 (no list to query).  For [n ≤ 0] and a pool of at least one hot
    range, [make_queries] raises [ValueError] for every stream of random
    draws: [random.randint] is called on an empty range while the pool
    is built. *)
Theorem X11_make_queries_empty_list (n q hot_pool : Z) (p_hot p_update : Q) g :
  n ≤ 0 → 1 ≤ hot_pool →
  make_queries n q hot_pool p_hot p_update g = inl random.ValueError.
Proof.
  intros Hn Hp. unfold make_queries.
  destruct (Z.to_nat hot_pool) as [|count] eqn:Hc; [lia|].
  by rewrite (random_bind_inl _ _ _ _ (make_hot_empty n count g Hn)).
Qed.

Lemma X11_make_queries_empty_list_witness :
  0 ≤ 0 ∧ 1 ≤ 30 ∧
  make_queries 0 5 30 p_hot_default p_update_default
    (random.mk (λ i, Z.of_nat i) 0) = inl random.ValueError.
Proof.
  split; [lia|]. split; [lia|].
  apply (X11_make_queries_empty_list 0 5 30); lia.
Defined.

Lemma make_base_spec count : ∀ g,
  ∃ base g', make_base count g = inr (base, g') ∧ length base = count ∧
    Forall (λ x, 1 ≤ x ∧ x ≤ 100) base.
Proof.
  induction count as [|count IH]; intros g.
  { eexists _, _. split; [done|]. split; [done|]. constructor. }
  cbn [make_base].
  destruct (randint_spec 1 100 g) as (x & g1 & Hx & ? & ?); [lia|].
  rewrite (random_bind_inr _ _ _ _ _ Hx).
  destruct (IH g1) as (base & g2 & Hb & Hlen & Hok).
  rewrite (random_bind_inr _ _ _ _ _ Hb). unfold random.ret.
  eexists _, _. split; [done|]. split; [by simpl; f_equal|].
  by constructor.
Qed.

(** X12 (the two runs of [benchmark]).  For [n ≥ 1], every [q] and every
    stream of random draws, both runs of [benchmark] reach the end of
    the queries, and the run with the cache ends with the same list, of
    [n] elements, and the same checksum as the run without it.  For
    [n ≤ 0], [benchmark] raises [ValueError]. *)
Theorem X12_benchmark_runs_agree (n q : Z) g :
  (1 ≤ n →
     ∃ a checksum g',
       benchmark n q g = inr ((a, checksum), (a, checksum), g') ∧
       length a = Z.to_nat n) ∧
  (n ≤ 0 → benchmark n q g = inl random.ValueError).
Proof.
  unfold benchmark.
  destruct (make_base_spec (Z.to_nat n) g) as (base & g1 & Hb & Hlen & _).
  rewrite (random_bind_inr _ _ _ _ _ Hb). split.
  - intros Hn.
    destruct (make_queries_ok n q hot_pool_default p_hot_default
                p_update_default g1 Hn) as (queries & g2 & Hm & Hq);
      [unfold hot_pool_default; lia|].
    rewrite (random_bind_inr _ _ _ _ _ Hm).
    replace n with (Z.of_nat (length base)) in Hq by lia.
    destruct (two_runs_agree base queries Hq) as (a & chk & -> & -> & Hla).
    simpl. unfold random.bind, random.ret.
    eexists _, _, _. split; [done|]. lia.
  - intros Hn.
    rewrite (random_bind_inl _ _ _ random.ValueError); [done|].
    unfold make_queries, hot_pool_default.
    change (Z.to_nat 30) with 30%nat.
    by rewrite (random_bind_inl _ _ _ _ (make_hot_empty n 29 g1 Hn)).
Qed.

End random_extras.

(* ===================================================================== *)
(** * The splay tree: further properties *)

Section store_identity.
Import SplayTree.
Local Open Scope splay_scope.
Implicit Types (h : list _Node) (s : SplayTree.t) (t : shape) (c : list frame).

(** The links of a node are fixed by the shape. *)
Lemma rep_agree h h' par t a :
  rep h par t → rep h' par t → a ∈ locs t →
  ∃ n n', h !! a = Some n ∧ h' !! a = Some n' ∧
    left n = left n' ∧ right n = right n' ∧ parent n = parent n'.
Proof.
  revert par. induction t as [|l IHl x r IHr]; intros par; simpl.
  { intros _ _ Ha. by apply elem_of_nil in Ha. }
  intros (n & Hn & Hl & Hr & Hp & Hrl & Hrr) (n' & Hn' & Hl' & Hr' & Hp' & Hrl' & Hrr').
  rewrite elem_of_app, elem_of_cons. intros [Ha|[->|Ha]].
  - by apply (IHl (Some x)).
  - exists n, n'. split_and!; congruence.
  - by apply (IHr (Some x)).
Qed.

Lemma fmap_eq_elem_of {A B} (f g : A → B) (l : list A) a :
  f <$> l = g <$> l → a ∈ l → f a = g a.
Proof.
  induction l as [|b l IH]; simpl.
  { intros _ Ha. by apply elem_of_nil in Ha. }
  intros [= Hb Hl]. rewrite elem_of_cons. intros [->|Ha]; [done|by apply IH].
Qed.

(** A state is fixed by its shape and its entries. *)
Lemma store_determined s s' T :
  tree_inv s T → tree_inv s' T → entries s' T = entries s T → s' = s.
Proof.
  intros Hinv Hinv' Hent.
  pose proof Hinv as (Hroot & Hrep & Hlen & _).
  pose proof Hinv' as (Hroot' & Hrep' & Hlen' & _).
  destruct s as [h rt], s' as [h' rt']. simpl in *. f_equal; [|congruence].
  apply list_eq. intros a.
  destruct (decide (a < length h)%nat) as [Hlt|Hge].
  - assert (a ∈ locs T) as Ha.
    { by apply (tree_inv_all_locs {| nodes := h; root := rt |}). }
    destruct (rep_agree h h' None T a Hrep Hrep' Ha)
      as (n & n' & Hn & Hn' & Hl & Hr & Hp).
    pose proof (fmap_eq_elem_of _ _ _ a Hent Ha) as He.
    unfold entry_at, key_at, value_at in He. simpl in He.
    rewrite Hn, Hn' in He. injection He as Hk Hv.
    rewrite Hn, Hn'. f_equal. destruct n, n'. simpl in *. congruence.
  - rewrite !lookup_ge_None_2; [done|lia|lia].
Qed.

Lemma get_finds s k r s' :
  get k s = Some (r, s') →
  ∃ o, _find_loop (S (length (nodes s))) k (root s) s = Some (o, s').
Proof.
  unfold get, _find_node, bind, loop_fuel, get_root.
  destruct (_find_loop _ k (root s) s) as [[o s'']|]; [|done].
  destruct o as [x|]; unfold get_value, node_at, bind, ret.
  - destruct (nodes s'' !! x); [|done]. intros [= _ <-]. eauto.
  - intros [= _ <-]. eauto.
Qed.

(** A search for the key of the root changes nothing. *)
Lemma get_at_root s T x k :
  bst_inv s T → root s = Some x → key_at (nodes s) x = k →
  get k s = Some (Some (value_at (nodes s) x), s).
Proof.
  intros Hinv Hroot Hk.
  destruct (tree_get_spec s T k Hinv) as (s' & T' & Hget & _ & _ & Hd & _ & _).
  destruct (get_finds _ _ _ _ Hget) as [o Hfind].
  destruct Hinv as [Hinv Hsorted].
  pose proof Hinv as (Hr & Hrep & Hlen & _).
  destruct T as [|l y r]; [by rewrite Hroot in Hr|].
  simpl in Hr. rewrite Hroot in Hr. injection Hr as <-.
  destruct (find_loop_spec (S (length (nodes s))) s [] (SNode l x r) k Hinv)
    as (s2 & Hfind2 & Hinv2 & Hd2); [lia|].
  cbn [top] in Hfind2. rewrite Hroot in Hfind. rewrite Hfind in Hfind2.
  injection Hfind2 as Ho <-.
  cbn [find_shape] in Hinv2, Ho. rewrite Hk, Z.eqb_refl in Hinv2, Ho.
  simpl in Hinv2, Ho.
  assert (s' = s) as ->.
  { eapply store_determined; [done|done|]. by apply entries_same_data. }
  rewrite Hget. f_equal. f_equal.
  apply assoc_elem_of.
  { apply sorted_NoDup. done. }
  unfold entries. apply list_elem_of_fmap. exists x. split.
  - unfold entry_at. by rewrite Hk.
  - simpl. in_search.
Qed.

Lemma ins_present k v kvs :
  StronglySorted Z.lt kvs.*1 → (k, v) ∈ kvs → ins k v kvs = kvs.
Proof.
  induction kvs as [|[k' v'] kvs IH]; simpl.
  { intros _ H. by apply elem_of_nil in H. }
  intros Hs. apply StronglySorted_inv in Hs as [Hs Hall].
  rewrite elem_of_cons. intros [[= <- <-]|Hin].
  - by rewrite Z.ltb_irrefl, Z.eqb_refl.
  - assert (k' < k).
    { rewrite Forall_forall in Hall. apply Hall.
      apply list_elem_of_fmap. by exists (k, v). }
    rewrite (proj2 (Z.ltb_ge k k')) by lia.
    rewrite (proj2 (Z.eqb_neq k k')) by lia. f_equal. by apply IH.
Qed.

(** Storing again what the root holds changes nothing. *)
Lemma insert_at_root s T x k v :
  bst_inv s T → root s = Some x → entry_at s x = (k, v) →
  insert k v s = Some (tt, s).
Proof.
  intros [Hinv Hsorted] Hroot He.
  pose proof Hinv as (Hr & Hrep & Hlen & _).
  destruct T as [|l y r]; [by rewrite Hroot in Hr|].
  simpl in Hr. rewrite Hroot in Hr. injection Hr as <-.
  injection He as Hk Hv.
  destruct (focus_node s [] l x r Hinv) as (n & Hn & _).
  rewrite entries_keys in Hsorted.
  destruct (insert_here s [] l x r k v Hinv Hsorted Hk) as (s' & Hrun & Hpost).
  assert (insert k v s = (set_value x v;; _splay x) s) as ->.
  { unfold insert. rewrite (bind_eq _ _ _ _ _ (get_root_eq s)). rewrite Hroot.
    rewrite (bind_eq _ _ _ _ _ (loop_fuel_eq s)). cbn [_insert_loop].
    mread get_key_eq. rewrite <- (key_at_lookup _ _ _ Hn), Hk, Z.eqb_refl.
    done. }
  rewrite Hrun. f_equal. f_equal.
  destruct Hpost as (Hinv' & Hent & _).
  cbn [insert_shape] in Hinv', Hent. rewrite Hk, Z.eqb_refl in Hinv', Hent.
  simpl in Hinv', Hent. rewrite app_nil_r in Hent.
  eapply store_determined; [done|done|].
  rewrite Hent. unfold entries. simpl locs.
  apply ins_present.
  - rewrite <- list_fmap_compose. done.
  - apply list_elem_of_fmap. exists x. split; [|in_search].
    unfold entry_at. by rewrite Hk, Hv.
Qed.

End store_identity.

Section splay_extras.
Import SplayTree.
Local Open Scope splay_scope.
Implicit Types (h : list _Node) (s : SplayTree.t) (t : shape) (c : list frame).

Lemma run_ops_model os : ∀ s T (m : gmap Z Z),
  bst_inv s T → (∀ k, assoc k (entries s T) = m !! k) →
  ∃ s' T', run_ops os s = Some (tt, s') ∧ bst_inv s' T' ∧
    ∀ k, assoc k (entries s' T') = foldl op_model m os !! k.
Proof.
  induction os as [|o os IH]; intros s T m Hinv Hm; simpl.
  - by exists s, T.
  - destruct o as [k|k v]; simpl.
    + destruct (tree_get_spec s T k Hinv) as (s1 & T1 & Hget & Hinv1 & He & _).
      rewrite bind_assoc, (bind_eq _ _ _ _ _ Hget), bind_ret.
      apply (IH s1 T1 m Hinv1). intros k'. by rewrite He.
    + destruct (tree_insert_spec s T k v Hinv)
        as (s1 & T1 & x & Hins & Hinv1 & He & _).
      rewrite (bind_eq _ _ _ _ _ Hins).
      apply (IH s1 T1 (<[k := v]> m) Hinv1). intros k'.
      rewrite He, assoc_ins. destruct (Z.eqb_spec k' k) as [->|Hne].
      * by rewrite lookup_insert_eq.
      * by rewrite lookup_insert_ne.
Qed.

Lemma reachable_model os :
  ∃ s T, run_ops os empty = Some (tt, s) ∧ bst_inv s T ∧
    ∀ k, assoc k (entries s T) = ops_model os !! k.
Proof.
  apply (run_ops_model os empty SLeaf ∅ bst_inv_empty). intros k. done.
Qed.

(** X13 (the tree is a finite map).  After any sequence of [insert] and
    [get] calls on an empty tree, [get(k)] returns the value of the last
    [insert] for [k], and [None] when there was none. *)
Theorem X13_splay_tree_is_a_map (os : list op) (k : Z) :
  ∃ s s', run_ops os empty = Some (tt, s) ∧
    get k s = Some (ops_model os !! k, s').
Proof.
  destruct (reachable_model os) as (s & T & Hrun & Hinv & Hm).
  destruct (tree_get_spec s T k Hinv) as (s' & T' & Hget & _).
  exists s, s'. split; [done|]. by rewrite Hget, Hm.
Qed.

(** X14 (one node for each key).  After any sequence of [insert] and
    [get] calls on an empty tree, the in-order traversal lists, in
    increasing order, exactly the keys that were inserted, and the store
    has exactly one node for each of them. *)
Theorem X14_nodes_are_the_inserted_keys (os : list op) :
  ∃ s ks, run_ops os empty = Some (tt, s) ∧
    inorder_keys s = Some ks ∧
    StronglySorted Z.lt ks ∧
    (∀ k, k ∈ ks ↔ is_Some (ops_model os !! k)) ∧
    length (nodes s) = size (ops_model os).
Proof.
  destruct (reachable_model os) as (s & T & Hrun & [Hinv Hsorted] & Hm).
  exists s, (entries s T).*1. split; [done|].
  split; [by apply inorder_keys_spec|]. split; [done|].
  assert (∀ k, k ∈ (entries s T).*1 ↔ is_Some (ops_model os !! k)) as Hk.
  { intros k. rewrite <- Hm. rewrite <- not_eq_None_Some, assoc_None.
    split; [tauto|]. intros H. by destruct (decide (k ∈ (entries s T).*1)). }
  split; [done|].
  destruct Hinv as (_ & _ & Hlen & _). rewrite <- Hlen.
  rewrite <- size_dom.
  assert (dom (ops_model os) = list_to_set (entries s T).*1) as ->.
  { apply set_eq. intros k. rewrite elem_of_dom, elem_of_list_to_set.
    by rewrite Hk. }
  rewrite size_list_to_set by by apply sorted_NoDup.
  unfold entries. by rewrite !length_fmap.
Qed.

(** X15 ([_splay] of any node).  In a tree built by [insert] and [get]
    calls, [_splay(x)] of any node [x] returns, makes [x] the root with
    no parent, and keeps the in-order sequence of keys and the key and
    value of every node. *)
Theorem X15_splay_any_node (os : list op) (x : loc) :
  ∃ s ks, run_ops os empty = Some (tt, s) ∧
    inorder_keys s = Some ks ∧
    ((x < length (nodes s))%nat →
     ∃ s' n, _splay x s = Some (tt, s') ∧
       root s' = Some x ∧
       nodes s' !! x = Some n ∧ parent n = None ∧
       inorder_keys s' = Some ks ∧
       same_data (nodes s) (nodes s')).
Proof.
  destruct (reachable_model os) as (s & T & Hrun & [Hinv Hsorted] & _).
  exists s, (entries s T).*1. split; [done|].
  split; [by apply inorder_keys_spec|]. intros Hx.
  apply (tree_inv_all_locs s T x Hinv) in Hx.
  destruct (focus_exists T x Hx) as (c & l & r & ->).
  destruct (splay_spec s c l x r Hinv) as (s' & Hsplay & Hinv' & Hd).
  destruct (splayed_locs_top c l x r) as [Hlocs Htop].
  pose proof Hinv' as (Hroot' & Hrep' & _).
  destruct (splayed c l x r) as [|l' y r'] eqn:Hs; [done|].
  simpl in Htop. injection Htop as ->.
  destruct Hrep' as (n & Hn & _ & _ & Hp & _).
  exists s', n. split_and!; try done.
  rewrite (inorder_keys_spec s' _ Hinv'). f_equal. f_equal.
  by apply entries_same_data.
Qed.

Lemma sorted_app_lt (kf : loc → Z) (l1 l2 : list loc) a b :
  StronglySorted Z.lt (kf <$> (l1 ++ l2)) → a ∈ l1 → b ∈ l2 → kf a < kf b.
Proof.
  induction l1 as [|y l1 IH]; simpl.
  { intros _ Ha. by apply elem_of_nil in Ha. }
  intros Hs. apply StronglySorted_inv in Hs as [Hs Hall].
  rewrite elem_of_cons. intros [->|Ha] Hb; [|by apply IH].
  rewrite Forall_forall in Hall. apply Hall.
  apply list_elem_of_fmap. exists b. split; [done|]. apply elem_of_app. by right.
Qed.

(** X16 (the links agree).  In a tree built by [insert] and [get] calls,
    the root has no parent; the left child of a node has that node as
    its parent and a smaller key, the right child likewise with a larger
    key; a node with a parent is the left or the right child of it, and
    a node without a parent is the root. *)
Theorem X16_links_are_consistent (os : list op) :
  ∃ s, run_ops os empty = Some (tt, s) ∧
    (∀ x, root s = Some x →
       ∃ n, nodes s !! x = Some n ∧ parent n = None) ∧
    (∀ x n, nodes s !! x = Some n →
       (∀ l, left n = Some l →
          ∃ nl, nodes s !! l = Some nl ∧ parent nl = Some x ∧ key nl < key n) ∧
       (∀ r, right n = Some r →
          ∃ nr, nodes s !! r = Some nr ∧ parent nr = Some x ∧ key n < key nr) ∧
       (∀ p, parent n = Some p →
          ∃ np, nodes s !! p = Some np ∧
            (left np = Some x ∨ right np = Some x)) ∧
       (parent n = None → root s = Some x)).
Proof.
  destruct (reachable_model os) as (s & T & Hrun & [Hinv Hsorted] & _).
  exists s. split; [done|]. rewrite entries_keys in Hsorted. split.
  - intros x Hroot. destruct Hinv as (Hr & Hrep & _). rewrite Hroot in Hr.
    destruct T as [|l y r]; [done|]. simpl in Hr. injection Hr as <-.
    destruct Hrep as (n & Hn & _ & _ & Hp & _). eauto.
  - intros x n Hn.
    assert (x ∈ locs T) as Hx.
    { apply (tree_inv_all_locs s T x Hinv). by apply lookup_lt_Some in Hn. }
    destruct (focus_exists T x Hx) as (c & l & r & ->).
    destruct (focus_node s c l x r Hinv) as (n' & Hn' & Hl & Hr & Hp).
    rewrite Hn in Hn'. injection Hn' as <-.
    pose proof Hinv as (Hroot & Hrep & _).
    apply rep_plug in Hrep as [Hctx Hrep]. simpl in Hrep.
    destruct Hrep as (n' & Hn' & _ & _ & _ & Hrl & Hrr).
    rewrite Hn in Hn'. injection Hn' as <-.
    rewrite locs_plug in Hsorted. simpl in Hsorted.
    rewrite !fmap_app in Hsorted. apply StronglySorted_app_1_r in Hsorted.
    apply StronglySorted_app_1_l in Hsorted. rewrite <- fmap_app in Hsorted.
    split_and!.
    + intros a Ha. rewrite Hl in Ha. destruct l as [|ll b lr]; [done|].
      simpl in Ha. injection Ha as ->. simpl in Hrl.
      destruct Hrl as (nl & Hnl & _ & _ & Hpl & _).
      exists nl. split; [done|]. split; [done|].
      rewrite <- (key_at_lookup _ _ _ Hnl), <- (key_at_lookup _ _ _ Hn).
      apply (sorted_app_lt _ (locs (SNode ll a lr)) (x :: locs r));
        [done|simpl; in_search|in_search].
    + intros a Ha. rewrite Hr in Ha. destruct r as [|rl b rr]; [done|].
      simpl in Ha. injection Ha as ->. simpl in Hrr.
      destruct Hrr as (nr & Hnr & _ & _ & Hpr & _).
      exists nr. split; [done|]. split; [done|].
      rewrite <- (key_at_lookup _ _ _ Hnr), <- (key_at_lookup _ _ _ Hn).
      apply (sorted_app_lt _ (locs l ++ [x]) (locs (SNode rl a rr))).
      * by rewrite <- app_assoc.
      * in_search.
      * simpl. in_search.
    + intros p Hpar. rewrite Hp in Hpar. destruct c as [|f c]; [done|].
      simpl in Hpar. injection Hpar as <-.
      destruct (focus_frame s f c (SNode l x r) Hinv) as (np & Hnp & _ & Hfl & Hfr).
      exists np. split; [done|]. destruct f; simpl in *; eauto.
    + intros Hpar. rewrite Hp in Hpar. destruct c as [|f c]; [|done].
      by rewrite Hroot.
Qed.

(** X17 (a repeated access changes nothing).  In a tree built by
    [insert] and [get] calls, after a [get] that finds [k] the same
    [get] again returns the same value and leaves every object as it is;
    after [insert(k, v)] the same [insert] again changes nothing, and
    [get(k)] returns [v] and changes nothing. *)
Theorem X17_repeated_access (os : list op) (k v : Z) :
  ∃ s, run_ops os empty = Some (tt, s) ∧
    (∀ r s1, get k s = Some (Some r, s1) → get k s1 = Some (Some r, s1)) ∧
    (∃ s1, insert k v s = Some (tt, s1) ∧
       insert k v s1 = Some (tt, s1) ∧
       get k s1 = Some (Some v, s1)).
Proof.
  destruct (reachable_model os) as (s & T & Hrun & Hinv & _).
  exists s. split; [done|]. split.
  - intros r s1 Hget.
    destruct (tree_get_spec s T k Hinv)
      as (s' & T' & Hget' & Hinv' & He & Hd & _ & Hroot).
    rewrite Hget in Hget'. injection Hget' as Hr <-.
    destruct Hinv as [Hinv Hsorted].
    assert (T ≠ SLeaf) as HT.
    { intros ->. done. }
    specialize (Hroot HT).
    assert (k ∈ key_at (nodes s) <$> locs T) as Hin.
    { rewrite <- entries_keys. apply dec_stable. intros Hn.
      apply assoc_None in Hn. congruence. }
    rewrite entries_keys in Hsorted.
    destruct (last_shape_found _ k T Hsorted Hin) as (x & Hx & Hxin & Hk).
    rewrite Hx in Hroot.
    rewrite (get_at_root s1 T' x k Hinv' Hroot).
    + do 3 f_equal.
      assert ((k, value_at (nodes s1) x) ∈ entries s T) as Hel.
      { unfold entries. apply list_elem_of_fmap. exists x. split; [|done].
        unfold entry_at. rewrite Hk. by rewrite (same_data_value_at _ _ _ Hd). }
      apply assoc_elem_of in Hel.
      * congruence.
      * rewrite entries_keys. by apply sorted_NoDup.
    + by rewrite (same_data_key_at _ _ _ Hd).
  - destruct (tree_insert_spec s T k v Hinv)
      as (s1 & T1 & x & Hins & Hinv1 & _ & Hroot & He & _).
    exists s1. split; [done|]. split.
    + by apply (insert_at_root s1 T1 x).
    + injection He as Hk Hv. rewrite (get_at_root s1 T1 x k Hinv1 Hroot Hk).
      by rewrite Hv.
Qed.

(** X18 (a rotation is undone by the opposite one).  In a tree built by
    [insert] and [get] calls, [_right_rotate(x)] of a node with a left
    child [y] followed by [_left_rotate(y)] gives back the state before,
    object by object, and so does [_left_rotate(x)] followed by
    [_right_rotate(y)] for a right child [y]. *)
Theorem X18_rotation_round_trip (os : list op) :
  ∃ s, run_ops os empty = Some (tt, s) ∧
    ∀ x n y, nodes s !! x = Some n →
      (left n = Some y →
         ∃ s1, _right_rotate x s = Some (tt, s1) ∧
               _left_rotate y s1 = Some (tt, s)) ∧
      (right n = Some y →
         ∃ s1, _left_rotate x s = Some (tt, s1) ∧
               _right_rotate y s1 = Some (tt, s)).
Proof.
  destruct (reachable_model os) as (s & T & Hrun & [Hinv Hsorted] & _).
  exists s. split; [done|]. intros x n y Hn.
  assert (x ∈ locs T) as Hx.
  { apply (tree_inv_all_locs s T x Hinv). by apply lookup_lt_Some in Hn. }
  destruct (focus_exists T x Hx) as (c & l & r & ->).
  destruct (focus_node s c l x r Hinv) as (n' & Hn' & Hl & Hr & _).
  rewrite Hn in Hn'. injection Hn' as <-. split.
  - intros Hy. rewrite Hl in Hy. destruct l as [|A y' B]; [done|].
    simpl in Hy. injection Hy as ->.
    destruct (right_rotate_spec s c A y B x r Hinv) as (s1 & Hrun1 & Hinv1 & Hd1).
    destruct (left_rotate_spec s1 c A y B x r Hinv1) as (s2 & Hrun2 & Hinv2 & Hd2).
    exists s1. split; [done|]. rewrite Hrun2. do 2 f_equal.
    eapply store_determined; [done|done|].
    apply entries_same_data; [|done]. by eapply same_data_trans.
  - intros Hy. rewrite Hr in Hy. destruct r as [|B y' D]; [done|].
    simpl in Hy. injection Hy as ->.
    destruct (left_rotate_spec s c l x B y D Hinv) as (s1 & Hrun1 & Hinv1 & Hd1).
    destruct (right_rotate_spec s1 c l x B y D Hinv1) as (s2 & Hrun2 & Hinv2 & Hd2).
    exists s1. split; [done|]. rewrite Hrun2. do 2 f_equal.
    eapply store_determined; [done|done|].
    apply entries_same_data; [|done]. by eapply same_data_trans.
Qed.

End splay_extras.

(* ===================================================================== *)
(** * The memo tables of the Fibonacci functions *)

Section fibonacci_extras.
Import SplayTree.
Local Open Scope splay_scope.

Lemma fib_table_keys n : (fib_table n).*1 = Z.of_nat <$> seq 0 (S n).
Proof. unfold fib_table. rewrite <- list_fmap_compose. done. Qed.

Lemma fib_table_NoDup n : NoDup (fib_table n).*1.
Proof.
  rewrite fib_table_keys. apply NoDup_fmap_2; [apply _|apply NoDup_seq].
Qed.

Lemma fib_table_S n :
  fib_table (S n) = fib_table n ++ [(Z.of_nat (S n), fib (S n))].
Proof. unfold fib_table. by rewrite (seq_S (S n)), fmap_app. Qed.

Lemma assoc_fib_table n k :
  (k ≤ n)%nat → assoc (Z.of_nat k) (fib_table n) = Some (fib k).
Proof.
  intros Hk. apply assoc_elem_of; [apply fib_table_NoDup|].
  unfold fib_table. apply list_elem_of_fmap. exists k. split; [done|].
  apply elem_of_seq. lia.
Qed.

Lemma assoc_fib_table_None n k :
  k < 0 ∨ Z.of_nat n < k → assoc k (fib_table n) = None.
Proof.
  intros Hk. apply assoc_None. rewrite fib_table_keys.
  intros (i & -> & Hi%elem_of_seq)%list_elem_of_fmap. lia.
Qed.

Lemma ins_fib_table n :
  ins (Z.of_nat (S n)) (fib (S n)) (fib_table n) = fib_table (S n).
Proof.
  rewrite fib_table_S. rewrite <- (app_nil_r (fib_table n)) at 1.
  rewrite ins_app_gt; [done|].
  unfold fib_table. rewrite Forall_fmap. apply Forall_forall.
  intros i Hi%elem_of_seq. simpl. lia.
Qed.

(** One call of [fibonacci_splay], up to its recursive calls. *)
Lemma fibonacci_splay_rec_unfold fuel n s T :
  bst_inv s T →
  ∃ s0 T0, bst_inv s0 T0 ∧ entries s0 T0 = entries s T ∧
    fibonacci_splay_rec (S fuel) n s =
      match assoc n (entries s T) with
      | Some cached => Some (cached, s0)
      | None =>
          (if n <? 2 then insert n n;; ret n
           else a ← fibonacci_splay_rec fuel (n - 1);
                b ← fibonacci_splay_rec fuel (n - 2);
                insert n (a + b);; ret (a + b)) s0
      end.
Proof.
  intros Hinv.
  destruct (tree_get_spec s T n Hinv) as (s0 & T0 & Hget & Hinv0 & Hent0 & _).
  exists s0, T0. split; [done|]. split; [done|].
  cbn [fibonacci_splay_rec]. rewrite (bind_eq _ _ _ _ _ Hget).
  by destruct (assoc n (entries s T)).
Qed.

Lemma insert_ret s T n v :
  bst_inv s T →
  ∃ s' T' x, (insert n v;; ret v) s = Some (v, s') ∧
    bst_inv s' T' ∧ entries s' T' = ins n v (entries s T) ∧
    root s' = Some x ∧ entry_at s' x = (n, v).
Proof.
  intros Hinv.
  destruct (tree_insert_spec s T n v Hinv)
    as (s1 & T1 & x & Hins & Hinv1 & Hent1 & Hroot & He & _).
  exists s1, T1, x. by rewrite (bind_eq _ _ _ _ _ Hins).
Qed.

(** After a hit the node found is the root. *)
Lemma get_hit_root s T k r s1 :
  bst_inv s T → get k s = Some (Some r, s1) →
  ∃ T1 x, bst_inv s1 T1 ∧ entries s1 T1 = entries s T ∧
    root s1 = Some x ∧ entry_at s1 x = (k, r).
Proof.
  intros Hinv Hget.
  destruct (tree_get_spec s T k Hinv)
    as (s' & T' & Hget' & Hinv' & He & Hd & _ & Hroot).
  rewrite Hget in Hget'. injection Hget' as Hr <-.
  destruct Hinv as [Hinv Hsorted].
  assert (T ≠ SLeaf) as HT by (by intros ->).
  specialize (Hroot HT).
  assert (k ∈ key_at (nodes s) <$> locs T) as Hin.
  { rewrite <- entries_keys. apply dec_stable. intros Hn.
    apply assoc_None in Hn. congruence. }
  pose proof Hsorted as Hsorted'. rewrite entries_keys in Hsorted'.
  destruct (last_shape_found _ k T Hsorted' Hin) as (x & Hx & Hxin & Hk).
  rewrite Hx in Hroot. exists T', x. split_and!; [done..|].
  assert ((k, value_at (nodes s) x) ∈ entries s T) as Hel.
  { unfold entries. apply list_elem_of_fmap. exists x. split; [|done].
    unfold entry_at. by rewrite Hk. }
  apply assoc_elem_of in Hel; [|by apply sorted_NoDup].
  unfold entry_at. rewrite (same_data_key_at _ _ _ Hd), Hk.
  rewrite (same_data_value_at _ _ _ Hd). congruence.
Qed.

(** Whenever [fibonacci_splay] returns, the root holds its argument and
    its result. *)
Lemma fibonacci_splay_rec_root fuel : ∀ n s T v s',
  bst_inv s T → fibonacci_splay_rec fuel n s = Some (v, s') →
  ∃ T' x, bst_inv s' T' ∧ root s' = Some x ∧ entry_at s' x = (n, v).
Proof.
  induction fuel as [|fuel IH]; intros n s T v s' Hinv; [done|].
  cbn [fibonacci_splay_rec].
  destruct (tree_get_spec s T n Hinv) as (s0 & T0 & Hget & Hinv0 & _).
  rewrite (bind_eq _ _ _ _ _ Hget).
  destruct (assoc n (entries s T)) as [r|] eqn:Hassoc.
  { unfold ret. intros [= <- <-].
    destruct (get_hit_root s T n r s0 Hinv Hget) as (T1 & x & ? & _ & ? & ?).
    by exists T1, x. }
  destruct (n <? 2).
  - destruct (insert_ret s0 T0 n n Hinv0) as (s1 & T1 & x & -> & ? & _ & ? & ?).
    intros [= <- <-]. by exists T1, x.
  - destruct (fibonacci_splay_rec fuel (n - 1) s0) as [[a s1]|] eqn:H1;
      [|by unfold bind; rewrite H1].
    rewrite (bind_eq _ _ _ _ _ H1).
    destruct (IH _ _ _ _ _ Hinv0 H1) as (T1 & _ & Hinv1 & _).
    destruct (fibonacci_splay_rec fuel (n - 2) s1) as [[b s2]|] eqn:H2;
      [|by unfold bind; rewrite H2].
    rewrite (bind_eq _ _ _ _ _ H2).
    destruct (IH _ _ _ _ _ Hinv1 H2) as (T2 & _ & Hinv2 & _).
    cbv zeta.
    destruct (insert_ret s2 T2 n (a + b) Hinv2)
      as (s3 & T3 & x & -> & ? & _ & ? & ?).
    intros [= <- <-]. by exists T3, x.
Qed.

Lemma fibonacci_splay_small n s T :
  bst_inv s T → assoc n (entries s T) = None → n < 2 →
  ∃ s' T', fibonacci_splay n s = Some (n, s') ∧ bst_inv s' T' ∧
    entries s' T' = ins n n (entries s T).
Proof.
  intros Hinv Hassoc Hn. unfold fibonacci_splay.
  destruct (fibonacci_splay_rec_unfold (Z.to_nat n) n s T Hinv)
    as (s0 & T0 & Hinv0 & He0 & ->).
  rewrite Hassoc, (proj2 (Z.ltb_lt n 2)) by done.
  destruct (insert_ret s0 T0 n n Hinv0) as (s1 & T1 & x & -> & ? & He & _).
  exists s1, T1. by rewrite He, He0.
Qed.

(** X19 (the second call is a hit).  For every [n], [fibonacci_splay(n,
    t)] on a fresh tree returns, and the same call on the tree that it
    leaves returns the same value and changes nothing in the tree. *)
Theorem X19_fibonacci_splay_memoizes (n : Z) :
  ∃ v t', fibonacci_splay n empty = Some (v, t') ∧
    fibonacci_splay n t' = Some (v, t').
Proof.
  assert (∃ v t', fibonacci_splay n empty = Some (v, t')) as (v & t' & Hrun).
  { destruct (Z.lt_ge_cases n 2).
    - destruct (fibonacci_splay_small n empty SLeaf bst_inv_empty)
        as (s' & T' & Hr & _); [done|done|]. eauto.
    - destruct (fibonacci_splay_rec_spec (S (Z.to_nat n)) n empty SLeaf)
        as (s' & T' & Hr & _); [lia|lia|apply bst_inv_empty|constructor|].
      eauto. }
  exists v, t'. split; [done|].
  destruct (fibonacci_splay_rec_root _ _ _ _ _ _ bst_inv_empty Hrun)
    as (T' & x & Hinv' & Hroot & He).
  injection He as Hk Hv.
  unfold fibonacci_splay. cbn [fibonacci_splay_rec].
  rewrite (bind_eq _ _ _ _ _ (get_at_root t' T' x n Hinv' Hroot Hk)).
  by rewrite Hv.
Qed.

(** X20 (arguments below 2).  For [n < 2], negative arguments included,
    both functions return [n] itself: [fibonacci_splay] on a fresh tree
    leaves the single entry [n ↦ n], and [fibonacci_lru] on an empty
    cache the same one. *)
Theorem X20_fibonacci_below_two (n : Z) :
  n < 2 →
  (∃ t', fibonacci_splay n empty = Some (n, t') ∧
     inorder_keys t' = Some [n] ∧
     ∃ t'', get n t' = Some (Some n, t'')) ∧
  fibonacci_lru n ∅ = Some (n, {[n := n]}).
Proof.
  intros Hn. split.
  - destruct (fibonacci_splay_small n empty SLeaf bst_inv_empty)
      as (s' & T' & Hr & Hinv & He); [done|done|].
    exists s'. split; [done|]. split.
    + rewrite (inorder_keys_spec s' T') by apply Hinv. by rewrite He.
    + destruct (tree_get_spec s' T' n Hinv) as (s'' & _ & Hget & _).
      exists s''. rewrite Hget, He. simpl. by rewrite Z.eqb_refl.
  - unfold fibonacci_lru. cbn [fibonacci_lru_rec]. rewrite lookup_empty.
    by rewrite (proj2 (Z.ltb_lt n 2)) by done.
Qed.

Lemma X20_fibonacci_below_two_witness :
  -3 < 2 ∧
  (∃ t', fibonacci_splay (-3) empty = Some (-3, t')) ∧
  fibonacci_lru (-3) ∅ = Some (-3, {[-3 := -3]}).
Proof.
  split; [lia|].
  destruct (X20_fibonacci_below_two (-3)) as [(t' & H1 & _) H2]; [lia|].
  split; [by exists t'|exact H2].
Defined.

Lemma fibonacci_splay_rec_hit fuel n s T v :
  bst_inv s T → assoc n (entries s T) = Some v →
  ∃ s' T', fibonacci_splay_rec (S fuel) n s = Some (v, s') ∧
    bst_inv s' T' ∧ entries s' T' = entries s T.
Proof.
  intros Hinv Hassoc.
  destruct (fibonacci_splay_rec_unfold fuel n s T Hinv)
    as (s0 & T0 & Hinv0 & He0 & ->).
  rewrite Hassoc. by exists s0, T0.
Qed.

Lemma fibonacci_splay_rec_fills fuel : ∀ n s T,
  2 ≤ n → (Z.to_nat n < fuel)%nat → bst_inv s T → entries s T = [] →
  ∃ s' T', fibonacci_splay_rec fuel n s = Some (fib (Z.to_nat n), s') ∧
    bst_inv s' T' ∧ entries s' T' = fib_table (Z.to_nat n).
Proof.
  induction fuel as [|fuel IH]; intros n s T Hn Hfuel Hinv Hempty; [lia|].
  destruct (fibonacci_splay_rec_unfold fuel n s T Hinv)
    as (s0 & T0 & Hinv0 & He0 & ->).
  rewrite Hempty in *. simpl. rewrite (proj2 (Z.ltb_ge n 2)) by done.
  assert (∃ s2 T2,
    (a ← fibonacci_splay_rec fuel (n - 1);
     b ← fibonacci_splay_rec fuel (n - 2); ret (a, b)) s0
      = Some ((fib (Z.to_nat (n - 1)), fib (Z.to_nat (n - 2))), s2) ∧
    bst_inv s2 T2 ∧ entries s2 T2 = fib_table (Z.to_nat (n - 1)))
    as (s2 & T2 & Hsub & Hinv2 & He2).
  { destruct (decide (n = 2)) as [->|Hne].
    - destruct fuel as [|fuel]; [lia|].
      destruct (fibonacci_splay_rec_unfold fuel 1 s0 T0 Hinv0)
        as (s1 & T1 & Hinv1 & He1 & Hr1).
      rewrite He0 in He1, Hr1. simpl in Hr1.
      destruct (insert_ret s1 T1 1 1 Hinv1)
        as (s1' & T1' & x & Hi1 & Hinv1' & He1' & _).
      rewrite Hi1 in Hr1. rewrite He1 in He1'. simpl in He1'.
      simpl. rewrite (bind_eq _ _ _ _ _ Hr1).
      destruct (fibonacci_splay_rec_unfold fuel 0 s1' T1' Hinv1')
        as (s2 & T2 & Hinv2 & He2 & Hr2).
      rewrite He1' in He2, Hr2. simpl in Hr2.
      destruct (insert_ret s2 T2 0 0 Hinv2)
        as (s2' & T2' & y & Hi2 & Hinv2' & He2' & _).
      rewrite Hi2 in Hr2. rewrite He2 in He2'. simpl in He2'.
      rewrite (bind_eq _ _ _ _ _ Hr2). unfold ret.
      exists s2', T2'. by split_and!.
    - destruct (IH (n - 1) s0 T0) as (s1 & T1 & Hr1 & Hinv1 & He1);
        [lia|lia|done|done|].
      rewrite (bind_eq _ _ _ _ _ Hr1).
      destruct fuel as [|fuel]; [lia|].
      destruct (fibonacci_splay_rec_hit fuel (n - 2) s1 T1
                  (fib (Z.to_nat (n - 2))) Hinv1)
        as (s2 & T2 & Hr2 & Hinv2 & He2).
      { rewrite He1. rewrite <- (Z2Nat.id (n - 2)) at 1 by lia.
        apply assoc_fib_table. lia. }
      rewrite (bind_eq _ _ _ _ _ Hr2). unfold ret.
      exists s2, T2. split_and!; [done|done|congruence]. }
  assert (∀ K : Z → Z → M Z,
    (a ← fibonacci_splay_rec fuel (n - 1);
     b ← fibonacci_splay_rec fuel (n - 2); K a b) s0
    = K (fib (Z.to_nat (n - 1))) (fib (Z.to_nat (n - 2))) s2) as Hrun.
  { intros K. unfold bind in *.
    destruct (fibonacci_splay_rec fuel (n - 1) s0) as [[a s1]|]; [|done].
    destruct (fibonacci_splay_rec fuel (n - 2) s1) as [[b s2']|]; [|done].
    unfold ret in Hsub. by injection Hsub as -> -> ->. }
  rewrite (Hrun (λ a b, insert n (a + b);; ret (a + b))).
  rewrite <- fib_step by done.
  destruct (insert_ret s2 T2 n (fib (Z.to_nat n)) Hinv2)
    as (s3 & T3 & x & -> & Hinv3 & He3 & _).
  exists s3, T3. split_and!; [done|done|].
  rewrite He3, He2.
  replace (Z.to_nat n) with (S (Z.to_nat (n - 1))) by lia.
  rewrite <- ins_fib_table. f_equal. lia.
Qed.

(** X21 (the table of [fibonacci_splay]).  For [n ≥ 2],
    [fibonacci_splay(n, t)] on a fresh tree leaves [n + 1] nodes, with
    the keys [0, 1, ..., n] in order, and [get(k)] on that tree returns
    the [k]-th Fibonacci number for [0 ≤ k ≤ n] and [None] for any
    other key. *)
Theorem X21_fibonacci_splay_table (n : Z) :
  2 ≤ n →
  ∃ t', fibonacci_splay n empty = Some (fib (Z.to_nat n), t') ∧
    inorder_keys t' = Some (Z.of_nat <$> seq 0 (S (Z.to_nat n))) ∧
    length (nodes t') = S (Z.to_nat n) ∧
    ∀ k, ∃ t'',
      get k t' = Some (if decide (0 ≤ k ∧ k ≤ n) then Some (fib (Z.to_nat k))
                       else None, t'').
Proof.
  intros Hn.
  destruct (fibonacci_splay_rec_fills (S (Z.to_nat n)) n empty SLeaf)
    as (t' & T' & Hrun & Hinv & He); [done|lia|apply bst_inv_empty|done|].
  exists t'. split; [done|]. split_and!.
  - rewrite (inorder_keys_spec t' T') by apply Hinv.
    by rewrite He, fib_table_keys.
  - destruct Hinv as [(_ & _ & <- & _) _].
    assert (length (entries t' T') = length (locs T')) as <-.
    { unfold entries. by rewrite length_fmap. }
    rewrite He. unfold fib_table. by rewrite length_fmap, length_seq.
  - intros k. destruct (tree_get_spec t' T' k Hinv) as (t'' & _ & Hget & _).
    exists t''. rewrite Hget, He. f_equal. f_equal. case_decide as Hk.
    + rewrite <- (Z2Nat.id k) at 1 by lia. apply assoc_fib_table. lia.
    + apply assoc_fib_table_None. lia.
Qed.

Lemma X21_fibonacci_splay_table_witness :
  2 ≤ 6 ∧
  ∃ t', fibonacci_splay 6 empty = Some (8, t') ∧
    inorder_keys t' = Some [0; 1; 2; 3; 4; 5; 6].
Proof.
  split; [lia|].
  destruct (X21_fibonacci_splay_table 6) as (t' & H1 & H2 & _); [lia|].
  exists t'. split; [exact H1|exact H2].
Defined.

End fibonacci_extras.

Section fibonacci_lru_extras.

Lemma lookup_list_to_map_assoc (l : list (Z * Z)) k :
  (list_to_map l : gmap Z Z) !! k = assoc k l.
Proof.
  induction l as [|[k' v] l IH]; simpl; [done|].
  destruct (Z.eqb_spec k k') as [->|Hne].
  - by rewrite lookup_insert_eq.
  - by rewrite lookup_insert_ne.
Qed.

Lemma fibonacci_lru_rec_fills fuel : ∀ n,
  2 ≤ n → (Z.to_nat n < fuel)%nat →
  fibonacci_lru_rec fuel n ∅
    = Some (fib (Z.to_nat n), list_to_map (fib_table (Z.to_nat n))).
Proof.
  induction fuel as [|fuel IH]; intros n Hn Hfuel; [lia|].
  cbn [fibonacci_lru_rec]. rewrite lookup_empty.
  rewrite (proj2 (Z.ltb_ge n 2)) by done.
  destruct (decide (n = 2)) as [->|Hne].
  - destruct fuel as [|fuel]; [lia|]. reflexivity.
  - rewrite IH by lia. destruct fuel as [|fuel]; [lia|].
    cbn [fibonacci_lru_rec]. rewrite lookup_list_to_map_assoc.
    rewrite <- (Z2Nat.id (n - 2)) at 1 by lia.
    rewrite assoc_fib_table by lia.
    rewrite <- fib_step by done. do 2 f_equal.
    replace (Z.to_nat n) with (S (Z.to_nat (n - 1))) by lia.
    rewrite fib_table_S. rewrite list_to_map_snoc.
    + f_equal. lia.
    + rewrite fib_table_keys.
      intros (i & Hi & Hin%elem_of_seq)%list_elem_of_fmap. lia.
Qed.

(** X22 (the table of [fibonacci_lru]).  For [n ≥ 2], [fibonacci_lru(n)]
    on an empty cache leaves a cache that holds the [k]-th Fibonacci
    number for every [0 ≤ k ≤ n] and nothing else, and the same call
    again returns the same value from that cache without changing
    it. *)
Theorem X22_fibonacci_lru_table (n : Z) :
  2 ≤ n →
  ∃ c', fibonacci_lru n ∅ = Some (fib (Z.to_nat n), c') ∧
    (∀ k, c' !! k = if decide (0 ≤ k ∧ k ≤ n) then Some (fib (Z.to_nat k))
                    else None) ∧
    fibonacci_lru n c' = Some (fib (Z.to_nat n), c').
Proof.
  intros Hn. unfold fibonacci_lru.
  rewrite fibonacci_lru_rec_fills by lia.
  eexists. split; [done|].
  assert (∀ k, (list_to_map (fib_table (Z.to_nat n)) : gmap Z Z) !! k
               = if decide (0 ≤ k ∧ k ≤ n) then Some (fib (Z.to_nat k))
                 else None) as Hk.
  { intros k. rewrite lookup_list_to_map_assoc. case_decide as Hk.
    - rewrite <- (Z2Nat.id k) at 1 by lia. apply assoc_fib_table. lia.
    - apply assoc_fib_table_None. lia. }
  split; [done|].
  cbn [fibonacci_lru_rec]. rewrite Hk. by rewrite decide_True by lia.
Qed.

Lemma X22_fibonacci_lru_table_witness :
  2 ≤ 6 ∧
  ∃ c', fibonacci_lru 6 ∅ = Some (8, c') ∧ c' !! 5 = Some 5 ∧ c' !! 7 = None.
Proof.
  split; [lia|].
  destruct (X22_fibonacci_lru_table 6) as (c' & H1 & H2 & _); [lia|].
  exists c'. split; [exact H1|]. split; [exact (H2 5)|exact (H2 7)].
Defined.

End fibonacci_lru_extras.
